(** * godsp: sectioned Daubechies-4 lifting transform and persistence peaks

    A shallow embedding of [dwt/dwt.go] (current version, with transform
    sections), of the vector helpers it calls ([Pow2], [Log2],
    [DownSample], [Range]) and of the persistent-homology peak detector
    ([GetPeaks], [GetIndices], [MinMaxPersistence]).  Further functions
    of the same files follow: [Max] of the peak detector, the helpers
    [IsPowerOf2], [AbsInt], [MaxInt], [FindMaxI], [Multiplex],
    [DownSampleAll], [Sum] and [MovAvg], [Get] of package peaks, and the
    coefficient functions of the first revision of [dwt.go].

    Conventions of the embedding
    - Go's [int] is the 64-bit two's complement integer: a [Z] kept in
      [-2^63, 2^63) by [wrap] wherever the source does arithmetic that can
      leave that range.
    - Go's [float64] is IEEE-754 binary64: [spec_float] with the operations
      of [SpecFloat] at precision 53 and maximal exponent 1024 (no fused
      multiply-add).
    - A slice is a [list]; indexing and slicing outside the bounds is a
      run-time panic, which the [result] type makes explicit. *)

From Stdlib Require Import ZArith Lia List Bool SpecFloat Permutation.
From stdpp Require Import base list sorting.
Import ListNotations.

Local Open Scope Z_scope.

(** ** Outcome of a Go computation *)

(** [Ok a]: the computation returns [a].  [Panic]: it stops with a
    run-time panic.  [OutOfFuel]: the bound the model puts on a loop with
    no bound of its own was reached.  Where the loop of the program ends
    the bound is shown to suffice ([getTransformSections_fuel],
    [Pow2_cases]);
    the one loop that does not end, that of [Pow2] at the maximal [int],
    gives [OutOfFuel] under every bound ([pow2_loop_diverges]). *)
Inductive result (A : Type) : Type :=
| Ok (a : A)
| Panic
| OutOfFuel.
Arguments Ok {A} a.
Arguments Panic {A}.
Arguments OutOfFuel {A}.

Definition bind {A B : Type} (m : result A) (k : A -> result B) : result B :=
  match m with
  | Ok a => k a
  | Panic => Panic
  | OutOfFuel => OutOfFuel
  end.

Notation "'do' x <- m ; k" := (bind m (fun x => k))
  (at level 10, x name, m at level 100, k at level 200).
Notation "'do' ' p <- m ; k" := (bind m (fun x => let 'p := x in k))
  (at level 10, p strict pattern, m at level 100, k at level 200).

(** ** Machine integers *)

Module Int.

Definition min_int : Z := - 2 ^ 63.
Definition max_int : Z := 2 ^ 63 - 1.

(** Two's complement wrap-around of a mathematical integer to [int]. *)
Definition wrap (z : Z) : Z := (z + 2 ^ 63) mod 2 ^ 64 - 2 ^ 63.

Definition in_range (z : Z) : Prop := min_int <= z <= max_int.

(** Go's [/] and [%] on [int] truncate towards zero and panic on a zero
    divisor. *)
Definition div (a b : Z) : result Z :=
  if b =? 0 then Panic else Ok (wrap (Z.quot a b)).
Definition rem (a b : Z) : result Z :=
  if b =? 0 then Panic else Ok (Z.rem a b).

(** Division by the constant 2. *)
Definition half (a : Z) : Z := Z.quot a 2.

End Int.

(** ** float64 *)

Definition float64 : Type := spec_float.

Module F64.

Definition prec : Z := 53.
Definition emax : Z := 1024.

Definition add : float64 -> float64 -> float64 := SFadd prec emax.
Definition sub : float64 -> float64 -> float64 := SFsub prec emax.
Definition mul : float64 -> float64 -> float64 := SFmul prec emax.
Definition div : float64 -> float64 -> float64 := SFdiv prec emax.
Definition sqrt : float64 -> float64 := SFsqrt prec emax.

(** Conversion of an integer constant. *)
Definition of_Z (z : Z) : float64 := binary_normalize prec emax z 0 false.

Definition zero : float64 := S754_zero false.
Definition inf : float64 := S754_infinity false.      (* math.Inf(1) *)
Definition neg_inf : float64 := S754_infinity true.   (* math.Inf(-1) *)
Definition nan : float64 := S754_nan.

(** Go's comparisons: false as soon as an operand is NaN. *)
Definition lt (x y : float64) : bool := SFltb x y.
Definition gt (x y : float64) : bool := SFltb y x.
Definition ge (x y : float64) : bool := SFleb y x.

Definition is_nan (x : float64) : bool :=
  match x with S754_nan => true | _ => false end.

End F64.

Declare Scope f64_scope.
Delimit Scope f64_scope with f64.
Infix "+" := F64.add : f64_scope.
Infix "-" := F64.sub : f64_scope.
Infix "*" := F64.mul : f64_scope.
Infix "/" := F64.div : f64_scope.

(** ** Slices *)

Definition len {A : Type} (s : list A) : Z := Z.of_nat (length s).

(** [s[i]] as an operand. *)
Definition get {A : Type} (s : list A) (i : Z) : result A :=
  if i <? 0 then Panic
  else match s !! Z.to_nat i with
       | Some x => Ok x
       | None => Panic
       end.

(** [s[i] = v]. *)
Definition set {A : Type} (s : list A) (i : Z) (v : A) : result (list A) :=
  if (0 <=? i) && (i <? len s) then Ok (<[Z.to_nat i := v]> s) else Panic.

(** [s[a:b]] as a value (the capacity of every slice here is its length). *)
Definition slice {A : Type} (s : list A) (a b : Z) : result (list A) :=
  if (0 <=? a) && (a <=? b) && (b <=? len s)
  then Ok (take (Z.to_nat (b - a)) (drop (Z.to_nat a) s))
  else Panic.

(** [f(s[a:b])] for an [f] that writes through the slice: the window is
    replaced, in the backing array, by what [f] leaves in it. *)
Definition on_window {A : Type} (f : list A -> result (list A))
    (s : list A) (a b : Z) : result (list A) :=
  do w <- slice s a b;
  do w' <- f w;
  Ok (take (Z.to_nat a) s ++ w' ++ drop (Z.to_nat b) s).

(** [make([]T, n)] with every element [z]. *)
Definition make {A : Type} (z : A) (n : Z) : result (list A) :=
  if n <? 0 then Panic else Ok (replicate (Z.to_nat n) z).

(** ** Loops *)

(** [count] rounds of [body], the counter starting at [n] and advancing by
    [step]. *)
Fixpoint for_loop {S : Type} (count : nat) (n step : Z)
    (body : Z -> S -> result S) (s : S) : result S :=
  match count with
  | O => Ok s
  | S c => do s' <- body n s; for_loop c (n + step) step body s'
  end.

(** [for n := a; n < b; n++ { body }]. *)
Definition for_range {S : Type} (a b : Z) (body : Z -> S -> result S) (s : S)
    : result S :=
  for_loop (Z.to_nat (b - a)) a 1 body s.

(** [for i := a; i < b; i += 2 { body }]. *)
Definition for_step2 {S : Type} (a b : Z) (body : Z -> S -> result S) (s : S)
    : result S :=
  for_loop (Z.to_nat ((b - a + 1) / 2)) a 2 body s.

(** [for i, v := range l { body }] and [for _, v := range l { body }]. *)
Fixpoint range_loop {A S : Type} (i : Z) (l : list A)
    (body : Z -> A -> S -> result S) (s : S) : result S :=
  match l with
  | [] => Ok s
  | v :: l' => do s' <- body i v s; range_loop (i + 1) l' body s'
  end.

(** ** Vector helpers (package godsp) *)

(** The loop [for i := 1; i <= x; i++ { pw *= 2 }] of [Pow2]: the counter
    [i] and the power [pw] are both [int]s and wrap around. *)
Fixpoint pow2_loop (fuel : nat) (x i pw : Z) : result Z :=
  match fuel with
  | O => OutOfFuel
  | S fuel' =>
      if i <=? x then pow2_loop fuel' x (Int.wrap (i + 1)) (Int.wrap (pw * 2))
      else Ok pw
  end.

(** [Pow2]: panics on a negative exponent, otherwise doubles [pw] once for
    every [i] from 1 to [x], in [int] arithmetic.  For [x] below the
    maximal [int] the loop ends after [x] rounds, which [x + 1] tests of
    its condition detect.  At the maximal [int] the condition [i <= x]
    holds of every [int]: the counter wraps around and the loop never
    ends, whatever the fuel ([pow2_loop_diverges]). *)
Definition Pow2 (x : Z) : result Z :=
  if x <? 0 then Panic else pow2_loop (Z.to_nat x + 1) x 1 1.

(** [Log2 n] is [int(math.Log2(float64(n)))].  [math.Log2] belongs to Go's
    standard library and is not embedded; it is taken by the contract the
    function's comment documents ("log2(12) ~ 3.6. Log2 returns 3"), the
    integer logarithm.  The source meets this contract for
    [0 < n < 2^49 - 1] only: there the float logarithm lies far enough
    below the next integer to be truncated to [floor(log2 n)].  From
    [n = 2^49 - 1] on, the float logarithm of a number just below a power
    of two [2^k] rounds to [k] itself, so that the source returns [k] where
    this definition has [k - 1]; the definition says nothing of the source
    there.  The properties of [getTransformSections], a function of a
    length, are therefore stated for lengths below [2^49 - 1]; those of
    [Daubechies4] and of the coefficient functions are about a slice of
    [float64], which at 8 bytes a sample never has that many elements.
    For [n <= 0] the float is
    [-Inf] or [NaN], whose conversion to [int] yields the minimal integer
    on amd64 and arm64. *)
Definition Log2 (n : Z) : Z :=
  if n <=? 0 then Int.min_int else Z.log2 n.

(** [Range n] is the slice [0, 1, ..., n-1]. *)
Definition Range (n : Z) : list Z := seqZ 0 n.

(** [DownSample]: panics unless [len x] is a multiple of [n]; keeps
    [x[0], x[n], x[2n], ...]. *)
Definition DownSample (x : list float64) (n : Z) : result (list float64) :=
  do r <- Int.rem (len x) n;
  if negb (r =? 0) then Panic
  else
    do m <- Int.div (len x) n;
    do x1 <- make F64.zero m;
    do ' (_, x1') <-
      for_range 0 (len x1)
        (fun j '(i, x1) =>
           do v <- get x i;
           do x1' <- set x1 j v;
           Ok (Int.wrap (i + n), x1'))
        (0, x1);
    Ok x1'.

(** ** Transform sections *)

Record transformSection : Type := mkSection { start : Z; size : Z }.

(** The loop of [getTransformSections]; [st] is the loop variable [start]
    and [acc] the slice [sections] built so far. *)
Fixpoint sections_loop (fuel : nat) (N level st : Z)
    (acc : list transformSection) : result (list transformSection) :=
  match fuel with
  | O => OutOfFuel
  | S fuel' =>
      do p <- Pow2 level;
      if Int.wrap (N - st) >=? Int.wrap (64 * p) then
        do sz <- Pow2 (Log2 (Int.wrap (N - st)));
        sections_loop fuel' N level (Int.wrap (st + sz))
          (acc ++ [mkSection st sz])
      else Ok acc
  end.

Definition getTransformSections (N level : Z) : result (list transformSection) :=
  sections_loop (Z.to_nat N + 2) N level 0 [].

(** The partition as the specification words it: from [st], while the
    remaining length is at least [64 * 2^level], take a section of size
    [2^floor(log2 remaining)]. *)
Inductive Greedy (N level : Z) : Z -> list transformSection -> Prop :=
| Greedy_stop st :
    N - st < 64 * 2 ^ level -> Greedy N level st []
| Greedy_take st ss :
    64 * 2 ^ level <= N - st ->
    Greedy N level (st + 2 ^ Z.log2 (N - st)) ss ->
    Greedy N level st (mkSection st (2 ^ Z.log2 (N - st)) :: ss).

(** Sections laid end to end from [st], each of positive size. *)
Fixpoint contiguous (st : Z) (ss : list transformSection) : Prop :=
  match ss with
  | [] => True
  | s :: rest => start s = st /\ 0 < size s /\ contiguous (st + size s) rest
  end.

Definition power_of_two (z : Z) : Prop := exists k, 0 <= k /\ z = 2 ^ k.

Definition total_size (ss : list transformSection) : Z :=
  fold_right (fun s acc => size s + acc) 0 ss.

(** ** The lifting pass *)

Local Open Scope f64_scope.

(** [split]: odd-indexed elements are saved in [odd], even-indexed ones
    are moved down in place, then [odd] is copied into the back half. *)
Definition split (s : list float64) : result (list float64) :=
  let half := Int.half (len s) in
  do odd <- make F64.zero half;
  do odd <- for_step2 1 (len s)
              (fun i odd => do v <- get s i; set odd (Int.half i) v) odd;
  do s <- for_step2 2 (len s)
            (fun i s => do v <- get s i; set s (Int.half i) v) s;
  range_loop 0 odd (fun i v s => set s (half + i)%Z v) s.

Definition sqrt3 : float64 := F64.sqrt (F64.of_Z 3).
Definition sqrt2 : float64 := F64.sqrt (F64.of_Z 2).
Definition four : float64 := F64.of_Z 4.
Definition two : float64 := F64.of_Z 2.
Definition one : float64 := F64.of_Z 1.

Definition update1 (half : Z) (s : list float64) : result (list float64) :=
  for_range 0 half
    (fun n s =>
       do a <- get s n;
       do b <- get s (half + n)%Z;
       set s n (a + sqrt3 * b)) s.

Definition predict (half : Z) (s : list float64) : result (list float64) :=
  do a <- get s half;
  do b <- get s 0;
  do c <- get s (half - 1)%Z;
  do s <- set s half (a - (sqrt3 / four) * b - ((sqrt3 - two) / four) * c);
  for_range 1 half
    (fun n s =>
       do a <- get s (half + n)%Z;
       do b <- get s n;
       do c <- get s (n - 1)%Z;
       set s (half + n)%Z
         (a - (sqrt3 / four) * b - ((sqrt3 - two) / four) * c)) s.

Definition update2 (half : Z) (s : list float64) : result (list float64) :=
  do s <- for_range 0 (half - 1)
            (fun n s =>
               do a <- get s n;
               do b <- get s (half + n + 1)%Z;
               set s n (a - b)) s;
  do a <- get s (half - 1)%Z;
  do b <- get s half;
  set s (half - 1)%Z (a - b).

Definition normalise (half : Z) (s : list float64) : result (list float64) :=
  for_range 0 half
    (fun n s =>
       do a <- get s n;
       do s <- set s n (((sqrt3 - one) / sqrt2) * a);
       do b <- get s (n + half)%Z;
       set s (n + half)%Z (((sqrt3 + one) / sqrt2) * b)) s.

(** [daubechies4]: the four stages run one after the other on the same
    slice. *)
Definition daubechies4 (s : list float64) : result (list float64) :=
  let half := Int.half (len s) in
  do s <- update1 half s;
  do s <- predict half s;
  do s <- update2 half s;
  normalise half s.

Local Close Scope f64_scope.

(** ** The transform *)

Record Transform : Type := mkTransform {
  st : list float64;
  level : Z;
  sections : list transformSection
}.

(** The inner loop of [Daubechies4] on one section: [count] passes, the
    window shrinking by half after each. *)
Fixpoint section_passes (count : nat) (sec : transformSection)
    (scaleSize : Z) (buf : list float64) : result (list float64) :=
  match count with
  | O => Ok buf
  | S c =>
      let max := Int.wrap (start sec + scaleSize) in
      do buf <- on_window split buf (start sec) max;
      do buf <- on_window daubechies4 buf (start sec) max;
      section_passes c sec (Int.half scaleSize) buf
  end.

Definition Daubechies4 (s : list float64) (level : Z) : result Transform :=
  do secs <- getTransformSections (len s) level;
  do buf <- range_loop 0 secs
              (fun _ sec buf => section_passes (Z.to_nat level) sec (size sec) buf)
              s;
  Ok (mkTransform buf level secs).

(** [getSectionCoefficients]: band [l-1] is the slice
    [st[start+half : start+2*half]], [half] being halved per level. *)
Definition getSectionCoefficients (t : Transform) (s : transformSection)
    : result (list (list float64)) :=
  do cfs <- make [] (level t);
  do ' (_, cfs) <-
    for_range 1 (level t + 1)
      (fun l '(half, cfs) =>
         do band <- slice (st t) (Int.wrap (start s + half))
                      (Int.wrap (start s + Int.wrap (2 * half)));
         do cfs <- set cfs (l - 1) band;
         Ok (Int.half half, cfs))
      (Int.half (size s), cfs);
  Ok cfs.

Definition GetCoefficients (t : Transform) : result (list (list float64)) :=
  do cfs <- make [] (level t);
  range_loop 0 (sections t)
    (fun _ s cfs =>
       do scfs <- getSectionCoefficients t s;
       range_loop 0 scfs
         (fun i c cfs => do old <- get cfs i; set cfs i (old ++ c)) cfs)
    cfs.

(** [GetDownSampledCoefficients]: only the bands with [i < level-1] are
    appended to; the source has no branch for the deepest band. *)
Definition GetDownSampledCoefficients (t : Transform)
    : result (list (list float64)) :=
  do dscfs <- make [] (level t);
  range_loop 0 (sections t)
    (fun _ s dscfs =>
       do cfs <- getSectionCoefficients t s;
       range_loop 0 cfs
         (fun i cf dscfs =>
            if i <? level t - 1 then
              do n <- Pow2 (level t - (i + 1));
              do ds <- DownSample cf n;
              do old <- get dscfs i;
              set dscfs i (old ++ ds)
            else Ok dscfs)
         dscfs)
    dscfs.

Definition GetDecomposition (t : Transform) : list float64 := st t.

(** ** Persistence peaks *)

Definition none : Z := -1.

Record Peak : Type := mkPeak { born : Z; died : Z; left : Z; right : Z }.

Definition newPeak (startIdx : Z) : Peak :=
  {| born := startIdx; left := startIdx; right := startIdx; died := none |}.

Definition set_died (p : Peak) (v : Z) : Peak :=
  {| born := born p; died := v; left := left p; right := right p |}.
Definition set_left (p : Peak) (v : Z) : Peak :=
  {| born := born p; died := died p; left := v; right := right p |}.
Definition set_right (p : Peak) (v : Z) : Peak :=
  {| born := born p; died := died p; left := left p; right := v |}.

Record Peaks : Type := mkPeaks { peaks : list Peak; seq : list float64 }.

Definition getPersistence (p : Peak) (seq : list float64) : result float64 :=
  if died p =? none then Ok F64.inf
  else
    do a <- get seq (born p);
    do b <- get seq (died p);
    Ok (F64.sub a b).

(** [sort.SliceStable] belongs to Go's standard library and is not
    embedded; it is taken by its contract (a stable sort by [less]) and
    realised as the insertion of each element, in the original order,
    behind the elements it is not less than.  The contract fixes the
    result when [less] is a strict weak order: so it is for the sort by
    [born], and for the sort by value of a sequence without NaN.  On a
    sequence with a NaN the comparison of values is no such order, and the
    library (insertion sort on blocks of 20 elements, then merges) can
    leave the indices in another order than this definition; what depends
    on the place of an index in that order (where the peaks are born) is
    stated for sequences without NaN. *)
Fixpoint insert_stable {A : Type} (less : A -> A -> bool) (x : A) (l : list A)
    : list A :=
  match l with
  | [] => [x]
  | y :: l' => if less x y then x :: y :: l' else y :: insert_stable less x l'
  end.

Definition SliceStable {A : Type} (less : A -> A -> bool) (l : list A) : list A :=
  fold_left (fun acc x => insert_stable less x acc) l [].

(** The value [seq[i]] inside a comparison function of a sort; the sorted
    slice only holds indices of [seq]. *)
Definition value_at (seq : list float64) (i : Z) : float64 :=
  match get seq i with
  | Ok v => v
  | _ => F64.nan
  end.

(** The state of the sweep: the peaks found so far and the map from
    sequence indices to positions in [peaks]. *)
Definition sweep_state : Type := (list Peak * list Z)%type.

(** "New peak born". *)
Definition birth (idx : Z) (s : sweep_state) : result sweep_state :=
  let '(peaks, idxtopeak) := s in
  let peaks := peaks ++ [newPeak idx] in
  do idxtopeak <- set idxtopeak idx (len peaks - 1);
  Ok (peaks, idxtopeak).

(** "Directly merge to next peak left". *)
Definition merge_left (il idx : Z) (s : sweep_state) : result sweep_state :=
  let '(peaks, idxtopeak) := s in
  do p <- get peaks il;
  do peaks <- set peaks il (set_right p (right p + 1));
  do idxtopeak <- set idxtopeak idx il;
  Ok (peaks, idxtopeak).

(** "Directly merge to next peak right". *)
Definition merge_right (ir idx : Z) (s : sweep_state) : result sweep_state :=
  let '(peaks, idxtopeak) := s in
  do p <- get peaks ir;
  do peaks <- set peaks ir (set_left p (left p - 1));
  do idxtopeak <- set idxtopeak idx ir;
  Ok (peaks, idxtopeak).

(** "Merge left and right peaks".  Every field is read back from the slice
    after each write, as the pointers of the source do. *)
Definition merge_both (seq : list float64) (il ir idx : Z) (s : sweep_state)
    : result sweep_state :=
  let '(peaks, idxtopeak) := s in
  do pl <- get peaks il;
  do bl <- get seq (born pl);
  do pr <- get peaks ir;
  do br <- get seq (born pr);
  if F64.gt bl br then
    do pr <- get peaks ir;
    do peaks <- set peaks ir (set_died pr idx);
    do pl <- get peaks il;
    do pr <- get peaks ir;
    do peaks <- set peaks il (set_right pl (right pr));
    do pl <- get peaks il;
    do idxtopeak <- set idxtopeak (right pl) il;
    do idxtopeak <- set idxtopeak idx il;
    Ok (peaks, idxtopeak)
  else
    do pl <- get peaks il;
    do peaks <- set peaks il (set_died pl idx);
    do pr <- get peaks ir;
    do pl <- get peaks il;
    do peaks <- set peaks ir (set_left pr (left pl));
    do pr <- get peaks ir;
    do idxtopeak <- set idxtopeak (left pr) ir;
    do idxtopeak <- set idxtopeak idx ir;
    Ok (peaks, idxtopeak).

Definition neighbour_done (idxtopeak : list Z) (guard : bool) (i : Z)
    : result bool :=
  if guard then do v <- get idxtopeak i; Ok (negb (v =? none)) else Ok false.

(** One round of the loop "Process each sample in descending order". *)
Definition sweep_step (seq : list float64) (idx : Z) (s : sweep_state)
    : result sweep_state :=
  let idxtopeak := snd s in
  do lftdone <- neighbour_done idxtopeak (idx >? 0) (idx - 1);
  do rgtdone <- neighbour_done idxtopeak (idx <? len seq - 1) (idx + 1);
  do il <- (if lftdone then get idxtopeak (idx - 1) else Ok none);
  do ir <- (if rgtdone then get idxtopeak (idx + 1) else Ok none);
  do s <- (if negb lftdone && negb rgtdone then birth idx s else Ok s);
  do s <- (if lftdone && negb rgtdone then merge_left il idx s else Ok s);
  do s <- (if negb lftdone && rgtdone then merge_right ir idx s else Ok s);
  if lftdone && rgtdone then merge_both seq il ir idx s else Ok s.

Definition sweep (seq : list float64) (indices : list Z) (s : sweep_state)
    : result sweep_state :=
  range_loop 0 indices (fun _ idx s => sweep_step seq idx s) s.

Definition sorted_indices (seq : list float64) : list Z :=
  SliceStable (fun a b => F64.gt (value_at seq a) (value_at seq b))
    (Range (len seq)).

Definition GetPeaks (seq : list float64) : result Peaks :=
  let idxtopeak := replicate (length seq) none in
  do ' (peaks, _) <- sweep seq (sorted_indices seq) ([], idxtopeak);
  Ok {| peaks := SliceStable (fun p q => born p <? born q) peaks;
        seq := seq |}.

(** [MinMaxPersistence]: the loop state is the pair [(min, max)]. *)
Definition MinMaxPersistence (pks : Peaks) : result (float64 * float64) :=
  range_loop 0 (peaks pks)
    (fun _ pk '(min, max) =>
       do prs <- getPersistence pk (seq pks);
       let max := if F64.gt prs max && F64.lt prs F64.inf then prs else max in
       let min := if F64.lt prs min then prs else min in
       Ok (min, max))
    (F64.inf, F64.neg_inf).

Definition GetIndices (pks : Peaks) (fracOfMaxPersistence : float64)
    : result (list Z) :=
  do ' (_, maxPersistence) <- MinMaxPersistence pks;
  range_loop 0 (peaks pks)
    (fun _ pk indices =>
       do prs <- getPersistence pk (seq pks);
       if F64.ge (F64.div prs maxPersistence) fracOfMaxPersistence
       then Ok (indices ++ [born pk])
       else Ok indices)
    [].

(** ** The lifting pass as the specification words it

    Each stage is given pointwise on the window [w] of length [2 * h]:
    every position holds either its old content or a value computed from
    the window as it was before the stage. *)

#[global] Instance float64_inhabited : Inhabited float64 := populate F64.zero.

(** [pointwise P g w]: position [i] becomes [g i] where [P i] holds and
    keeps its content elsewhere. *)
Definition pointwise {A : Type} (P : nat -> bool) (g : nat -> A) (w : list A)
    : list A :=
  imap (fun i x => if P i then g i else x) w.

(** Even-indexed and odd-indexed samples, each in their original order. *)
Fixpoint evens {A : Type} (l : list A) : list A :=
  match l with
  | [] => []
  | x :: l' => x :: match l' with [] => [] | _ :: l'' => evens l'' end
  end.

Definition odds {A : Type} (l : list A) : list A :=
  match l with
  | [] => []
  | _ :: l' => evens l'
  end.

Definition split_spec (s : list float64) : list float64 := evens s ++ odds s.

Local Open Scope f64_scope.

(** Update 1: [s[i] += sqrt(3) * s[half+i]] for each [i] in the front half. *)
Definition update1_spec (w : list float64) : list float64 :=
  let h := (length w / 2)%nat in
  pointwise (fun i => (i <? h)%nat)
    (fun i => w !!! i + sqrt3 * w !!! (h + i)%nat) w.

(** Predict: [s[half+i]] loses [(sqrt(3)/4) * s[i]] and then
    [((sqrt(3)-2)/4) * s[i-1]], the predecessor of position 0 being
    [half-1]. *)
Definition predict_spec (w : list float64) : list float64 :=
  let h := (length w / 2)%nat in
  pointwise (fun i => (h <=? i)%nat)
    (fun i =>
       w !!! i
       - (sqrt3 / four) * w !!! (i - h)%nat
       - ((sqrt3 - two) / four)
         * w !!! (if (i =? h)%nat then h - 1 else i - h - 1)%nat) w.

(** Update 2: [s[i] -= s[half+i+1]] for [i = 0..half-2], and
    [s[half-1] -= s[half]]. *)
Definition update2_spec (w : list float64) : list float64 :=
  let h := (length w / 2)%nat in
  pointwise (fun i => (i <? h)%nat)
    (fun i =>
       w !!! i - w !!! (if (i =? h - 1)%nat then h else h + i + 1)%nat) w.

(** Normalise: the front half is scaled by [(sqrt(3)-1)/sqrt(2)], the back
    half by [(sqrt(3)+1)/sqrt(2)]. *)
Definition normalise_spec (w : list float64) : list float64 :=
  let h := (length w / 2)%nat in
  pointwise (fun _ => true)
    (fun i =>
       (if (i <? h)%nat then (sqrt3 - one) / sqrt2 else (sqrt3 + one) / sqrt2)
       * w !!! i) w.

Definition lifting_spec (w : list float64) : list float64 :=
  normalise_spec (update2_spec (predict_spec (update1_spec w))).

Local Close Scope f64_scope.

(** One transform pass on a window, as [Daubechies4] runs it. *)
Definition transform_pass (w : list float64) : result (list float64) :=
  do w <- split w;
  daubechies4 w.

(** ** The invariant of the sweep *)

(** An index is processed once it is assigned to a peak. *)
Definition processedb (m : list Z) (i : Z) : bool :=
  match get m i with
  | Ok v => negb (v =? none)
  | _ => false
  end.

Definition processed (m : list Z) (i : Z) : Prop := processedb m i = true.

(** What every state of the sweep satisfies: the live peaks are exactly the
    maximal runs of processed indices, each run knows its peak at both
    ends, and dead peaks died at an index of the sequence. *)
Record sweep_inv (n : Z) (ps : list Peak) (m : list Z) : Prop := {
  inv_len : len m = n;
  inv_map : forall i v, get m i = Ok v -> v <> none -> 0 <= v < len ps;
  inv_dead : forall k p, get ps k = Ok p -> died p <> none -> 0 <= died p < n;
  inv_alive : forall k p, get ps k = Ok p -> died p = none ->
      0 <= left p <= born p /\ born p <= right p < n
      /\ get m (left p) = Ok k /\ get m (right p) = Ok k
      /\ (forall i, left p <= i <= right p -> processed m i)
      /\ ~ processed m (left p - 1) /\ ~ processed m (right p + 1);
  inv_cover : forall i, processed m i ->
      exists k p, get ps k = Ok p /\ died p = none /\ left p <= i <= right p;
  inv_born : forall k p, get ps k = Ok p -> 0 <= born p < n
}.

Definition is_alive (p : Peak) : Prop := died p = none.
#[global] Instance is_alive_dec p : Decision (is_alive p).
Proof. unfold is_alive. apply _. Defined.

(** ** Single-hump sequences *)

Definition single_hump (seq : list float64) (mx : Z) : Prop :=
  0 <= mx < len seq
  /\ (forall i, 0 <= i < mx ->
        F64.lt (value_at seq i) (value_at seq (i + 1)) = true)
  /\ (forall i, mx <= i < len seq - 1 ->
        F64.gt (value_at seq i) (value_at seq (i + 1)) = true).

(** The map from indices to peaks while a single peak owns [l..r]. *)
Definition hump_map (n l r : Z) (m : list Z) : Prop :=
  len m = n
  /\ forall i, 0 <= i < n ->
       get m i = Ok (if (l <=? i) && (i <=? r) then 0 else none).

(** ** Persistence as the specification words it *)

(** The persistence of a peak: [seq[born] - seq[died]], infinite for a
    peak that never died. *)
Definition persistence (seq : list float64) (p : Peak) : float64 :=
  if died p =? none then F64.inf
  else F64.sub (value_at seq (born p)) (value_at seq (died p)).

(** [maxP] is the greatest of the values of [l] below [+Inf], or [-Inf]
    when it is not one of them. *)
Definition max_finite (maxP : float64) (l : list float64) : Prop :=
  (maxP = F64.neg_inf \/ (maxP ∈ l /\ F64.lt maxP F64.inf = true))
  /\ forall x, x ∈ l -> F64.lt x F64.inf = true -> F64.ge maxP x = true.

(** A finite number of positive sign, [+0] included. *)
Definition positive_finite (x : float64) : Prop :=
  match x with
  | S754_zero false | S754_finite false _ _ => True
  | _ => False
  end.

(** The test of [GetIndices]. *)
Definition qualifies (seq : list float64) (maxP frac : float64) (p : Peak) : Prop :=
  F64.ge (F64.div (persistence seq p) maxP) frac = true.

#[global] Instance qualifies_dec seq maxP frac p :
  Decision (qualifies seq maxP frac p).
Proof. unfold qualifies. apply _. Defined.

(** What [getPersistence] needs to index [seq]. *)
Definition peak_in_range (n : Z) (p : Peak) : Prop :=
  0 <= born p < n /\ (died p = none \/ 0 <= died p < n).

(** ** Sample inputs *)

(** A sequence with three local maxima: [1,3,2,5,2,4,1]. *)
Definition sample_seq : list float64 := map F64.of_Z [1; 3; 2; 5; 2; 4; 1].

(** The state of the sweep on [sample_seq] once the indices 3, 5 and 1
    have been processed: three peaks, each alone on its index. *)
Definition sample_peaks : list Peak :=
  [mkPeak 3 none 3 3; mkPeak 5 none 5 5; mkPeak 1 none 1 1].
Definition sample_map : list Z := [-1; 2; -1; 0; -1; 1; -1].

(** ** Further functions of the packages *)

(** [IsPowerOf2]: [(x != 0) && ((x & (x - 1)) == 0)]. *)
Definition IsPowerOf2 (x : Z) : bool :=
  negb (x =? 0) && (Z.land x (Int.wrap (x - 1)) =? 0).

(** [AbsInt]: the negation is the one of [int]. *)
Definition AbsInt (x : list Z) : result (list Z) :=
  do x1 <- make 0 (len x);
  range_loop 0 x
    (fun i e x1 => if e <? 0 then set x1 i (Int.wrap (- e)) else set x1 i e)
    x1.

Definition MaxInt (x : list Z) : result Z :=
  do max <- get x 0;
  range_loop 0 x (fun _ f max => if f >? max then Ok f else Ok max) max.

(** [FindMaxI]: the loop runs over [1 <= i < len(x)-1]. *)
Definition FindMaxI (x : list Z) : result (Z * Z) :=
  do v <- get x 0;
  for_range 1 (len x - 1)
    (fun i '(value, index) =>
       do xi <- get x i;
       if xi >? value then Ok (xi, i) else Ok (value, index))
    (v, 0).

(** Six samples, [0, 1, ..., 5]. *)
Definition sample_six : list float64 := map F64.of_Z [0; 1; 2; 3; 4; 5].

(** [Multiplex]: [buf[i*numChans+j] = channels[j][i]]; the length of the
    first channel is the one used for all. *)
Definition Multiplex (channels : list (list float64)) : result (list float64) :=
  let numChans := len channels in
  do c0 <- get channels 0;
  let chanLen := len c0 in
  do buf <- make F64.zero (Int.wrap (numChans * chanLen));
  for_range 0 chanLen
    (fun i buf =>
       let k := Int.wrap (i * numChans) in
       for_range 0 numChans
         (fun j buf =>
            do ch <- get channels j;
            do v <- get ch i;
            set buf (Int.wrap (k + j)) v)
         buf)
    buf.

(** Three channels, the third one longer than the others. *)
Definition sample_chan_a : list float64 := map F64.of_Z [1; 2; 3].
Definition sample_chan_b : list float64 := map F64.of_Z [4; 5; 6].
Definition sample_chan_c : list float64 := map F64.of_Z [7; 8; 9; 10].

(** ** The transform of a section as a function of its window *)

(** The samples of a section in a buffer. *)
Definition window (buf : list float64) (sec : transformSection) : list float64 :=
  take (Z.to_nat (size sec)) (drop (Z.to_nat (start sec)) buf).

(** [count] passes: one over the whole window, the others over its front
    half. *)
Fixpoint lift_levels (count : nat) (w : list float64) : list float64 :=
  match count with
  | O => w
  | S c =>
      let w1 := lifting_spec (split_spec w) in
      let h := (length w / 2)%nat in
      lift_levels c (take h w1) ++ drop h w1
  end.

(** A section that [level] passes can run over inside a buffer of length
    [N]: a power of two of at least [2^(6+level)] samples. *)
Definition section_fits (N level : Z) (sec : transformSection) : Prop :=
  exists k, 6 + level <= k /\ size sec = 2 ^ k /\
            0 <= start sec /\ start sec + size sec <= N.

(** A ramp of 300 samples: one section of 256 samples at level 2, and 44
    samples behind it. *)
Definition sample_ramp : list float64 := map F64.of_Z (seqZ 0 300).

(** Band [i] (counted from 0) of a section in a buffer: the
    [size / 2^(i+1)] samples that start at [start + size / 2^(i+1)]. *)
Definition band (buf : list float64) (sec : transformSection) (i : nat)
    : list float64 :=
  let h := size sec / 2 ^ (Z.of_nat i + 1) in
  take (Z.to_nat h) (drop (Z.to_nat (start sec + h)) buf).

(** Every [n]-th sample, from the first on. *)
Definition decimate (n : nat) (x : list float64) : list float64 :=
  map (fun j => x !!! (j * n)%nat) (List.seq 0 (length x / n)).

(** No neighbour of [i] is strictly greater than [seq[i]]. *)
Definition local_max (seq : list float64) (i : Z) : Prop :=
  forall j, j = i - 1 \/ j = i + 1 -> 0 <= j < len seq ->
    F64.gt (value_at seq j) (value_at seq i) = false.

(** [seq[i]] is strictly greater than its neighbours. *)
Definition strict_local_max (seq : list float64) (i : Z) : Prop :=
  forall j, j = i - 1 \/ j = i + 1 -> 0 <= j < len seq ->
    F64.gt (value_at seq i) (value_at seq j) = true.

(** Where peaks are born: at distinct processed indices that are local
    maxima, and at every strict local maximum processed so far. *)
Definition births_inv (seq : list float64) (ps : list Peak) (m : list Z)
    : Prop :=
  NoDup (map born ps)
  /\ (forall b, b ∈ map born ps -> processed m b)
  /\ (forall b, b ∈ map born ps -> local_max seq b)
  /\ (forall i, processed m i -> strict_local_max seq i -> i ∈ map born ps).

Definition no_nan (seq : list float64) : Prop :=
  Forall (fun x => F64.is_nan x = false) seq.

(** What the sweep keeps of every peak: a dead peak lies inside the
    sequence and died on the index next to its span; on a sequence without
    NaN a peak is born where its span is highest. *)
Definition spans_inv (seq : list float64) (ps : list Peak) : Prop :=
  forall k p, get ps k = Ok p ->
    (died p <> none ->
       0 <= left p <= born p /\ born p <= right p < len seq /\
       (died p = left p - 1 \/ died p = right p + 1))
    /\ (no_nan seq -> forall i, left p <= i <= right p ->
          F64.gt (value_at seq i) (value_at seq (born p)) = false).

(** [Max] of a [Peaks] result: the index, among those of [GetIndices], of
    the highest sample; [-1] when no sample is above [-Inf]. *)
Definition Max (pks : Peaks) (fracOfMaxPersistence : float64) : result Z :=
  do idxs <- GetIndices pks fracOfMaxPersistence;
  do ' (biggest, _) <-
    range_loop 0 idxs
      (fun _ pk '(biggest, val) =>
         do v <- get (seq pks) pk;
         if F64.gt v val then Ok (pk, v) else Ok (biggest, val))
      (-1, F64.neg_inf);
  Ok biggest.

(** ** Peaks by separation (package peaks) *)

(** [for j := a; j < b; j++ { if test(j) { return ... } }]: [count] rounds
    from [j]; the result tells whether the [return] was reached. *)
Fixpoint any_loop (count : nat) (j : Z) (test : Z -> result bool)
    : result bool :=
  match count with
  | O => Ok false
  | S c => do b <- test j; if b then Ok true else any_loop c (j + 1) test
  end.

(** [isMax]: no sample of the window before [i] reaches [x[i]], none
    after [i] exceeds it. *)
Definition isMax (i min max : Z) (x : list float64) : result bool :=
  let min := if min <? 0 then 0 else min in
  let max := if max >? len x then len x else max in
  do hit <- any_loop (Z.to_nat (i - min)) min
              (fun j => do a <- get x j; do b <- get x i; Ok (F64.ge a b));
  if hit then Ok false
  else
    do hit <- any_loop (Z.to_nat (max - Int.wrap (i + 1))) (Int.wrap (i + 1))
                (fun j => do a <- get x j; do b <- get x i; Ok (F64.gt a b));
    Ok (negb hit).

(** [Get] of package peaks. *)
Definition Get (x : list float64) (sep : Z) : result (list Z) :=
  range_loop 0 x
    (fun i _ pks =>
       do b <- isMax i (Int.wrap (i - sep)) (Int.wrap (i + sep)) x;
       if b then Ok (pks ++ [i]) else Ok pks)
    [].

(** The test of [isMax] on the window of half-width [sep] around [i]. *)
Definition window_max (x : list float64) (sep i : Z) : Prop :=
  (forall j, 0 <= j -> i - sep <= j < i ->
     F64.ge (value_at x j) (value_at x i) = false)
  /\ (forall j, j < len x -> i < j < i + sep ->
        F64.gt (value_at x j) (value_at x i) = false).

(** ** More vector helpers (package godsp) *)

(** [DownSampleAll]: every vector is down-sampled by the quotient of its
    length and the shortest length. *)
Definition DownSampleAll (xs : list (list float64))
    : result (list (list float64)) :=
  do x0 <- get xs 0;
  do N <- range_loop 0 xs
            (fun _ x N => if len x <? N then Ok (len x) else Ok N) (len x0);
  do ys <- make [] (len xs);
  range_loop 0 xs
    (fun i x ys =>
       do n <- Int.div (len x) N;
       do y <- DownSample x n;
       set ys i y)
    ys.

(** [Sum]: the samples are added from left to right, starting from 0. *)
Definition Sum (x : list float64) : result float64 :=
  range_loop 0 x (fun _ f sum => Ok (F64.add sum f)) F64.zero.

(** [MovAvg]: [y[i] = Sum(x[i-w:i+w]) / float64(2*w)] for
    [w <= i < len(x)-w]. *)
Definition MovAvg (x : list float64) (w : Z) : result (list float64) :=
  do y <- make F64.zero (len x);
  for_range w (Int.wrap (len x - w))
    (fun i y =>
       do win <- slice x (Int.wrap (i - w)) (Int.wrap (i + w));
       do s <- Sum win;
       set y i (F64.div s (F64.of_Z (Int.wrap (2 * w)))))
    y.

(** ** The first revision of [dwt.go]

    [src/dwt/dwt.go] also holds the revision of the package that works on
    one frame instead of sections; its [Transform] has a field [padding],
    and its [GetDownSampledCoefficients] treats the deepest band. *)

Module Padded.

Record Transform : Type := mkTransform {
  st : list float64;
  level : Z;
  padding : Z
}.

(** [GetCoefficients]: band [l-1] is [st[half : 2*half]], [half] starting
    at [len(st)/2] and halved per level. *)
Definition GetCoefficients (t : Transform) : result (list (list float64)) :=
  do cfs <- make [] (level t);
  do ' (_, cfs) <-
    for_range 1 (level t + 1)
      (fun l '(half, cfs) =>
         do band <- slice (st t) half (Int.wrap (2 * half));
         do cfs <- set cfs (l - 1) band;
         Ok (Int.half half, cfs))
      (Int.half (len (st t)), cfs);
  Ok cfs.

(** [GetDownSampledCoefficients]: every band but the last is down-sampled
    by the quotient of its length and the length of the last one. *)
Definition GetDownSampledCoefficients (t : Transform)
    : result (list (list float64)) :=
  do cfs <- GetCoefficients t;
  do last <- get cfs (len cfs - 1);
  let minN := len last in
  range_loop 0 cfs
    (fun i cf cfs =>
       if negb (i =? len cfs - 1) then
         do ds <- Int.div (len cf) minN;
         do d <- DownSample cf ds;
         set cfs i d
       else Ok cfs)
    cfs.

Definition GetDecomposion (t : Transform) : list float64 := st t.

End Padded.

(** A frame of 16 samples. *)
Definition sample_frame : list float64 := map F64.of_Z (seqZ 0 16).

(* ================================================================== *)
(** * Properties *)

(** ** Integers and powers of two *)

Lemma wrap_small z : Int.in_range z -> Int.wrap z = z.
Proof.
  unfold Int.in_range, Int.min_int, Int.max_int, Int.wrap. intros H.
  rewrite Z.mod_small; lia.
Qed.

Lemma wrap_in_range z : Int.in_range (Int.wrap z).
Proof.
  unfold Int.in_range, Int.min_int, Int.max_int, Int.wrap.
  pose proof (Z.mod_pos_bound (z + 2 ^ 63) (2 ^ 64) ltac:(lia)). lia.
Qed.

Lemma in_range_bounds z : - 2 ^ 63 <= z < 2 ^ 63 -> Int.in_range z.
Proof. unfold Int.in_range, Int.min_int, Int.max_int. lia. Qed.

Lemma half_div z : 0 <= z -> Int.half z = z / 2.
Proof. intros H. unfold Int.half. apply Z.quot_div_nonneg; lia. Qed.

Lemma pow2_le_mono a b : 0 <= a <= b -> 2 ^ a <= 2 ^ b.
Proof. intros H. apply Z.pow_le_mono_r; lia. Qed.

Lemma iter_double n :
  (n <= 62)%nat ->
  Nat.iter n (fun pw => Int.wrap (pw * 2)) 1 = 2 ^ Z.of_nat n.
Proof.
  induction n as [|n IH]; intros Hn; [reflexivity|].
  rewrite Nat.iter_succ, IH by lia.
  rewrite Nat2Z.inj_succ, Z.pow_succ_r by lia.
  assert (Hb : 2 ^ Z.of_nat n <= 2 ^ 61) by (apply pow2_le_mono; lia).
  assert (0 < 2 ^ Z.of_nat n) by (apply Z.pow_pos_nonneg; lia).
  rewrite wrap_small; [lia|]. apply in_range_bounds. lia.
Qed.

(** The loop of [Pow2] with [n] rounds to go, the counter below the
    maximal [int]: it doubles [pw] [n] times and returns. *)
Lemma pow2_loop_iter x : x < Int.max_int ->
  forall n fuel i pw,
    1 <= i -> i + Z.of_nat n = x + 1 -> (n < fuel)%nat ->
    pow2_loop fuel x i pw
    = Ok (Nat.iter n (fun pw => Int.wrap (pw * 2)) pw).
Proof.
  intros Hx. induction n as [|n IH]; intros fuel i pw Hi Hn Hf.
  - destruct fuel as [|fuel]; [lia|]. cbn [pow2_loop Nat.iter].
    destruct (Z.leb_spec i x); [lia|reflexivity].
  - destruct fuel as [|fuel]; [lia|]. cbn [pow2_loop].
    destruct (Z.leb_spec i x); [|lia].
    rewrite (wrap_small (i + 1))
      by (unfold Int.in_range, Int.min_int, Int.max_int in *; lia).
    rewrite IH by lia. rewrite Nat.iter_succ_r. reflexivity.
Qed.

Lemma Pow2_iter x :
  0 <= x < Int.max_int ->
  Pow2 x = Ok (Nat.iter (Z.to_nat x) (fun pw => Int.wrap (pw * 2)) 1).
Proof.
  intros H. unfold Pow2. destruct (Z.ltb_spec x 0) as [?|_]; [lia|].
  apply pow2_loop_iter; lia.
Qed.

(** At the maximal [int] the condition of the loop holds of every counter:
    no bound on the number of rounds lets it return. *)
Lemma pow2_loop_diverges x fuel :
  Int.max_int <= x ->
  forall i pw, Int.in_range i -> pow2_loop fuel x i pw = OutOfFuel.
Proof.
  intros Hx. induction fuel as [|fuel IH]; intros i pw Hi; [reflexivity|].
  cbn [pow2_loop]. destruct (Z.leb_spec i x) as [_|Hc].
  - apply IH, wrap_in_range.
  - unfold Int.in_range in Hi. lia.
Qed.

Lemma Pow2_small x : 0 <= x <= 62 -> Pow2 x = Ok (2 ^ x).
Proof.
  intros H. rewrite Pow2_iter by (unfold Int.max_int; lia).
  rewrite iter_double by lia. rewrite Z2Nat.id by lia. reflexivity.
Qed.

Lemma Pow2_negative x : x < 0 -> Pow2 x = Panic.
Proof.
  intros H. unfold Pow2. destruct (Z.ltb_spec x 0); [reflexivity|lia].
Qed.

Lemma Log2_pos n : 0 < n -> Log2 n = Z.log2 n.
Proof.
  intros H. unfold Log2. destruct (Z.leb_spec n 0); [lia|reflexivity].
Qed.

Lemma log2_int_bound n : 0 < n < 2 ^ 63 -> 0 <= Z.log2 n <= 62.
Proof.
  intros H. split; [apply Z.log2_nonneg|].
  assert (Z.log2 n < 63); [|lia].
  apply Z.log2_lt_pow2; lia.
Qed.

Lemma threshold_bounds level :
  0 <= level <= 56 -> 64 <= 64 * 2 ^ level <= 2 ^ 62.
Proof.
  intros H.
  assert (2 ^ 0 <= 2 ^ level) by (apply pow2_le_mono; lia).
  assert (2 ^ level <= 2 ^ 56) by (apply pow2_le_mono; lia).
  change (2 ^ 62) with (64 * 2 ^ 56). change (2 ^ 0) with 1 in *. lia.
Qed.

(** ** The section list *)

Lemma sections_loop_spec level (Hl : 0 <= level <= 56) N (HN : N < 2 ^ 63) :
  forall fuel st acc,
    0 <= st <= N ->
    (Z.to_nat (N - st) < fuel)%nat ->
    exists ss,
      sections_loop fuel N level st acc = Ok (acc ++ ss)
      /\ Greedy N level st ss
      /\ contiguous st ss
      /\ Forall (fun s => power_of_two (size s)) ss
      /\ st + total_size ss <= N.
Proof.
  pose proof (threshold_bounds level Hl) as Hthr.
  induction fuel as [|fuel IH]; intros st acc Hst Hfuel; [lia|].
  cbn [sections_loop]. rewrite Pow2_small by lia. cbn [bind].
  rewrite (wrap_small (64 * 2 ^ level)) by (apply in_range_bounds; lia).
  rewrite (wrap_small (N - st)) by (apply in_range_bounds; lia).
  destruct (Z.geb_spec (N - st) (64 * 2 ^ level)) as [Hge|Hlt].
  - pose proof (log2_int_bound (N - st) ltac:(lia)) as Hlog.
    pose proof (Z.log2_spec (N - st) ltac:(lia)) as [Hlo _].
    rewrite Log2_pos by lia. rewrite Pow2_small by lia. cbn [bind].
    set (sz := 2 ^ Z.log2 (N - st)) in *.
    assert (Hsz : 0 < sz) by (apply Z.pow_pos_nonneg; lia).
    rewrite wrap_small by (apply in_range_bounds; lia).
    destruct (IH (st + sz) (acc ++ [mkSection st sz])) as (ss & E & G & C & P & T);
      [lia|lia|].
    exists (mkSection st sz :: ss). split; [|split; [|split; [|split]]].
    + rewrite E, <- app_assoc. reflexivity.
    + apply Greedy_take; [lia|exact G].
    + cbn. auto.
    + constructor; [|exact P]. exists (Z.log2 (N - st)). cbn. split; [lia|reflexivity].
    + change (total_size (mkSection st sz :: ss)) with (sz + total_size ss). lia.
  - exists []. rewrite app_nil_r. split; [reflexivity|].
    split; [apply Greedy_stop; lia|]. split; [exact I|].
    split; [constructor|]. cbn. lia.
Qed.

Lemma getTransformSections_short N level :
  0 <= level <= 56 -> 0 <= N < 64 * 2 ^ level ->
  getTransformSections N level = Ok [].
Proof.
  intros Hl HN. pose proof (threshold_bounds level Hl) as Hthr.
  unfold getTransformSections.
  replace (Z.to_nat N + 2)%nat with (S (Z.to_nat N + 1)) by lia.
  cbn [sections_loop]. rewrite Pow2_small by lia. cbn [bind].
  rewrite !wrap_small by (apply in_range_bounds; lia).
  destruct (Z.geb_spec (N - 0) (64 * 2 ^ level)); [lia|reflexivity].
Qed.

Lemma sections_loop_fuel level N :
  N < 2 ^ 63 -> level < Int.max_int ->
  forall fuel st acc,
    0 <= st <= N -> (Z.to_nat (N - st) < fuel)%nat ->
    sections_loop fuel N level st acc <> OutOfFuel.
Proof.
  intros HN Hlvl. induction fuel as [|fuel IH]; intros st acc Hst Hfuel; [lia|].
  cbn [sections_loop].
  destruct (Z.ltb_spec level 0) as [Hneg|Hnn];
    [rewrite Pow2_negative by assumption; intros Hc; discriminate Hc|].
  rewrite (Pow2_iter level) by lia. cbn [bind].
  set (p := Nat.iter _ _ _).
  rewrite (wrap_small (N - st)) by (apply in_range_bounds; lia).
  destruct (N - st >=? Int.wrap (64 * p)); [|intros Hc; discriminate Hc].
  destruct (Z.eq_dec (N - st) 0) as [E0|Hpos].
  - rewrite E0. cbn [Log2 Z.leb Z.compare]. rewrite Pow2_negative by reflexivity.
    intros Hc; discriminate Hc.
  - pose proof (log2_int_bound (N - st) ltac:(lia)) as Hlog.
    pose proof (Z.log2_spec (N - st) ltac:(lia)) as [Hlo _].
    rewrite Log2_pos by lia. rewrite Pow2_small by lia. cbn [bind].
    assert (0 < 2 ^ Z.log2 (N - st)) by (apply Z.pow_pos_nonneg; lia).
    rewrite wrap_small by (apply in_range_bounds; lia).
    apply IH; lia.
Qed.

(** Below the maximal level [getTransformSections] never stops for lack
    of fuel: it returns or panics. *)
Lemma getTransformSections_fuel N level :
  0 <= N < 2 ^ 49 - 1 -> level < Int.max_int ->
  getTransformSections N level <> OutOfFuel.
Proof.
  intros HN Hl. unfold getTransformSections. apply sections_loop_fuel; lia.
Qed.

(** C3 (as amended).  For every length [0 <= N < 2^49 - 1] (the lengths
    on which [Log2] is the integer logarithm) and every level
    [0 <= level <= 56], [getTransformSections] returns the greedy
    partition from index 0 (while the remaining length is at least
    [64 * 2^level], a section of size [2^floor(log2 remaining)]); its
    sections are contiguous and of positive size, every size is a power of
    two, and the sizes sum to at most [N]. *)
Theorem getTransformSections_greedy N level :
  0 <= N < 2 ^ 49 - 1 -> 0 <= level <= 56 ->
  exists ss,
    getTransformSections N level = Ok ss
    /\ Greedy N level 0 ss
    /\ contiguous 0 ss
    /\ Forall (fun s => power_of_two (size s)) ss
    /\ total_size ss <= N.
Proof.
  intros HN Hl. unfold getTransformSections.
  destruct (sections_loop_spec level Hl N ltac:(lia) (Z.to_nat N + 2) 0 [])
    as (ss & E & G & C & P & T); [lia|lia|].
  exists ss. cbn [app] in E. repeat split; auto; lia.
Qed.

Lemma getTransformSections_greedy_witness :
  (0 <= 1315840 < 2 ^ 49 - 1) /\ (0 <= 4 <= 56) /\
  exists ss,
    getTransformSections 1315840 4 = Ok ss
    /\ Greedy 1315840 4 0 ss
    /\ contiguous 0 ss
    /\ Forall (fun s => power_of_two (size s)) ss
    /\ total_size ss <= 1315840.
Proof.
  split; [lia|]. split; [lia|].
  apply (getTransformSections_greedy 1315840 4); lia.
Defined.

(** At level 57 the threshold [64 * 2^57] wraps around to the minimal
    [int]: the loop takes a section from a sequence of 8 samples, although
    8 is below the threshold, and then panics on a remaining length of 0. *)
Lemma getTransformSections_level57 :
  ~ exists ss, getTransformSections 8 57 = Ok ss /\ Greedy 8 57 0 ss.
Proof.
  intros (ss & E & _). vm_compute in E. discriminate E.
Qed.

(** ** Transforms without sections *)

Lemma make_nonneg {A : Type} (z : A) n :
  0 <= n -> make z n = Ok (replicate (Z.to_nat n) z).
Proof.
  intros H. unfold make. destruct (Z.ltb_spec n 0); [lia|reflexivity].
Qed.

Lemma Daubechies4_short s level :
  0 <= level <= 56 -> len s < 64 * 2 ^ level ->
  Daubechies4 s level = Ok (mkTransform s level []).
Proof.
  intros Hl Hs. unfold Daubechies4.
  rewrite getTransformSections_short by (unfold len in *; lia).
  reflexivity.
Qed.

Lemma GetCoefficients_no_sections buf lvl :
  0 <= lvl ->
  GetCoefficients (mkTransform buf lvl []) =
  Ok (replicate (Z.to_nat lvl) []).
Proof.
  intros Hl. unfold GetCoefficients. cbn [level sections].
  rewrite make_nonneg by lia. reflexivity.
Qed.

(** C7 (as amended).  For every level [0 <= level <= 56] and every
    sequence shorter than [64 * 2^level], [Daubechies4] returns a
    transform without sections, and [GetCoefficients] on it returns
    [level] bands, each empty; neither call panics. *)
Theorem Daubechies4_too_short s level :
  0 <= level <= 56 -> len s < 64 * 2 ^ level ->
  exists t,
    Daubechies4 s level = Ok t
    /\ sections t = []
    /\ GetCoefficients t = Ok (replicate (Z.to_nat level) []).
Proof.
  intros Hl Hs. exists (mkTransform s level []).
  split; [apply Daubechies4_short; assumption|].
  split; [reflexivity|]. apply GetCoefficients_no_sections. lia.
Qed.

Lemma Daubechies4_too_short_witness :
  (0 <= 3 <= 56) /\ len (replicate 100 F64.zero) < 64 * 2 ^ 3 /\
  exists t,
    Daubechies4 (replicate 100 F64.zero) 3 = Ok t
    /\ sections t = []
    /\ GetCoefficients t = Ok (replicate (Z.to_nat 3) []).
Proof.
  split; [lia|]. split; [reflexivity|].
  apply (Daubechies4_too_short (replicate 100 F64.zero) 3); [lia|reflexivity].
Defined.

(** A sequence of 8 samples is shorter than [64 * 2^57], yet the
    construction at level 57 panics. *)
Lemma Daubechies4_level57_panics :
  0 <= 57 /\ len (replicate 8 F64.zero) < 64 * 2 ^ 57 /\
  ~ exists t, Daubechies4 (replicate 8 F64.zero) 57 = Ok t.
Proof.
  split; [lia|]. split; [reflexivity|].
  intros (t & E). vm_compute in E. discriminate E.
Qed.

(** C6 (as amended).  For every sequence of 8 samples, [Daubechies4] at
    level 1 followed by [GetCoefficients] returns exactly one band, and
    that band is empty: 8 is below the minimal section length
    [64 * 2^1]. *)
Theorem Daubechies4_eight_samples s :
  length s = 8%nat ->
  exists t, Daubechies4 s 1 = Ok t /\ GetCoefficients t = Ok [[]].
Proof.
  intros Hs. exists (mkTransform s 1 []). split.
  - apply Daubechies4_short; [lia|]. unfold len. rewrite Hs. reflexivity.
  - apply (GetCoefficients_no_sections s 1). lia.
Qed.

Lemma Daubechies4_eight_samples_witness :
  length (map F64.of_Z [0; 1; 2; 3; 4; 5; 6; 7]) = 8%nat /\
  exists t,
    Daubechies4 (map F64.of_Z [0; 1; 2; 3; 4; 5; 6; 7]) 1 = Ok t
    /\ GetCoefficients t = Ok [[]].
Proof.
  split; [reflexivity|].
  apply (Daubechies4_eight_samples (map F64.of_Z [0; 1; 2; 3; 4; 5; 6; 7])).
  reflexivity.
Defined.

(** On 8 samples the single band returned at level 1 does not have
    length 4. *)
Lemma Daubechies4_eight_samples_band_not_4 :
  ~ exists t band,
      Daubechies4 (map F64.of_Z [0; 1; 2; 3; 4; 5; 6; 7]) 1 = Ok t
      /\ GetCoefficients t = Ok [band]
      /\ length band = 4%nat.
Proof.
  intros (t & band & E1 & E2 & E3).
  vm_compute in E1. injection E1 as <-.
  vm_compute in E2. injection E2 as <-. discriminate E3.
Qed.

(** ** Slices and loops *)

Section SliceFacts.
Context {A : Type}.
Implicit Types (s w : list A).

Lemma get_lookup s i j x :
  i = Z.of_nat j -> s !! j = Some x -> get s i = Ok x.
Proof.
  intros -> H. unfold get.
  destruct (Z.ltb_spec (Z.of_nat j) 0); [lia|].
  rewrite Nat2Z.id, H. reflexivity.
Qed.

Lemma set_insert s i j v :
  i = Z.of_nat j -> (j < length s)%nat -> set s i v = Ok (<[j := v]> s).
Proof.
  intros -> H. unfold set, len.
  destruct (Z.leb_spec 0 (Z.of_nat j)); [|lia].
  destruct (Z.ltb_spec (Z.of_nat j) (Z.of_nat (length s))); [|lia].
  rewrite Nat2Z.id. reflexivity.
Qed.

Lemma get_out_of_range s i : len s <= i -> get s i = Panic.
Proof.
  intros H. unfold get, len in *.
  destruct (Z.ltb_spec i 0); [reflexivity|].
  rewrite lookup_ge_None_2 by lia. reflexivity.
Qed.

Lemma pointwise_length P g w : length (pointwise P g w) = length w.
Proof. apply length_imap. Qed.

Lemma pointwise_lookup P g w j :
  pointwise P g w !! j = (fun x => if P j then g j else x) <$> w !! j.
Proof. apply list_lookup_imap. Qed.

Lemma pointwise_none P g w :
  (forall j, (j < length w)%nat -> P j = false) -> pointwise P g w = w.
Proof.
  intros H. apply list_eq. intros j. rewrite pointwise_lookup.
  destruct (w !! j) eqn:E; [|reflexivity]. cbn.
  rewrite H; [reflexivity|]. eapply lookup_lt_Some, E.
Qed.

Lemma pointwise_ext P Q g g' w :
  (forall j, (j < length w)%nat ->
     P j = Q j /\ (P j = true -> g j = g' j)) ->
  pointwise P g w = pointwise Q g' w.
Proof.
  intros H. apply list_eq. intros j. rewrite !pointwise_lookup.
  destruct (w !! j) eqn:E; [|reflexivity]. cbn.
  destruct (H j) as [HP Hg]; [eapply lookup_lt_Some, E|].
  rewrite <- HP. destruct (P j); [rewrite Hg|]; reflexivity.
Qed.

Lemma insert_pointwise P Q g w j v :
  (j < length w)%nat -> v = g j ->
  (forall i, (i < length w)%nat -> Q i = P i || (i =? j)%nat) ->
  <[j := v]> (pointwise P g w) = pointwise Q g w.
Proof.
  intros Hj -> HQ. apply list_eq. intros i.
  destruct (decide (i = j)) as [->|Hne].
  - rewrite list_lookup_insert_eq by (rewrite pointwise_length; lia).
    rewrite pointwise_lookup. destruct (lookup_lt_is_Some_2 w j Hj) as [x ->].
    cbn. rewrite HQ, Nat.eqb_refl, orb_true_r by lia. reflexivity.
  - rewrite list_lookup_insert_ne by congruence. rewrite !pointwise_lookup.
    destruct (w !! i) eqn:E; [|reflexivity]. cbn.
    rewrite HQ by (eapply lookup_lt_Some, E).
    destruct (Nat.eqb_spec i j); [congruence|]. rewrite orb_false_r. reflexivity.
Qed.

Lemma set_pointwise P Q g w i j v :
  i = Z.of_nat j -> (j < length w)%nat -> v = g j ->
  (forall i', (i' < length w)%nat -> Q i' = P i' || (i' =? j)%nat) ->
  set (pointwise P g w) i v = Ok (pointwise Q g w).
Proof.
  intros Hi Hj Hv HQ.
  rewrite (set_insert _ i j) by (rewrite ?pointwise_length; assumption).
  f_equal. apply insert_pointwise; assumption.
Qed.

Context `{Inhabited A}.

Lemma pointwise_lookup_total P g w j :
  (j < length w)%nat ->
  pointwise P g w !!! j = if P j then g j else w !!! j.
Proof.
  intros Hj. rewrite !list_lookup_total_alt, pointwise_lookup.
  destruct (lookup_lt_is_Some_2 w j Hj) as [x ->]. reflexivity.
Qed.

Lemma get_total s i j :
  i = Z.of_nat j -> (j < length s)%nat -> get s i = Ok (s !!! j).
Proof.
  intros Hi Hj. apply (get_lookup s i j); [assumption|].
  apply list_lookup_lookup_total_lt. assumption.
Qed.

Lemma get_pointwise P g w i j :
  i = Z.of_nat j -> (j < length w)%nat ->
  get (pointwise P g w) i = Ok (if P j then g j else w !!! j).
Proof.
  intros Hi Hj. rewrite (get_total _ i j) by (rewrite ?pointwise_length; assumption).
  rewrite pointwise_lookup_total by assumption. reflexivity.
Qed.

End SliceFacts.

Lemma for_loop_chain {T : Type} (St : nat -> T) body a step :
  forall count k0,
    (forall k, (k0 <= k < k0 + count)%nat ->
       body (a + Z.of_nat k * step) (St k) = Ok (St (S k))) ->
    for_loop count (a + Z.of_nat k0 * step) step body (St k0)
    = Ok (St (k0 + count)%nat).
Proof.
  induction count as [|count IH]; intros k0 Hb.
  - cbn. rewrite Nat.add_0_r. reflexivity.
  - cbn [for_loop]. rewrite Hb by lia. cbn [bind].
    replace (a + Z.of_nat k0 * step + step)
      with (a + Z.of_nat (S k0) * step) by lia.
    rewrite IH; [f_equal; f_equal; lia|].
    intros k Hk. apply Hb. lia.
Qed.

Lemma for_range_chain {T : Type} (St : nat -> T) body (a b : Z) count s0 :
  St 0%nat = s0 ->
  count = Z.to_nat (b - a) ->
  (forall k, (k < count)%nat ->
     body (a + Z.of_nat k) (St k) = Ok (St (S k))) ->
  for_range a b body s0 = Ok (St count).
Proof.
  intros <- -> Hb. unfold for_range.
  pose proof (for_loop_chain St body a 1 (Z.to_nat (b - a)) 0) as Hc.
  cbn [Nat.add] in Hc. replace (a + Z.of_nat 0 * 1) with a in Hc by lia.
  apply Hc. intros k Hk. replace (a + Z.of_nat k * 1) with (a + Z.of_nat k) by lia.
  apply Hb. lia.
Qed.

Lemma range_loop_from {A T : Type} (St : nat -> T) body :
  forall (l : list A) i0 k0,
    (forall k v, l !! k = Some v ->
       body (i0 + Z.of_nat k) v (St (k0 + k)%nat)
       = Ok (St (S (k0 + k)))) ->
    range_loop i0 l body (St k0) = Ok (St (k0 + length l)%nat).
Proof.
  induction l as [|v l IH]; intros i0 k0 Hb.
  - cbn. rewrite Nat.add_0_r. reflexivity.
  - cbn [range_loop].
    pose proof (Hb 0%nat v eq_refl) as H0.
    rewrite Z.add_0_r, Nat.add_0_r in H0. rewrite H0. cbn [bind].
    rewrite (IH (i0 + 1) (S k0)).
    + f_equal. f_equal. cbn [length]. lia.
    + intros k v' Hk.
      replace (i0 + 1 + Z.of_nat k) with (i0 + Z.of_nat (S k)) by lia.
      replace (S k0 + k)%nat with (k0 + S k)%nat by lia.
      apply Hb. exact Hk.
Qed.

Lemma range_loop_chain {A T : Type} (St : nat -> T) body (l : list A) s0 :
  St 0%nat = s0 ->
  (forall k v, l !! k = Some v ->
     body (Z.of_nat k) v (St k) = Ok (St (S k))) ->
  range_loop 0 l body s0 = Ok (St (length l)).
Proof.
  intros <- Hb. apply (range_loop_from St body l 0 0%nat).
  intros k v Hk. rewrite Z.add_0_l. cbn [Nat.add]. apply Hb, Hk.
Qed.


(** ** The stages of the lifting pass *)

Ltac nat_tests :=
  repeat (match goal with
          | |- context [(?a <? ?b)%nat] => destruct (Nat.ltb_spec a b)
          | |- context [(?a <=? ?b)%nat] => destruct (Nat.leb_spec a b)
          | |- context [(?a =? ?b)%nat] => destruct (Nat.eqb_spec a b)
          end; try (exfalso; lia));
  cbn [andb orb negb]; try reflexivity; try lia.

Ltac same_index := repeat (f_equal; try lia).

Ltac name_values g :=
  match goal with
  | |- context [pointwise _ ?g0 _] => set (g := g0)
  end.

Lemma half_even (w : list float64) h :
  length w = (2 * h)%nat ->
  Int.half (len w) = Z.of_nat h /\ (length w / 2)%nat = h.
Proof.
  intros H. unfold Int.half, len. rewrite H. split.
  - rewrite Z.quot_div_nonneg by lia. rewrite Nat2Z.inj_mul.
    rewrite Z.mul_comm, Z.div_mul by lia. reflexivity.
  - rewrite Nat.mul_comm, Nat.div_mul by lia. reflexivity.
Qed.

Ltac unchanged := apply pointwise_none; intros; nat_tests.

Lemma update1_ok w h :
  length w = (2 * h)%nat -> update1 (Z.of_nat h) w = Ok (update1_spec w).
Proof.
  intros Hw. unfold update1, update1_spec.
  destruct (half_even w h Hw) as [_ ->].
  name_values g.
  apply (for_range_chain (fun k => pointwise (fun i => (i <? k)%nat) g w));
    [unchanged|lia|].
  intros k Hk.
  rewrite (get_pointwise _ _ _ _ k) by lia.
  rewrite (get_pointwise _ _ _ _ (h + k)%nat) by lia. cbn [bind].
  apply (set_pointwise _ _ _ _ _ k); [lia|lia| |intros; nat_tests].
  subst g. cbn beta. nat_tests.
Qed.

Lemma predict_ok w h :
  length w = (2 * h)%nat -> (1 <= h)%nat ->
  predict (Z.of_nat h) w = Ok (predict_spec w).
Proof.
  intros Hw Hh. unfold predict, predict_spec.
  destruct (half_even w h Hw) as [_ ->].
  name_values g.
  rewrite (get_total w _ h), (get_total w _ 0%nat), (get_total w _ (h - 1)%nat)
    by lia.
  cbn [bind].
  rewrite (set_insert w _ h) by lia. cbn [bind].
  rewrite (for_range_chain
             (fun k => pointwise (fun i => (h <=? i)%nat && (i <=? h + k)%nat) g w)
             _ 1 (Z.of_nat h) (h - 1)%nat); [| |lia|].
  - f_equal. apply pointwise_ext. intros j Hj. split; [nat_tests|reflexivity].
  - symmetry.
    etransitivity;
      [|apply (insert_pointwise (fun _ => false) _ g w h);
        [lia|reflexivity|intros; nat_tests]].
    rewrite pointwise_none by reflexivity.
    subst g. cbn beta. rewrite Nat.eqb_refl. same_index.
  - intros k Hk.
    rewrite (get_pointwise _ _ _ _ (h + 1 + k)%nat) by lia.
    rewrite (get_pointwise _ _ _ _ (1 + k)%nat) by lia.
    rewrite (get_pointwise _ _ _ _ k) by lia.
    cbn [bind].
    apply (set_pointwise _ _ _ _ _ (h + 1 + k)%nat); [lia|lia| |intros; nat_tests].
    subst g. cbn beta. nat_tests. same_index.
Qed.

Lemma update2_ok w h :
  length w = (2 * h)%nat -> (1 <= h)%nat ->
  update2 (Z.of_nat h) w = Ok (update2_spec w).
Proof.
  intros Hw Hh. unfold update2, update2_spec.
  destruct (half_even w h Hw) as [_ ->].
  name_values g.
  rewrite (for_range_chain (fun k => pointwise (fun i => (i <? k)%nat) g w)
             _ 0 (Z.of_nat h - 1) (h - 1)%nat); [|unchanged|lia|].
  - cbn [bind].
    rewrite (get_pointwise _ _ _ _ (h - 1)%nat) by lia.
    rewrite (get_pointwise _ _ _ _ h) by lia.
    cbn [bind].
    apply (set_pointwise _ _ _ _ _ (h - 1)%nat); [lia|lia| |intros; nat_tests].
    subst g. cbn beta. nat_tests.
  - intros k Hk.
    rewrite (get_pointwise _ _ _ _ k) by lia.
    rewrite (get_pointwise _ _ _ _ (h + k + 1)%nat) by lia.
    cbn [bind].
    apply (set_pointwise _ _ _ _ _ k); [lia|lia| |intros; nat_tests].
    subst g. cbn beta. nat_tests.
Qed.

Lemma normalise_ok w h :
  length w = (2 * h)%nat ->
  normalise (Z.of_nat h) w = Ok (normalise_spec w).
Proof.
  intros Hw. unfold normalise, normalise_spec.
  destruct (half_even w h Hw) as [_ ->].
  name_values g.
  set (P := fun k i => ((i <? k)%nat || (h <=? i)%nat && (i <? h + k)%nat)).
  rewrite (for_range_chain (fun k => pointwise (P k) g w)
             _ 0 (Z.of_nat h) h); [| |lia|].
  - f_equal. apply pointwise_ext. intros j Hj. split; [unfold P; nat_tests|reflexivity].
  - unfold P. unchanged.
  - intros k Hk.
    rewrite (get_pointwise _ _ _ _ k) by lia. cbn [bind].
    rewrite (set_pointwise _ (fun i => P k i || (i =? k)%nat) _ _ _ k);
      [|lia|lia| |reflexivity].
    2:{ subst g. unfold P. cbn beta. nat_tests. }
    cbn [bind].
    rewrite (get_pointwise _ _ _ _ (k + h)%nat) by lia. cbn [bind].
    apply (set_pointwise _ _ _ _ _ (k + h)%nat); [lia|lia| |intros; unfold P; nat_tests].
    subst g. unfold P. cbn beta. nat_tests.
Qed.

Lemma update1_spec_length w : length (update1_spec w) = length w.
Proof. apply pointwise_length. Qed.
Lemma predict_spec_length w : length (predict_spec w) = length w.
Proof. apply pointwise_length. Qed.
Lemma update2_spec_length w : length (update2_spec w) = length w.
Proof. apply pointwise_length. Qed.
Lemma normalise_spec_length w : length (normalise_spec w) = length w.
Proof. apply pointwise_length. Qed.

Lemma daubechies4_ok w h :
  length w = (2 * h)%nat -> (1 <= h)%nat ->
  daubechies4 w = Ok (lifting_spec w).
Proof.
  intros Hw Hh. unfold daubechies4, lifting_spec.
  destruct (half_even w h Hw) as [-> _].
  rewrite (update1_ok w h Hw). cbn [bind].
  rewrite predict_ok by (rewrite ?update1_spec_length; assumption). cbn [bind].
  rewrite update2_ok
    by (rewrite ?predict_spec_length, ?update1_spec_length; assumption).
  cbn [bind].
  apply normalise_ok.
  rewrite update2_spec_length, predict_spec_length, update1_spec_length.
  assumption.
Qed.

Lemma daubechies4_empty : daubechies4 [] = Panic.
Proof. reflexivity. Qed.

(** ** split *)

Lemma evens_cons2 {A : Type} (x y : A) l : evens (x :: y :: l) = x :: evens l.
Proof. reflexivity. Qed.

Lemma odds_cons2 {A : Type} (x y : A) l : odds (x :: y :: l) = y :: odds l.
Proof. reflexivity. Qed.

Lemma pairs_ind {A : Type} (P : list A -> Prop) :
  P [] -> (forall x, P [x]) -> (forall x y l, P l -> P (x :: y :: l)) ->
  forall l, P l.
Proof.
  intros H0 H1 H2.
  assert (H : forall l, P l /\ forall x, P (x :: l)).
  { induction l as [|y l [IH1 IH2]]; [auto|]. split; [apply IH2|].
    intros x. apply H2, IH1. }
  intros l. apply H.
Qed.

Lemma lookup_evens {A : Type} (l : list A) :
  forall i, evens l !! i = l !! (2 * i)%nat.
Proof.
  induction l as [| x | x y l IH] using pairs_ind; intros i.
  - reflexivity.
  - destruct i; reflexivity.
  - rewrite evens_cons2. destruct i as [|i]; [reflexivity|].
    replace (2 * S i)%nat with (S (S (2 * i))) by lia. cbn. apply IH.
Qed.

Lemma lookup_odds {A : Type} (l : list A) i :
  odds l !! i = l !! (2 * i + 1)%nat.
Proof.
  destruct l as [|x l]; [reflexivity|].
  replace (2 * i + 1)%nat with (S (2 * i)) by lia. cbn. apply lookup_evens.
Qed.

Lemma length_evens {A : Type} (l : list A) h :
  length l = (2 * h)%nat -> length (evens l) = h.
Proof.
  revert h. induction l as [| x | x y l IH] using pairs_ind; intros h Hl.
  - cbn in *. lia.
  - cbn in Hl. lia.
  - rewrite evens_cons2. cbn [length] in *. destruct h as [|h]; [lia|].
    rewrite (IH h); lia.
Qed.

Lemma half_odd_index k : Int.half (1 + Z.of_nat k * 2) = Z.of_nat k.
Proof.
  unfold Int.half. rewrite Z.quot_div_nonneg by lia.
  symmetry. apply (Z.div_unique _ 2 _ 1); lia.
Qed.

Lemma half_even_index k : Int.half (2 + Z.of_nat k * 2) = Z.of_nat (S k).
Proof.
  unfold Int.half. rewrite Z.quot_div_nonneg by lia.
  replace (2 + Z.of_nat k * 2) with (Z.of_nat (S k) * 2) by lia.
  rewrite Z.div_mul by lia. reflexivity.
Qed.

Lemma for_step2_chain {T : Type} (St : nat -> T) body (a b : Z) count s0 :
  St 0%nat = s0 ->
  count = Z.to_nat ((b - a + 1) / 2) ->
  (forall k, (k < count)%nat ->
     body (a + Z.of_nat k * 2) (St k) = Ok (St (S k))) ->
  for_step2 a b body s0 = Ok (St count).
Proof.
  intros <- -> Hb. unfold for_step2.
  pose proof (for_loop_chain St body a 2 (Z.to_nat ((b - a + 1) / 2)) 0) as Hc.
  cbn [Nat.add] in Hc. replace (a + Z.of_nat 0 * 2) with a in Hc by lia.
  apply Hc. intros k Hk. apply Hb. lia.
Qed.

Lemma step2_count_odd h :
  h = Z.to_nat ((Z.of_nat (2 * h) - 1 + 1) / 2).
Proof.
  replace (Z.of_nat (2 * h) - 1 + 1) with (Z.of_nat h * 2) by lia.
  rewrite Z.div_mul by lia. lia.
Qed.

Lemma step2_count_even h :
  (h - 1)%nat = Z.to_nat ((Z.of_nat (2 * h) - 2 + 1) / 2).
Proof.
  destruct h as [|h]; [reflexivity|].
  rewrite <- (Z.div_unique (Z.of_nat (2 * S h) - 2 + 1) 2 (Z.of_nat h) 1); lia.
Qed.

Lemma length_evens_le {A : Type} (l : list A) :
  (length (evens l) <= length l)%nat.
Proof. induction l using pairs_ind; cbn [evens length] in *; lia. Qed.

Lemma length_odds {A : Type} (l : list A) h :
  length l = (2 * h)%nat -> length (odds l) = h.
Proof.
  intros Hl. pose proof (length_evens l h Hl) as He.
  assert (H : forall l' : list A,
             (length (evens l') + length (odds l') = length l')%nat).
  { induction l' as [| x | x y l' IH] using pairs_ind; [reflexivity|reflexivity|].
    rewrite evens_cons2, odds_cons2. cbn [length]. lia. }
  specialize (H l). lia.
Qed.

Lemma split_ok s h :
  length s = (2 * h)%nat -> split s = Ok (split_spec s).
Proof.
  intros Hs. unfold split, split_spec.
  destruct (half_even s h Hs) as [-> _].
  assert (Hlen : len s = Z.of_nat (2 * h)) by (unfold len; rewrite Hs; reflexivity).
  rewrite make_nonneg by lia. cbn [bind]. rewrite Nat2Z.id, Hlen.
  (* the odd elements are saved *)
  set (g1 := fun i : nat => s !!! (2 * i + 1)%nat).
  rewrite (for_step2_chain
             (fun k => pointwise (fun i => (i <? k)%nat) g1 (replicate h F64.zero))
             _ 1 _ h); [|unchanged|apply step2_count_odd|].
  2:{ intros k Hk. rewrite (get_total s _ (2 * k + 1)%nat) by lia. cbn [bind].
      rewrite half_odd_index.
      apply (set_pointwise _ _ _ _ _ k);
        [reflexivity|rewrite length_replicate; lia|reflexivity|intros; nat_tests]. }
  cbn [bind].
  (* the even elements move down *)
  set (g2 := fun i : nat => s !!! (2 * i)%nat).
  rewrite (for_step2_chain
             (fun k => pointwise (fun i => (0 <? i)%nat && (i <=? k)%nat) g2 s)
             _ 2 _ (h - 1)%nat); [|unchanged|apply step2_count_even|].
  2:{ intros k Hk. rewrite (get_pointwise _ _ _ _ (2 * k + 2)%nat) by lia.
      cbn [bind]. rewrite half_even_index.
      replace ((0 <? 2 * k + 2)%nat && (2 * k + 2 <=? k)%nat) with false
        by nat_tests.
      apply (set_pointwise _ _ _ _ _ (S k));
        [reflexivity|lia| |intros; nat_tests].
      subst g2. cbn beta. same_index. }
  cbn [bind].
  (* the odd elements fill the back half *)
  set (odd := pointwise _ g1 _). set (s2 := pointwise _ g2 s).
  assert (Hs2 : length s2 = (2 * h)%nat) by (subst s2; rewrite pointwise_length; exact Hs).
  assert (Hodd : length odd = h)
    by (subst odd; rewrite pointwise_length, length_replicate; reflexivity).
  set (g3 := fun i : nat => s !!! (2 * (i - h) + 1)%nat).
  set (P3 := fun k i => ((h <=? i)%nat && (i <? h + k)%nat)).
  rewrite (range_loop_chain (fun k => pointwise (P3 k) g3 s2));
    [|unfold P3; unchanged|].
  2:{ intros k v Hk.
      assert (k < h)%nat by (rewrite <- Hodd; eapply lookup_lt_Some, Hk).
      apply (set_pointwise _ _ _ _ _ (h + k)%nat);
        [lia|lia| |intros; unfold P3; nat_tests].
      subst odd. rewrite pointwise_lookup, lookup_replicate_2 in Hk by lia.
      change (Some (if (k <? h)%nat then g1 k else F64.zero) = Some v) in Hk.
      destruct (Nat.ltb_spec k h); [|lia].
      injection Hk as <-. subst g1 g3. cbn beta. same_index. }
  f_equal. rewrite Hodd.
  apply list_eq. intros i.
  destruct (Nat.lt_ge_cases i (2 * h)) as [Hi|Hi].
  2:{ rewrite !lookup_ge_None_2; [reflexivity| |].
      - rewrite length_app, (length_evens s h Hs), (length_odds s h Hs). lia.
      - rewrite pointwise_length. lia. }
  rewrite list_lookup_lookup_total_lt by (rewrite pointwise_length; lia).
  rewrite pointwise_lookup_total by lia.
  subst s2. rewrite pointwise_lookup_total by lia.
  unfold P3, g2, g3.
  destruct (Nat.lt_ge_cases i h) as [Hih|Hih].
  - rewrite lookup_app_l by (rewrite (length_evens s h Hs); lia).
    rewrite lookup_evens.
    rewrite (list_lookup_lookup_total_lt s (2 * i)) by lia.
    f_equal. nat_tests. same_index.
  - rewrite lookup_app_r by (rewrite (length_evens s h Hs); lia).
    rewrite (length_evens s h Hs), lookup_odds.
    rewrite (list_lookup_lookup_total_lt s (2 * (i - h) + 1)) by lia.
    f_equal. nat_tests.
Qed.

(** ** One pass on a window of the buffer *)

Lemma slice_ok {A : Type} (s : list A) a b :
  0 <= a <= b -> b <= len s ->
  slice s a b = Ok (take (Z.to_nat (b - a)) (drop (Z.to_nat a) s)).
Proof.
  intros Ha Hb. unfold slice.
  destruct (Z.leb_spec 0 a); [|lia]. destruct (Z.leb_spec a b); [|lia].
  destruct (Z.leb_spec b (len s)); [|lia]. reflexivity.
Qed.

Lemma slice_Ok_inv {A : Type} (s w : list A) a b :
  slice s a b = Ok w ->
  0 <= a <= b /\ b <= len s /\ length w = Z.to_nat (b - a)
  /\ w = take (Z.to_nat (b - a)) (drop (Z.to_nat a) s).
Proof.
  unfold slice, len. intros H.
  destruct (Z.leb_spec 0 a); [|discriminate].
  destruct (Z.leb_spec a b); [|discriminate].
  destruct (Z.leb_spec b (Z.of_nat (length s))); [|discriminate].
  cbn in H. injection H as <-.
  rewrite length_take, length_drop. repeat split; lia.
Qed.

Lemma slice_window {A : Type} (s w : list A) a b :
  0 <= a <= b -> b <= len s -> length w = Z.to_nat (b - a) ->
  slice (take (Z.to_nat a) s ++ w ++ drop (Z.to_nat b) s) a b = Ok w.
Proof.
  intros Ha Hb Hw. unfold len in *.
  assert (Hta : length (take (Z.to_nat a) s) = Z.to_nat a)
    by (rewrite length_take; lia).
  rewrite slice_ok; [|lia|].
  - rewrite drop_app_length' by (symmetry; exact Hta).
    rewrite take_app_length' by (symmetry; exact Hw). reflexivity.
  - unfold len. rewrite !length_app, Hta, Hw, length_drop. lia.
Qed.

Lemma window_of_window {A : Type} (s w w' : list A) a b :
  0 <= a <= b -> b <= len s -> length w = Z.to_nat (b - a) ->
  take (Z.to_nat a) (take (Z.to_nat a) s ++ w ++ drop (Z.to_nat b) s)
    ++ w' ++ drop (Z.to_nat b) (take (Z.to_nat a) s ++ w ++ drop (Z.to_nat b) s)
  = take (Z.to_nat a) s ++ w' ++ drop (Z.to_nat b) s.
Proof.
  intros Ha Hb Hw. unfold len in *.
  assert (Hta : length (take (Z.to_nat a) s) = Z.to_nat a)
    by (rewrite length_take; lia).
  rewrite take_app_length' by (symmetry; exact Hta).
  f_equal. f_equal.
  rewrite app_assoc, drop_app_length'; [reflexivity|].
  rewrite length_app, Hta, Hw. lia.
Qed.

(** The two calls of the loop body of [Daubechies4] amount to one
    [transform_pass] on the window. *)
Lemma pass_on_window buf a b w :
  slice buf a b = Ok w -> Nat.Even (length w) ->
  (do buf' <- on_window split buf a b; on_window daubechies4 buf' a b)
  = on_window transform_pass buf a b.
Proof.
  intros Hsl [h Hh].
  destruct (slice_Ok_inv _ _ _ _ Hsl) as (Ha & Hb & Hlen & _).
  unfold on_window, transform_pass. rewrite Hsl. cbn [bind].
  rewrite (split_ok w h Hh). cbn [bind].
  assert (Hsp : length (split_spec w) = Z.to_nat (b - a)).
  { unfold split_spec. rewrite length_app, (length_evens w h Hh), (length_odds w h Hh). lia. }
  rewrite slice_window by assumption. cbn [bind].
  destruct (daubechies4 (split_spec w)) as [w'| |]; cbn [bind]; [|reflexivity..].
  rewrite window_of_window by assumption. reflexivity.
Qed.

(** C5 (as amended).  On every non-empty window of even length, one
    transform pass returns the window obtained by first splitting it into
    its even-indexed samples followed by its odd-indexed samples, each in
    their original order, and then applying Update 1, Predict, Update 2 and
    Normalise, in that order. *)
Theorem transform_pass_order w :
  w <> [] -> Nat.Even (length w) ->
  transform_pass w
  = Ok (normalise_spec (update2_spec (predict_spec (update1_spec (split_spec w))))).
Proof.
  intros Hne [h Hh]. unfold transform_pass.
  rewrite (split_ok w h Hh). cbn [bind].
  apply (daubechies4_ok (split_spec w) h).
  - unfold split_spec.
    rewrite length_app, (length_evens w h Hh), (length_odds w h Hh). lia.
  - destruct w; [congruence|]. cbn [length] in Hh. lia.
Qed.

Lemma transform_pass_order_witness :
  map F64.of_Z [1; 2; 3; 4] <> [] /\
  Nat.Even (length (map F64.of_Z [1; 2; 3; 4])) /\
  transform_pass (map F64.of_Z [1; 2; 3; 4])
  = Ok (normalise_spec (update2_spec (predict_spec (update1_spec
          (split_spec (map F64.of_Z [1; 2; 3; 4])))))).
Proof.
  split; [discriminate|]. split; [exists 2%nat; reflexivity|].
  apply (transform_pass_order (map F64.of_Z [1; 2; 3; 4]));
    [discriminate|exists 2%nat; reflexivity].
Defined.

(** The empty window has even length, and the pass panics on it: Predict
    reads [s[half]], [s[0]] and [s[half-1]]. *)
Lemma transform_pass_empty_window :
  Nat.Even (length (@nil float64)) /\
  transform_pass [] = Panic /\
  transform_pass []
  <> Ok (normalise_spec (update2_spec (predict_spec (update1_spec
           (split_spec []))))).
Proof.
  split; [exists 0%nat; reflexivity|]. split; [reflexivity|discriminate].
Qed.

(** ** Order of float64 values *)

Lemma SFcompare_swap a b :
  SFcompare b a = option_map CompOpp (SFcompare a b).
Proof.
  destruct a as [sa|sa| |sa ma ea], b as [sb|sb| |sb mb eb];
    try destruct sa; try destruct sb; try reflexivity; cbn;
    rewrite (Z.compare_antisym ea eb);
    destruct (ea ?= eb); cbn; try reflexivity;
    change (Pos.compare_cont Eq mb ma) with (Pos.compare mb ma);
    change (Pos.compare_cont Eq ma mb) with (Pos.compare ma mb);
    rewrite (Pos.compare_antisym ma mb);
    destruct (Pos.compare ma mb); reflexivity.
Qed.

Lemma gt_compare a b : F64.gt a b = true <-> SFcompare a b = Some Gt.
Proof.
  unfold F64.gt, SFltb. rewrite (SFcompare_swap a b).
  destruct (SFcompare a b) as [[ | | ]|]; cbn; split; congruence.
Qed.

Lemma gt_asym a b : F64.gt a b = true -> F64.gt b a = false.
Proof.
  intros H. apply gt_compare in H.
  unfold F64.gt, SFltb. rewrite H. reflexivity.
Qed.

Ltac cmp_cases :=
  repeat match goal with
    | H : context [Z.compare ?a ?b] |- _ =>
        destruct (Z.compare_spec a b); try discriminate H
    | H : context [Pos.compare ?a ?b] |- _ =>
        destruct (Pos.compare_spec a b); try discriminate H
    | |- context [Z.compare ?a ?b] =>
        destruct (Z.compare_spec a b)
    | |- context [Pos.compare ?a ?b] =>
        destruct (Pos.compare_spec a b)
    end.

Lemma SFltb_trans a b c :
  SFltb a b = true -> SFltb b c = true -> SFltb a c = true.
Proof.
  unfold SFltb.
  destruct a as [sa|sa| |sa ma ea], b as [sb|sb| |sb mb eb],
           c as [sc|sc| |sc mc ec];
    try destruct sa; try destruct sb; try destruct sc;
    cbn; try congruence;
    change (Pos.compare_cont Eq) with Pos.compare in *;
    intros H1 H2; cmp_cases; cbn in *; try reflexivity; try discriminate; try lia.
Qed.

Lemma gt_trans a b c :
  F64.gt a b = true -> F64.gt b c = true -> F64.gt a c = true.
Proof. unfold F64.gt. intros H1 H2. exact (SFltb_trans c b a H2 H1). Qed.

Lemma SFleb_refl a : F64.is_nan a = false -> SFleb a a = true.
Proof.
  unfold SFleb. destruct a as [s|s| |s m e]; try destruct s; cbn;
    try congruence; intros _;
    rewrite Z.compare_refl; change (Pos.compare_cont Eq m m) with (Pos.compare m m);
    rewrite Pos.compare_refl; reflexivity.
Qed.

Lemma SFleb_total a b :
  F64.is_nan a = false -> F64.is_nan b = false ->
  SFltb a b = false -> SFleb b a = true.
Proof.
  unfold SFleb, SFltb.
  destruct a as [sa|sa| |sa ma ea], b as [sb|sb| |sb mb eb];
    try destruct sa; try destruct sb; cbn; try congruence;
    change (Pos.compare_cont Eq) with Pos.compare in *;
    intros _ _ H; cmp_cases; cbn in *; try reflexivity; try discriminate; try lia.
Qed.

Lemma SFleb_ltb_trans a b c :
  SFleb a b = true -> SFltb b c = true -> SFleb a c = true.
Proof.
  unfold SFleb, SFltb.
  destruct a as [sa|sa| |sa ma ea], b as [sb|sb| |sb mb eb],
           c as [sc|sc| |sc mc ec];
    try destruct sa; try destruct sb; try destruct sc;
    cbn; try congruence;
    change (Pos.compare_cont Eq) with Pos.compare in *;
    intros H1 H2; cmp_cases; cbn in *; try reflexivity; try discriminate; try lia.
Qed.

Lemma lt_inf_not_nan x : F64.lt x F64.inf = true -> F64.is_nan x = false.
Proof. destruct x; cbn; congruence. Qed.

Lemma div_inf_positive x :
  match x with
  | S754_zero false | S754_finite false _ _ => True
  | _ => False
  end ->
  F64.div F64.inf x = F64.inf.
Proof. destruct x as [[|]|[|]| |[|] m e]; cbn; intros H; try contradiction; reflexivity. Qed.

Lemma ge_inf f : F64.is_nan f = false -> F64.ge F64.inf f = true.
Proof. destruct f as [[|]|[|]| |[|] m e]; cbn; congruence. Qed.

(** ** Reading and writing slices at integer indices *)

Section GetSet.
Context {A : Type}.
Implicit Types (s : list A).

Lemma get_Ok_range s i v : get s i = Ok v -> 0 <= i < len s.
Proof.
  unfold get, len. destruct (Z.ltb_spec i 0); [discriminate|].
  destruct (s !! Z.to_nat i) eqn:E; [|discriminate]. intros _.
  apply lookup_lt_Some in E. lia.
Qed.

Lemma get_in_range s i : 0 <= i < len s -> exists v, get s i = Ok v.
Proof.
  unfold get, len. intros H. destruct (Z.ltb_spec i 0); [lia|].
  destruct (lookup_lt_is_Some_2 s (Z.to_nat i)) as [v ->]; [lia|]. eauto.
Qed.

Lemma get_Ok_lookup s i v : get s i = Ok v <-> 0 <= i /\ s !! Z.to_nat i = Some v.
Proof.
  unfold get. destruct (Z.ltb_spec i 0).
  - split; [discriminate|lia].
  - destruct (s !! Z.to_nat i); split; intros H'; try discriminate.
    + injection H' as <-. auto.
    + destruct H' as [_ H']. injection H' as <-. reflexivity.
    + destruct H' as [_ H']. discriminate.
Qed.

Lemma set_Ok s i v s' :
  set s i v = Ok s' -> 0 <= i < len s /\ s' = <[Z.to_nat i := v]> s.
Proof.
  unfold set. destruct (Z.leb_spec 0 i); [|discriminate].
  destruct (Z.ltb_spec i (len s)); [|discriminate].
  cbn. intros H'. injection H' as <-. auto.
Qed.

Lemma set_in_range s i v :
  0 <= i < len s -> set s i v = Ok (<[Z.to_nat i := v]> s).
Proof.
  intros H. unfold set. destruct (Z.leb_spec 0 i); [|lia].
  destruct (Z.ltb_spec i (len s)); [|lia]. reflexivity.
Qed.

Lemma len_insert s j v : len (<[j := v]> s) = len s.
Proof. unfold len. rewrite length_insert. reflexivity. Qed.

Lemma get_insert_eq s i v :
  0 <= i < len s -> get (<[Z.to_nat i := v]> s) i = Ok v.
Proof.
  intros H. apply get_Ok_lookup. split; [lia|].
  apply list_lookup_insert_eq. unfold len in H. lia.
Qed.

Lemma get_insert_ne s i j v :
  0 <= i -> i <> j -> get (<[Z.to_nat i := v]> s) j = get s j.
Proof.
  intros Hi Hne. unfold get. destruct (Z.ltb_spec j 0); [reflexivity|].
  rewrite list_lookup_insert_ne by lia. reflexivity.
Qed.

Lemma get_app_l s s2 i : i < len s -> get (s ++ s2) i = get s i.
Proof.
  intros H. unfold get, len in *. destruct (Z.ltb_spec i 0); [reflexivity|].
  rewrite lookup_app_l by lia. reflexivity.
Qed.

Lemma get_snoc s x : get (s ++ [x]) (len s) = Ok x.
Proof.
  apply get_Ok_lookup. unfold len. split; [lia|].
  rewrite Nat2Z.id, lookup_app_r, Nat.sub_diag by lia. reflexivity.
Qed.

Lemma len_app s s2 : len (s ++ s2) = len s + len s2.
Proof. unfold len. rewrite length_app. lia. Qed.

End GetSet.

(** ** Processed indices and the cases of a sweep step *)

Lemma processed_get m i : processed m i <-> exists v, get m i = Ok v /\ v <> none.
Proof.
  unfold processed, processedb. destruct (get m i) as [v| |].
  - destruct (Z.eqb_spec v none); cbn; split; intros H.
    + discriminate.
    + destruct H as (v' & [= <-] & Hv). contradiction.
    + eauto.
    + reflexivity.
  - split; [discriminate|]. intros (v & H & _). discriminate.
  - split; [discriminate|]. intros (v & H & _). discriminate.
Qed.

Lemma processed_range m i : processed m i -> 0 <= i < len m.
Proof. intros H. apply processed_get in H as (v & H & _). eapply get_Ok_range, H. Qed.

Lemma not_processed_get m i : ~ processed m i -> 0 <= i < len m -> get m i = Ok none.
Proof.
  intros Hn Hr. destruct (get_in_range m i Hr) as [v Hv].
  destruct (Z.eq_dec v none) as [->|Hne]; [exact Hv|].
  exfalso. apply Hn, processed_get. eauto.
Qed.

Lemma processed_insert m j v i :
  0 <= j < len m -> v <> none ->
  (processed (<[Z.to_nat j := v]> m) i <-> processed m i \/ i = j).
Proof.
  intros Hj Hv. rewrite !processed_get.
  destruct (Z.eq_dec i j) as [->|Hne].
  - rewrite get_insert_eq by assumption. split; [auto|]. intros _. eauto.
  - rewrite get_insert_ne by lia. split; [auto|]. intros [H|H]; [exact H|lia].
Qed.

Lemma neighbour_done_left m idx :
  0 <= idx < len m ->
  neighbour_done m (idx >? 0) (idx - 1) = Ok (processedb m (idx - 1)).
Proof.
  intros H. unfold neighbour_done, processedb.
  destruct (Z.gtb_spec idx 0).
  - destruct (get_in_range m (idx - 1)) as [v ->]; [lia|]. reflexivity.
  - replace idx with 0 by lia. reflexivity.
Qed.

Lemma neighbour_done_right m idx n :
  len m = n -> 0 <= idx < n ->
  neighbour_done m (idx <? n - 1) (idx + 1) = Ok (processedb m (idx + 1)).
Proof.
  intros Hn H. unfold neighbour_done, processedb.
  destruct (Z.ltb_spec idx (n - 1)).
  - destruct (get_in_range m (idx + 1)) as [v ->]; [lia|]. reflexivity.
  - rewrite get_out_of_range by lia. reflexivity.
Qed.

Lemma sweep_step_cases seq idx ps m :
  len m = len seq -> 0 <= idx < len seq ->
  sweep_step seq idx (ps, m) =
  match processedb m (idx - 1), processedb m (idx + 1) with
  | false, false => birth idx (ps, m)
  | true, false => do il <- get m (idx - 1); merge_left il idx (ps, m)
  | false, true => do ir <- get m (idx + 1); merge_right ir idx (ps, m)
  | true, true =>
      do il <- get m (idx - 1);
      do ir <- get m (idx + 1);
      merge_both seq il ir idx (ps, m)
  end.
Proof.
  intros Hm Hidx. unfold sweep_step. cbn [snd].
  rewrite neighbour_done_left by lia. cbn [bind].
  rewrite (neighbour_done_right m idx (len seq)) by lia. cbn [bind].
  destruct (processedb m (idx - 1)) eqn:EL, (processedb m (idx + 1)) eqn:ER;
    cbn [bind andb negb].
  - destruct (get m (idx - 1)); cbn [bind]; [|reflexivity..].
    destruct (get m (idx + 1)); cbn [bind]; reflexivity.
  - destruct (get m (idx - 1)); cbn [bind]; [|reflexivity..].
    destruct (merge_left _ _ _); reflexivity.
  - destruct (get m (idx + 1)); cbn [bind]; [|reflexivity..].
    destruct (merge_right _ _ _); reflexivity.
  - destruct (birth _ _); reflexivity.
Qed.

(** ** The sweep keeps its invariant *)

Section Invariant.
Variable n : Z.
Variables (ps : list Peak) (m : list Z).
Hypothesis Inv : sweep_inv n ps m.

Lemma owner_left idx :
  processed m (idx - 1) -> ~ processed m idx ->
  exists k p, get m (idx - 1) = Ok k /\ get ps k = Ok p /\ died p = none
              /\ right p = idx - 1.
Proof.
  intros HL Hidx.
  destruct (inv_cover _ _ _ Inv _ HL) as (k & p & Hk & Hd & Hr).
  destruct (inv_alive _ _ _ Inv k p Hk Hd) as (_ & _ & _ & Hm & Hall & _).
  assert (right p = idx - 1).
  { destruct (Z.eq_dec (right p) (idx - 1)); [assumption|].
    exfalso. apply Hidx, Hall. lia. }
  exists k, p. repeat split; [congruence|assumption..].
Qed.

Lemma owner_right idx :
  processed m (idx + 1) -> ~ processed m idx ->
  exists k p, get m (idx + 1) = Ok k /\ get ps k = Ok p /\ died p = none
              /\ left p = idx + 1.
Proof.
  intros HR Hidx.
  destruct (inv_cover _ _ _ Inv _ HR) as (k & p & Hk & Hd & Hr).
  destruct (inv_alive _ _ _ Inv k p Hk Hd) as (_ & _ & Hm & _ & Hall & _).
  assert (left p = idx + 1).
  { destruct (Z.eq_dec (left p) (idx + 1)); [assumption|].
    exfalso. apply Hidx, Hall. lia. }
  exists k, p. repeat split; [congruence|assumption..].
Qed.

Lemma alive_unique k1 p1 k2 p2 i :
  get ps k1 = Ok p1 -> died p1 = none -> left p1 <= i <= right p1 ->
  get ps k2 = Ok p2 -> died p2 = none -> left p2 <= i <= right p2 ->
  k1 = k2.
Proof.
  intros H1 D1 I1 H2 D2 I2.
  destruct (inv_alive _ _ _ Inv k1 p1 H1 D1) as (_ & _ & M1 & _ & A1 & N1 & _).
  destruct (inv_alive _ _ _ Inv k2 p2 H2 D2) as (_ & _ & M2 & _ & A2 & N2 & _).
  assert (left p1 = left p2).
  { destruct (Z.lt_trichotomy (left p1) (left p2)) as [Hlt|[Heq|Hgt]];
      [|assumption|].
    - exfalso. apply N2, A1. lia.
    - exfalso. apply N1, A2. lia. }
  congruence.
Qed.

Lemma alive_not_idx k p idx :
  get ps k = Ok p -> died p = none -> ~ processed m idx ->
  idx < left p \/ right p < idx.
Proof.
  intros Hk Hd Hidx.
  destruct (inv_alive _ _ _ Inv k p Hk Hd) as (_ & _ & _ & _ & Hall & _).
  destruct (Z.lt_ge_cases idx (left p)); [auto|].
  destruct (Z.lt_ge_cases (right p) idx); [auto|].
  exfalso. apply Hidx, Hall. lia.
Qed.

Lemma peak_index_range k p : get ps k = Ok p -> 0 <= k < len ps.
Proof. apply get_Ok_range. Qed.

End Invariant.

Lemma birth_inv n ps m idx :
  sweep_inv n ps m -> 0 <= idx < n ->
  ~ processed m idx -> ~ processed m (idx - 1) -> ~ processed m (idx + 1) ->
  exists ps' m',
    birth idx (ps, m) = Ok (ps', m')
    /\ sweep_inv n ps' m'
    /\ (forall i, processed m' i <-> processed m i \/ i = idx).
Proof.
  intros Inv Hidx Hn HL HR.
  pose proof (inv_len _ _ _ Inv) as Hlen.
  unfold birth. rewrite set_in_range by lia. cbn [bind].
  set (ps' := ps ++ [newPeak idx]).
  assert (Hk : len ps' - 1 = len ps) by (subst ps'; rewrite len_app; unfold len; cbn [length]; lia).
  rewrite Hk.
  assert (Hv : len ps <> none) by (unfold none, len; lia).
  pose proof (fun i => processed_insert m idx (len ps) i ltac:(lia) Hv) as Hproc.
  exists ps', (<[Z.to_nat idx := len ps]> m). split; [reflexivity|].
  split; [|exact Hproc].
  assert (Hget : forall k p, get ps' k = Ok p ->
            (get ps k = Ok p /\ k < len ps) \/ (k = len ps /\ p = newPeak idx)).
  { intros k p H. pose proof (get_Ok_range _ _ _ H) as Hr.
    unfold ps' in H.
    destruct (Z.eq_dec k (len ps)) as [->|Hne].
    - rewrite get_snoc in H. injection H as <-. auto.
    - rewrite get_app_l in H by lia. left. split; [assumption|lia]. }
  constructor.
  - rewrite len_insert. exact Hlen.
  - intros i v Hi Hne.
    destruct (Z.eq_dec i idx) as [->|Hd].
    + rewrite get_insert_eq in Hi by lia. injection Hi as <-. unfold len in *. lia.
    + rewrite get_insert_ne in Hi by lia.
      pose proof (inv_map _ _ _ Inv i v Hi Hne). lia.
  - intros k p H Hd. destruct (Hget k p H) as [[H' _]|[_ ->]].
    + eapply inv_dead; eassumption.
    + cbn in Hd. contradiction.
  - intros k p H Hd. destruct (Hget k p H) as [[H' Hlt]|[-> ->]].
    + destruct (inv_alive _ _ _ Inv k p H' Hd) as (B1 & B2 & M1 & M2 & A & N1 & N2).
      destruct (alive_not_idx _ _ _ Inv k p idx H' Hd Hn) as [Hlt'|Hgt'].
      * assert (idx <> left p - 1).
        { intros ->. apply HR. replace (left p - 1 + 1) with (left p) by lia.
          apply A. lia. }
        rewrite !get_insert_ne by lia.
        repeat split; try assumption; try lia.
        -- intros i Hi. apply Hproc. left. apply A, Hi.
        -- intros Hp. apply Hproc in Hp as [Hp|Hp]; [apply N1, Hp|lia].
        -- intros Hp. apply Hproc in Hp as [Hp|Hp]; [apply N2, Hp|lia].
      * assert (idx <> right p + 1).
        { intros ->. apply HL. replace (right p + 1 - 1) with (right p) by lia.
          apply A. lia. }
        rewrite !get_insert_ne by lia.
        repeat split; try assumption; try lia.
        -- intros i Hi. apply Hproc. left. apply A, Hi.
        -- intros Hp. apply Hproc in Hp as [Hp|Hp]; [apply N1, Hp|lia].
        -- intros Hp. apply Hproc in Hp as [Hp|Hp]; [apply N2, Hp|lia].
    + cbn [newPeak left right born]. rewrite get_insert_eq by lia.
      repeat split; try lia; try reflexivity.
      * intros i Hi. apply Hproc. right. lia.
      * intros Hp. apply Hproc in Hp as [Hp|Hp]; [apply HL, Hp|lia].
      * intros Hp. apply Hproc in Hp as [Hp|Hp]; [apply HR, Hp|lia].
  - intros i Hi. apply Hproc in Hi as [Hi| ->].
    + destruct (inv_cover _ _ _ Inv i Hi) as (k & p & H & Hd & Hr).
      exists k, p. split; [|auto].
      subst ps'. rewrite get_app_l; [assumption|].
      apply get_Ok_range in H. lia.
    + exists (len ps), (newPeak idx). split; [apply get_snoc|].
      cbn. split; [reflexivity|lia].
  - intros k p H. destruct (Hget k p H) as [[H' _]|[_ ->]].
    + eapply inv_born; eassumption.
    + cbn. lia.
Qed.

Lemma get_insert_cases {A : Type} (s : list A) k k' v x :
  0 <= k < len s ->
  get (<[Z.to_nat k := v]> s) k' = Ok x ->
  (k' = k /\ x = v) \/ (k' <> k /\ get s k' = Ok x).
Proof.
  intros Hk H. destruct (Z.eq_dec k' k) as [->|Hne].
  - rewrite get_insert_eq in H by assumption. injection H as <-. auto.
  - rewrite get_insert_ne in H by lia. auto.
Qed.

Lemma merge_left_inv n ps m idx :
  sweep_inv n ps m -> 0 <= idx < n ->
  ~ processed m idx -> processed m (idx - 1) -> ~ processed m (idx + 1) ->
  exists ps' m',
    (do il <- get m (idx - 1); merge_left il idx (ps, m)) = Ok (ps', m')
    /\ sweep_inv n ps' m'
    /\ (forall i, processed m' i <-> processed m i \/ i = idx).
Proof.
  intros Inv Hidx Hn HL HR.
  pose proof (inv_len _ _ _ Inv) as Hlen.
  destruct (owner_left _ _ _ Inv idx HL Hn) as (k & p & Hmk & Hk & Hd & Hright).
  pose proof (get_Ok_range _ _ _ Hk) as Hkr.
  destruct (inv_alive _ _ _ Inv k p Hk Hd) as (B1 & B2 & M1 & M2 & A & N1 & N2).
  rewrite Hmk. cbn [bind]. unfold merge_left. rewrite Hk. cbn [bind].
  rewrite set_in_range by assumption. cbn [bind].
  rewrite set_in_range by lia. cbn [bind].
  set (p' := set_right p (right p + 1)).
  assert (Hv : k <> none) by (unfold none; lia).
  pose proof (fun i => processed_insert m idx k i ltac:(lia) Hv) as Hproc.
  eexists _, _. split; [reflexivity|]. split; [|exact Hproc].
  constructor.
  - rewrite len_insert. exact Hlen.
  - intros i v Hi Hne. rewrite len_insert.
    destruct (Z.eq_dec i idx) as [->|Hdi].
    + rewrite get_insert_eq in Hi by lia. injection Hi as <-. lia.
    + rewrite get_insert_ne in Hi by lia. eapply inv_map; eassumption.
  - intros k' q H Hdq.
    destruct (get_insert_cases _ _ _ _ _ Hkr H) as [[-> ->]|[Hne H']].
    + cbn in Hdq. contradiction.
    + eapply inv_dead; eassumption.
  - intros k' q H Hdq.
    destruct (get_insert_cases _ _ _ _ _ Hkr H) as [[-> ->]|[Hne H']].
    + cbn [p' set_right left right born].
      rewrite get_insert_ne by lia.
      replace (right p + 1) with idx by lia.
      rewrite get_insert_eq by lia.
      repeat split; try assumption; try lia.
      * intros i Hi. apply Hproc.
        destruct (Z.eq_dec i idx); [auto|]. left. apply A. lia.
      * intros Hp. apply Hproc in Hp as [Hp|Hp]; [apply N1, Hp|lia].
      * intros Hp. apply Hproc in Hp as [Hp|Hp]; [apply HR, Hp|lia].
    + destruct (inv_alive _ _ _ Inv k' q H' Hdq) as (C1 & C2 & E1 & E2 & A' & F1 & F2).
      destruct (alive_not_idx _ _ _ Inv k' q idx H' Hdq Hn) as [Hlt'|Hgt'].
      * assert (idx <> left q - 1).
        { intros ->. apply HR. replace (left q - 1 + 1) with (left q) by lia.
          apply A'. lia. }
        rewrite !get_insert_ne by lia.
        repeat split; try assumption; try lia.
        -- intros i Hi. apply Hproc. left. apply A', Hi.
        -- intros Hp. apply Hproc in Hp as [Hp|Hp]; [apply F1, Hp|lia].
        -- intros Hp. apply Hproc in Hp as [Hp|Hp]; [apply F2, Hp|lia].
      * assert (idx <> right q + 1).
        { intros ->. apply Hne.
          apply (alive_unique _ _ _ Inv k' q k p (right q)); try assumption; lia. }
        rewrite !get_insert_ne by lia.
        repeat split; try assumption; try lia.
        -- intros i Hi. apply Hproc. left. apply A', Hi.
        -- intros Hp. apply Hproc in Hp as [Hp|Hp]; [apply F1, Hp|lia].
        -- intros Hp. apply Hproc in Hp as [Hp|Hp]; [apply F2, Hp|lia].
  - intros i Hi. apply Hproc in Hi as [Hi| ->].
    + destruct (inv_cover _ _ _ Inv i Hi) as (k' & q & H & Hdq & Hr).
      destruct (Z.eq_dec k' k) as [->|Hne].
      * exists k, p'. rewrite get_insert_eq by assumption.
        assert (q = p) by congruence. subst q.
        cbn [p' set_right left right died]. repeat split; [assumption|lia|lia].
      * exists k', q. rewrite get_insert_ne by lia. auto.
    + exists k, p'. rewrite get_insert_eq by assumption.
      cbn [p' set_right left right died]. repeat split; [assumption|lia|lia].
  - intros k' q H.
    destruct (get_insert_cases _ _ _ _ _ Hkr H) as [[-> ->]|[Hne H']].
    + cbn [p' set_right born]. lia.
    + eapply inv_born; eassumption.
Qed.

Lemma merge_right_inv n ps m idx :
  sweep_inv n ps m -> 0 <= idx < n ->
  ~ processed m idx -> ~ processed m (idx - 1) -> processed m (idx + 1) ->
  exists ps' m',
    (do ir <- get m (idx + 1); merge_right ir idx (ps, m)) = Ok (ps', m')
    /\ sweep_inv n ps' m'
    /\ (forall i, processed m' i <-> processed m i \/ i = idx).
Proof.
  intros Inv Hidx Hn HL HR.
  pose proof (inv_len _ _ _ Inv) as Hlen.
  destruct (owner_right _ _ _ Inv idx HR Hn) as (k & p & Hmk & Hk & Hd & Hleft).
  pose proof (get_Ok_range _ _ _ Hk) as Hkr.
  destruct (inv_alive _ _ _ Inv k p Hk Hd) as (B1 & B2 & M1 & M2 & A & N1 & N2).
  rewrite Hmk. cbn [bind]. unfold merge_right. rewrite Hk. cbn [bind].
  rewrite set_in_range by assumption. cbn [bind].
  rewrite set_in_range by lia. cbn [bind].
  set (p' := set_left p (left p - 1)).
  assert (Hv : k <> none) by (unfold none; lia).
  pose proof (fun i => processed_insert m idx k i ltac:(lia) Hv) as Hproc.
  eexists _, _. split; [reflexivity|]. split; [|exact Hproc].
  constructor.
  - rewrite len_insert. exact Hlen.
  - intros i v Hi Hne. rewrite len_insert.
    destruct (Z.eq_dec i idx) as [->|Hdi].
    + rewrite get_insert_eq in Hi by lia. injection Hi as <-. lia.
    + rewrite get_insert_ne in Hi by lia. eapply inv_map; eassumption.
  - intros k' q H Hdq.
    destruct (get_insert_cases _ _ _ _ _ Hkr H) as [[-> ->]|[Hne H']].
    + cbn in Hdq. contradiction.
    + eapply inv_dead; eassumption.
  - intros k' q H Hdq.
    destruct (get_insert_cases _ _ _ _ _ Hkr H) as [[-> ->]|[Hne H']].
    + cbn [p' set_left left right born].
      rewrite (get_insert_ne m idx (right p)) by lia.
      replace (left p - 1) with idx by lia.
      rewrite get_insert_eq by lia.
      repeat split; try assumption; try lia.
      * intros i Hi. apply Hproc.
        destruct (Z.eq_dec i idx); [auto|]. left. apply A. lia.
      * intros Hp. apply Hproc in Hp as [Hp|Hp]; [apply HL, Hp|lia].
      * intros Hp. apply Hproc in Hp as [Hp|Hp]; [apply N2, Hp|lia].
    + destruct (inv_alive _ _ _ Inv k' q H' Hdq) as (C1 & C2 & E1 & E2 & A' & F1 & F2).
      destruct (alive_not_idx _ _ _ Inv k' q idx H' Hdq Hn) as [Hlt'|Hgt'].
      * assert (idx <> left q - 1).
        { intros ->. apply Hne.
          apply (alive_unique _ _ _ Inv k' q k p (left q)); try assumption; lia. }
        rewrite !get_insert_ne by lia.
        repeat split; try assumption; try lia.
        -- intros i Hi. apply Hproc. left. apply A', Hi.
        -- intros Hp. apply Hproc in Hp as [Hp|Hp]; [apply F1, Hp|lia].
        -- intros Hp. apply Hproc in Hp as [Hp|Hp]; [apply F2, Hp|lia].
      * assert (idx <> right q + 1).
        { intros ->. apply HL. replace (right q + 1 - 1) with (right q) by lia.
          apply A'. lia. }
        rewrite !get_insert_ne by lia.
        repeat split; try assumption; try lia.
        -- intros i Hi. apply Hproc. left. apply A', Hi.
        -- intros Hp. apply Hproc in Hp as [Hp|Hp]; [apply F1, Hp|lia].
        -- intros Hp. apply Hproc in Hp as [Hp|Hp]; [apply F2, Hp|lia].
  - intros i Hi. apply Hproc in Hi as [Hi| ->].
    + destruct (inv_cover _ _ _ Inv i Hi) as (k' & q & H & Hdq & Hr).
      destruct (Z.eq_dec k' k) as [->|Hne].
      * exists k, p'. rewrite get_insert_eq by assumption.
        assert (q = p) by congruence. subst q.
        cbn [p' set_left left right died]. repeat split; [assumption|lia|lia].
      * exists k', q. rewrite get_insert_ne by lia. auto.
    + exists k, p'. rewrite get_insert_eq by assumption.
      cbn [p' set_left left right died]. repeat split; [assumption|lia|lia].
  - intros k' q H.
    destruct (get_insert_cases _ _ _ _ _ Hkr H) as [[-> ->]|[Hne H']].
    + cbn [p' set_left born]. lia.
    + eapply inv_born; eassumption.
Qed.

Lemma merge_both_gt seq ps m il ir idx pl pr bl br :
  get ps il = Ok pl -> get ps ir = Ok pr -> il <> ir ->
  get seq (born pl) = Ok bl -> get seq (born pr) = Ok br ->
  F64.gt bl br = true ->
  0 <= right pr < len m -> 0 <= idx < len m ->
  merge_both seq il ir idx (ps, m)
  = Ok (<[Z.to_nat il := set_right pl (right pr)]>
          (<[Z.to_nat ir := set_died pr idx]> ps),
        <[Z.to_nat idx := il]> (<[Z.to_nat (right pr) := il]> m)).
Proof.
  intros Hl Hr Hne Hbl Hbr Hgt Hrr Hidx.
  pose proof (get_Ok_range _ _ _ Hl) as Hlr.
  pose proof (get_Ok_range _ _ _ Hr) as Hrr'.
  unfold merge_both. rewrite Hl, Hr. cbn [bind]. rewrite Hbl, Hbr. cbn [bind].
  rewrite Hgt. rewrite set_in_range by assumption. cbn [bind].
  rewrite get_insert_ne by lia. rewrite Hl. cbn [bind].
  rewrite get_insert_eq by assumption. cbn [bind].
  rewrite set_in_range by (rewrite len_insert; assumption). cbn [bind].
  rewrite get_insert_eq by (rewrite len_insert; assumption). cbn [bind].
  cbn [set_right set_died right].
  rewrite set_in_range by assumption. cbn [bind].
  rewrite set_in_range by (rewrite len_insert; assumption). cbn [bind].
  reflexivity.
Qed.

Lemma merge_both_le seq ps m il ir idx pl pr bl br :
  get ps il = Ok pl -> get ps ir = Ok pr -> il <> ir ->
  get seq (born pl) = Ok bl -> get seq (born pr) = Ok br ->
  F64.gt bl br = false ->
  0 <= left pl < len m -> 0 <= idx < len m ->
  merge_both seq il ir idx (ps, m)
  = Ok (<[Z.to_nat ir := set_left pr (left pl)]>
          (<[Z.to_nat il := set_died pl idx]> ps),
        <[Z.to_nat idx := ir]> (<[Z.to_nat (left pl) := ir]> m)).
Proof.
  intros Hl Hr Hne Hbl Hbr Hgt Hrr Hidx.
  pose proof (get_Ok_range _ _ _ Hl) as Hlr.
  pose proof (get_Ok_range _ _ _ Hr) as Hrr'.
  unfold merge_both. rewrite Hl, Hr. cbn [bind]. rewrite Hbl, Hbr. cbn [bind].
  rewrite Hgt. rewrite set_in_range by assumption. cbn [bind].
  rewrite get_insert_ne by lia. rewrite Hr. cbn [bind].
  rewrite get_insert_eq by assumption. cbn [bind].
  rewrite set_in_range by (rewrite len_insert; assumption). cbn [bind].
  rewrite get_insert_eq by (rewrite len_insert; assumption). cbn [bind].
  cbn [set_left set_died left].
  rewrite set_in_range by assumption. cbn [bind].
  rewrite set_in_range by (rewrite len_insert; assumption). cbn [bind].
  reflexivity.
Qed.

(** The two peaks that meet at [idx]. *)
Lemma neighbours_differ n ps m idx :
  sweep_inv n ps m -> 0 <= idx < n ->
  ~ processed m idx -> processed m (idx - 1) -> processed m (idx + 1) ->
  exists il ir pl pr,
    get m (idx - 1) = Ok il /\ get m (idx + 1) = Ok ir
    /\ get ps il = Ok pl /\ get ps ir = Ok pr
    /\ died pl = none /\ died pr = none
    /\ right pl = idx - 1 /\ left pr = idx + 1
    /\ il <> ir /\ born pl < born pr.
Proof.
  intros Inv Hidx Hn HL HR.
  destruct (owner_left _ _ _ Inv idx HL Hn) as (il & pl & Hml & Hl & Hdl & Hrl).
  destruct (owner_right _ _ _ Inv idx HR Hn) as (ir & pr & Hmr & Hr & Hdr & Hlr).
  destruct (inv_alive _ _ _ Inv il pl Hl Hdl) as (B1 & B2 & _).
  destruct (inv_alive _ _ _ Inv ir pr Hr Hdr) as (C1 & C2 & _).
  exists il, ir, pl, pr. repeat split; try assumption; [|lia].
  intros ->. assert (pl = pr) by congruence. subst pr. lia.
Qed.

(** Two adjacent live peaks joined at [idx]: the winner [w] takes the union
    of the spans, the other peak [d] is marked dead. *)
Lemma absorb_inv n ps m idx kl kr pl pr w d pw pd ps' m' :
  sweep_inv n ps m -> 0 <= idx < n -> ~ processed m idx ->
  get ps kl = Ok pl -> died pl = none -> right pl = idx - 1 ->
  get ps kr = Ok pr -> died pr = none -> left pr = idx + 1 ->
  (w = kl /\ d = kr /\ left pl <= born pw <= right pl
   \/ w = kr /\ d = kl /\ left pr <= born pw <= right pr) ->
  died pw = none -> left pw = left pl -> right pw = right pr ->
  died pd = idx -> 0 <= born pd < n ->
  len ps' = len ps -> get ps' w = Ok pw -> get ps' d = Ok pd ->
  (forall k, k <> w -> k <> d -> get ps' k = get ps k) ->
  len m' = n ->
  get m' idx = Ok w -> get m' (left pl) = Ok w -> get m' (right pr) = Ok w ->
  (forall i, i <> idx -> i <> left pl -> i <> right pr -> get m' i = get m i) ->
  sweep_inv n ps' m' /\ (forall i, processed m' i <-> processed m i \/ i = idx).
Proof.
  intros Inv Hidx Hn Hl Hdl Hrl Hr Hdr Hlr Hwd Hdw Hlw Hrw Hdd Hbd
         Hlen' Hw Hd Hother Hmlen Hmidx Hmleft Hmright Hmother.
  destruct (inv_alive _ _ _ Inv kl pl Hl Hdl) as (B1 & B2 & ML1 & ML2 & AL & NL1 & NL2).
  destruct (inv_alive _ _ _ Inv kr pr Hr Hdr) as (C1 & C2 & MR1 & MR2 & AR & NR1 & NR2).
  assert (Hne : kl <> kr).
  { intros ->. assert (pl = pr) by congruence. subst pr. lia. }
  assert (Hwr : 0 <= w < len ps /\ w <> none /\ w <> d /\ (w = kl \/ w = kr)
                /\ (d = kl \/ d = kr)).
  { apply get_Ok_range in Hl, Hr. unfold none.
    destruct Hwd as [(-> & -> & _)|(-> & -> & _)]; repeat split; auto; lia. }
  destruct Hwr as (Hw1 & Hw2 & Hw3 & Hw4 & Hd4).
  assert (Hproc : forall i, processed m' i <-> processed m i \/ i = idx).
  { intros i. rewrite !processed_get.
    destruct (Z.eq_dec i idx) as [->|N1].
    { rewrite Hmidx. split; [auto|]. intros _. eauto. }
    destruct (Z.eq_dec i (left pl)) as [->|N2].
    { rewrite Hmleft, ML1. split; [|intros _; eauto]. intros _. left.
      exists kl. split; [reflexivity|]. apply get_Ok_range in Hl. unfold none. lia. }
    destruct (Z.eq_dec i (right pr)) as [->|N3].
    { rewrite Hmright, MR2. split; [|intros _; eauto]. intros _. left.
      exists kr. split; [reflexivity|]. apply get_Ok_range in Hr. unfold none. lia. }
    rewrite Hmother by assumption. split; [auto|]. intros [H|H]; [exact H|lia]. }
  split; [|exact Hproc].
  constructor.
  - exact Hmlen.
  - intros i v Hi Hv. rewrite Hlen'.
    destruct (Z.eq_dec i idx) as [->|N1]; [rewrite Hmidx in Hi; injection Hi as <-; lia|].
    destruct (Z.eq_dec i (left pl)) as [->|N2];
      [rewrite Hmleft in Hi; injection Hi as <-; lia|].
    destruct (Z.eq_dec i (right pr)) as [->|N3];
      [rewrite Hmright in Hi; injection Hi as <-; lia|].
    rewrite Hmother in Hi by assumption. eapply inv_map; eassumption.
  - intros k q H Hq.
    destruct (Z.eq_dec k w) as [->|N1]; [congruence|].
    destruct (Z.eq_dec k d) as [->|N2].
    + assert (q = pd) by congruence. subst q. lia.
    + rewrite Hother in H by assumption. eapply inv_dead; eassumption.
  - intros k q H Hq.
    destruct (Z.eq_dec k w) as [->|N1].
    { assert (q = pw) by congruence. subst q. rewrite Hlw, Hrw.
      assert (left pl <= born pw <= right pr)
        by (destruct Hwd as [(_ & _ & Hb)|(_ & _ & Hb)]; lia).
      repeat split; try assumption; try lia.
      - intros i Hi. apply Hproc.
        destruct (Z.eq_dec i idx); [auto|]. left.
        destruct (Z.lt_ge_cases i idx); [apply AL|apply AR]; lia.
      - intros Hp. apply Hproc in Hp as [Hp|Hp]; [apply NL1, Hp|lia].
      - intros Hp. apply Hproc in Hp as [Hp|Hp]; [apply NR2, Hp|lia]. }
    destruct (Z.eq_dec k d) as [->|N2].
    { assert (q = pd) by congruence. subst q. unfold none in Hq. lia. }
    rewrite Hother in H by assumption.
    assert (Nl : k <> kl) by (destruct Hw4, Hd4; congruence).
    assert (Nr : k <> kr) by (destruct Hw4, Hd4; congruence).
    destruct (inv_alive _ _ _ Inv k q H Hq) as (D1 & D2 & E1 & E2 & A' & F1 & F2).
    assert (Hdisj : forall i, left q <= i <= right q ->
              ~ (left pl <= i <= right pl) /\ ~ (left pr <= i <= right pr)).
    { intros i Hi. split; intros Hi'.
      - apply Nl. apply (alive_unique _ _ _ Inv k q kl pl i); assumption.
      - apply Nr. apply (alive_unique _ _ _ Inv k q kr pr i); assumption. }
    assert (Hfar : right q < left pl - 1 \/ right pr + 1 < left q).
    { destruct (alive_not_idx _ _ _ Inv k q idx H Hq Hn) as [Hlt|Hgt].
      - pose proof (Hdisj (left q) ltac:(lia)) as [_ X1]. right.
        destruct (Z.eq_dec (left q) (right pr + 1)) as [Heq|]; [|lia].
        exfalso. apply NR2. rewrite <- Heq. apply A'. lia.
      - pose proof (Hdisj (right q) ltac:(lia)) as [X2 _]. left.
        destruct (Z.eq_dec (right q) (left pl - 1)) as [Heq|]; [|lia].
        exfalso. apply NL1. rewrite <- Heq. apply A'. lia. }
    clear Hdisj Hwd Hw4 Hd4 Hother Hproc.
    assert (Hsame : forall i, left q - 1 <= i <= right q + 1 ->
              get m' i = get m i /\ (processed m' i <-> processed m i)).
    { intros i Hi. assert (Hg : get m' i = get m i) by (apply Hmother; lia).
      split; [assumption|]. rewrite !processed_get, Hg. reflexivity. }
    destruct (Hsame (left q) ltac:(lia)) as [-> _].
    destruct (Hsame (right q) ltac:(lia)) as [-> _].
    split; [lia|]. split; [lia|]. split; [exact E1|]. split; [exact E2|].
    split; [|split].
    + intros i Hi. apply (Hsame i ltac:(lia)), A', Hi.
    + intros Hp. apply F1. apply (Hsame (left q - 1) ltac:(lia)), Hp.
    + intros Hp. apply F2. apply (Hsame (right q + 1) ltac:(lia)), Hp.
  - intros i Hi. apply Hproc in Hi as [Hi| ->].
    + destruct (inv_cover _ _ _ Inv i Hi) as (k & q & H & Hq & Hrange).
      destruct (Z.eq_dec k kl) as [->|Nl].
      { assert (q = pl) by congruence. subst q.
        exists w, pw. repeat split; [assumption..|lia|lia]. }
      destruct (Z.eq_dec k kr) as [->|Nr].
      { assert (q = pr) by congruence. subst q.
        exists w, pw. repeat split; [assumption..|lia|lia]. }
      exists k, q. rewrite Hother by (destruct Hw4, Hd4; congruence). auto.
    + exists w, pw. repeat split; [assumption..|lia|lia].
  - intros k q H.
    destruct (Z.eq_dec k w) as [->|N1].
    { assert (q = pw) by congruence. subst q.
      destruct Hwd as [(_ & _ & Hb)|(_ & _ & Hb)]; lia. }
    destruct (Z.eq_dec k d) as [->|N2].
    { assert (q = pd) by congruence. subst q. exact Hbd. }
    rewrite Hother in H by assumption. eapply inv_born; eassumption.
Qed.

Lemma merge_both_inv seq ps m idx :
  sweep_inv (len seq) ps m -> 0 <= idx < len seq ->
  ~ processed m idx -> processed m (idx - 1) -> processed m (idx + 1) ->
  exists ps' m',
    (do il <- get m (idx - 1);
     do ir <- get m (idx + 1);
     merge_both seq il ir idx (ps, m)) = Ok (ps', m')
    /\ sweep_inv (len seq) ps' m'
    /\ (forall i, processed m' i <-> processed m i \/ i = idx).
Proof.
  intros Inv Hidx Hn HL HR.
  pose proof (inv_len _ _ _ Inv) as Hlen.
  destruct (neighbours_differ _ _ _ _ Inv Hidx Hn HL HR)
    as (il & ir & pl & pr & Hml & Hmr & Hl & Hr & Hdl & Hdr & Hrl & Hlr & Hne & Hborn).
  destruct (inv_alive _ _ _ Inv il pl Hl Hdl) as (B1 & B2 & ML1 & ML2 & AL & NL1 & NL2).
  destruct (inv_alive _ _ _ Inv ir pr Hr Hdr) as (C1 & C2 & MR1 & MR2 & AR & NR1 & NR2).
  pose proof (get_Ok_range _ _ _ Hl) as Hilr.
  pose proof (get_Ok_range _ _ _ Hr) as Hirr.
  destruct (get_in_range seq (born pl)) as [bl Hbl]; [lia|].
  destruct (get_in_range seq (born pr)) as [br Hbr]; [lia|].
  rewrite Hml, Hmr. cbn [bind].
  destruct (F64.gt bl br) eqn:Hgt.
  - rewrite (merge_both_gt seq ps m il ir idx pl pr bl br) by (assumption || lia).
    eexists _, _. split; [reflexivity|].
    apply (absorb_inv _ ps m idx il ir pl pr il ir
             (set_right pl (right pr)) (set_died pr idx));
      try assumption; try reflexivity.
    + left. cbn [born set_right]. repeat split; lia.
    + cbn [born set_died]. lia.
    + rewrite !len_insert. reflexivity.
    + apply get_insert_eq. rewrite len_insert. assumption.
    + rewrite get_insert_ne by lia. apply get_insert_eq. assumption.
    + intros k N1 N2. rewrite !get_insert_ne by lia. reflexivity.
    + rewrite !len_insert. assumption.
    + apply get_insert_eq. rewrite len_insert. lia.
    + rewrite !get_insert_ne by lia. assumption.
    + rewrite get_insert_ne by lia. apply get_insert_eq. lia.
    + intros i N1 N2 N3. rewrite !get_insert_ne by lia. reflexivity.
  - rewrite (merge_both_le seq ps m il ir idx pl pr bl br) by (assumption || lia).
    eexists _, _. split; [reflexivity|].
    apply (absorb_inv _ ps m idx il ir pl pr ir il
             (set_left pr (left pl)) (set_died pl idx));
      try assumption; try reflexivity.
    + right. cbn [born set_left]. repeat split; lia.
    + cbn [born set_died]. lia.
    + rewrite !len_insert. reflexivity.
    + apply get_insert_eq. rewrite len_insert. assumption.
    + rewrite get_insert_ne by lia. apply get_insert_eq. assumption.
    + intros k N1 N2. rewrite !get_insert_ne by lia. reflexivity.
    + rewrite !len_insert. assumption.
    + apply get_insert_eq. rewrite len_insert. lia.
    + rewrite get_insert_ne by lia. apply get_insert_eq. lia.
    + rewrite !get_insert_ne by lia. assumption.
    + intros i N1 N2 N3. rewrite !get_insert_ne by lia. reflexivity.
Qed.

Lemma sweep_step_inv seq ps m idx :
  sweep_inv (len seq) ps m -> 0 <= idx < len seq -> ~ processed m idx ->
  exists ps' m',
    sweep_step seq idx (ps, m) = Ok (ps', m')
    /\ sweep_inv (len seq) ps' m'
    /\ (forall i, processed m' i <-> processed m i \/ i = idx).
Proof.
  intros Inv Hidx Hn.
  rewrite sweep_step_cases by (rewrite ?(inv_len _ _ _ Inv); lia).
  destruct (processedb m (idx - 1)) eqn:EL, (processedb m (idx + 1)) eqn:ER.
  - apply merge_both_inv; assumption.
  - apply merge_left_inv; try assumption. unfold processed. congruence.
  - apply merge_right_inv; try assumption. unfold processed. congruence.
  - apply birth_inv; try assumption; unfold processed; congruence.
Qed.

Lemma sweep_loop_inv seq :
  forall l i0 ps m,
    sweep_inv (len seq) ps m -> NoDup l ->
    (forall i, i ∈ l -> 0 <= i < len seq /\ ~ processed m i) ->
    exists ps' m',
      range_loop i0 l (fun _ idx s => sweep_step seq idx s) (ps, m) = Ok (ps', m')
      /\ sweep_inv (len seq) ps' m'
      /\ (forall i, processed m' i <-> processed m i \/ i ∈ l).
Proof.
  induction l as [|idx l IH]; intros i0 ps m Inv Hnd Hl.
  - exists ps, m. split; [reflexivity|]. split; [assumption|].
    intros i. rewrite elem_of_nil. tauto.
  - apply NoDup_cons in Hnd as [Hnotin Hnd].
    destruct (Hl idx ltac:(left)) as [Hr Hn].
    destruct (sweep_step_inv seq ps m idx Inv Hr Hn) as (ps1 & m1 & E1 & Inv1 & P1).
    cbn [range_loop]. rewrite E1. cbn [bind].
    destruct (IH (i0 + 1) ps1 m1 Inv1 Hnd) as (ps2 & m2 & E2 & Inv2 & P2).
    { intros i Hi. destruct (Hl i ltac:(right; exact Hi)) as [Hir Hin].
      split; [assumption|]. intros Hp. apply P1 in Hp as [Hp| ->]; [auto|].
      apply Hnotin, Hi. }
    exists ps2, m2. split; [assumption|]. split; [assumption|].
    intros i. rewrite P2, P1, elem_of_cons. tauto.
Qed.

(** ** Sorting *)

Lemma insert_stable_perm {A : Type} (less : A -> A -> bool) x l :
  insert_stable less x l ≡ₚ x :: l.
Proof.
  induction l as [|y l IH]; [reflexivity|].
  cbn [insert_stable]. destruct (less x y); [reflexivity|].
  rewrite IH. apply perm_swap.
Qed.

Lemma SliceStable_perm {A : Type} (less : A -> A -> bool) l :
  SliceStable less l ≡ₚ l.
Proof.
  unfold SliceStable.
  assert (H : forall acc, fold_left (fun acc x => insert_stable less x acc) l acc
                          ≡ₚ l ++ acc).
  { induction l as [|x l IH]; intros acc; [reflexivity|].
    cbn [fold_left]. rewrite IH, insert_stable_perm.
    cbn [app]. symmetry. apply Permutation_middle. }
  rewrite H, app_nil_r. reflexivity.
Qed.

Lemma sorted_indices_perm seq : sorted_indices seq ≡ₚ Range (len seq).
Proof. apply SliceStable_perm. Qed.

Lemma sorted_indices_NoDup seq : NoDup (sorted_indices seq).
Proof. rewrite sorted_indices_perm. apply NoDup_seqZ. Qed.

Lemma elem_of_sorted_indices seq i :
  i ∈ sorted_indices seq <-> 0 <= i < len seq.
Proof.
  rewrite sorted_indices_perm. unfold Range. rewrite elem_of_seqZ. lia.
Qed.

(** ** The whole sweep *)

Lemma get_replicate_none n i v : get (replicate n none) i = Ok v -> v = none.
Proof.
  intros H. apply get_Ok_lookup in H as [_ H].
  apply lookup_replicate in H as [-> _]. reflexivity.
Qed.

Lemma not_processed_initially n i : ~ processed (replicate n none) i.
Proof.
  intros H. apply processed_get in H as (v & H & Hv).
  apply get_replicate_none in H. contradiction.
Qed.

Lemma sweep_inv_initial (seq : list float64) :
  sweep_inv (len seq) [] (replicate (length seq) none).
Proof.
  constructor.
  - unfold len. rewrite length_replicate. reflexivity.
  - intros i v H Hv. apply get_replicate_none in H. contradiction.
  - intros k p H. apply get_Ok_range in H. unfold len in H. cbn in H. lia.
  - intros k p H. apply get_Ok_range in H. unfold len in H. cbn in H. lia.
  - intros i H. exfalso. eapply not_processed_initially, H.
  - intros k p H. apply get_Ok_range in H. unfold len in H. cbn in H. lia.
Qed.

Lemma sweep_complete seq :
  exists ps m,
    sweep seq (sorted_indices seq) ([], replicate (length seq) none) = Ok (ps, m)
    /\ sweep_inv (len seq) ps m
    /\ (forall i, 0 <= i < len seq -> processed m i).
Proof.
  destruct (sweep_loop_inv seq (sorted_indices seq) 0 [] (replicate (length seq) none))
    as (ps & m & E & Inv & P).
  - apply sweep_inv_initial.
  - apply sorted_indices_NoDup.
  - intros i Hi. split; [apply elem_of_sorted_indices, Hi|].
    apply not_processed_initially.
  - exists ps, m. split; [exact E|]. split; [exact Inv|].
    intros i Hi. apply P. right. apply elem_of_sorted_indices, Hi.
Qed.


Lemma filter_none {A : Type} (P : A -> Prop) `{forall x, Decision (P x)} (l : list A) :
  (forall x, x ∈ l -> ~ P x) -> filter P l = [].
Proof.
  induction l as [|y l IH]; intros Hl; [reflexivity|].
  rewrite filter_cons_False by (apply Hl; left).
  apply IH. intros x Hx. apply Hl. right. exact Hx.
Qed.

Lemma filter_one {A : Type} (P : A -> Prop) `{forall x, Decision (P x)} (l : list A) :
  (exists k x, l !! k = Some x /\ P x
     /\ forall k' x', l !! k' = Some x' -> P x' -> k' = k) ->
  length (filter P l) = 1%nat.
Proof.
  induction l as [|y l IH]; intros (k & x & Hk & Hx & Huniq).
  - rewrite lookup_nil in Hk. discriminate.
  - destruct k as [|k].
    + cbn in Hk. injection Hk as ->.
      rewrite filter_cons_True by assumption. cbn [length]. f_equal.
      rewrite (filter_none P l); [reflexivity|].
      intros z Hz Pz.
      apply list_elem_of_lookup in Hz as [j Hj].
      specialize (Huniq (S j) z Hj Pz). discriminate.
    + rewrite filter_cons_False.
      * apply IH. exists k, x. split; [exact Hk|]. split; [exact Hx|].
        intros k' x' Hk' Px'. specialize (Huniq (S k') x' Hk' Px'). lia.
      * intros Py. specialize (Huniq 0%nat y eq_refl Py). discriminate.
Qed.

Lemma sweep_one_survivor (seq : list float64) ps m :
  seq <> [] ->
  sweep_inv (len seq) ps m ->
  (forall i, 0 <= i < len seq -> processed m i) ->
  length (filter is_alive ps) = 1%nat
  /\ Forall (fun p => died p = none \/ 0 <= died p < len seq) ps.
Proof.
  intros Hne Inv Hall.
  assert (Hn : 0 < len seq) by (destruct seq; [congruence|unfold len; cbn; lia]).
  split.
  - apply filter_one.
    destruct (inv_cover _ _ _ Inv 0 (Hall 0 ltac:(lia))) as (k & p & Hk & Hd & _).
    assert (Hleft : forall k' p', get ps k' = Ok p' -> died p' = none -> left p' = 0).
    { intros k' p' Hk' Hd'.
      destruct (inv_alive _ _ _ Inv k' p' Hk' Hd') as (B1 & B2 & _ & _ & _ & N1 & _).
      destruct (Z.eq_dec (left p') 0); [assumption|].
      exfalso. apply N1, Hall. lia. }
    exists (Z.to_nat k), p.
    apply get_Ok_lookup in Hk as Hk'. destruct Hk' as [Hk0 Hk'].
    split; [exact Hk'|]. split; [exact Hd|].
    intros k' p' Hk'' Hd'.
    assert (Hg : get ps (Z.of_nat k') = Ok p')
      by (apply get_Ok_lookup; rewrite Nat2Z.id; split; [lia|assumption]).
    destruct (inv_alive _ _ _ Inv k p Hk Hd) as (_ & _ & M1 & _).
    destruct (inv_alive _ _ _ Inv _ p' Hg Hd') as (_ & _ & M2 & _).
    rewrite (Hleft _ _ Hk Hd) in M1. rewrite (Hleft _ _ Hg Hd') in M2.
    assert (k = Z.of_nat k') by congruence. lia.
  - apply Forall_forall. intros p Hp.
    apply list_elem_of_lookup in Hp as [k Hk].
    destruct (Z.eq_dec (died p) none) as [Hd|Hd]; [auto|]. right.
    apply (inv_dead _ _ _ Inv (Z.of_nat k) p); [|assumption].
    apply get_Ok_lookup. rewrite Nat2Z.id. split; [lia|assumption].
Qed.

(** C10.  For every non-empty sequence, [GetPeaks] returns, and exactly
    one of the peaks it returns has [died] equal to the sentinel [none];
    the [died] field of every other peak is an index of the sequence. *)
Theorem GetPeaks_one_survivor seq :
  seq <> [] ->
  exists pks,
    GetPeaks seq = Ok pks
    /\ length (filter (fun p => died p = none) (peaks pks)) = 1%nat
    /\ Forall (fun p => died p = none \/ 0 <= died p < len seq) (peaks pks).
Proof.
  intros Hne. unfold GetPeaks.
  destruct (sweep_complete seq) as (ps & m & E & Inv & Hall).
  rewrite E. cbn [bind].
  destruct (sweep_one_survivor seq ps m Hne Inv Hall) as [H1 H2].
  eexists. split; [reflexivity|]. cbn [peaks].
  split.
  - rewrite SliceStable_perm. exact H1.
  - rewrite SliceStable_perm. exact H2.
Qed.

Lemma GetPeaks_one_survivor_witness :
  sample_seq <> []
  /\ exists pks,
      GetPeaks sample_seq = Ok pks
      /\ length (filter (fun p => died p = none) (peaks pks)) = 1%nat
      /\ Forall (fun p => died p = none \/ 0 <= died p < len sample_seq) (peaks pks).
Proof.
  split; [discriminate|].
  apply (GetPeaks_one_survivor sample_seq). discriminate.
Defined.

(** ** Merging two peaks *)

Lemma sweep_prefix seq pre idx post :
  sorted_indices seq = pre ++ idx :: post ->
  exists ps m,
    sweep seq pre ([], replicate (length seq) none) = Ok (ps, m)
    /\ sweep_inv (len seq) ps m
    /\ (forall i, processed m i <-> i ∈ pre)
    /\ 0 <= idx < len seq /\ idx ∉ pre.
Proof.
  intros Hs.
  pose proof (sorted_indices_NoDup seq) as Hnd. rewrite Hs in Hnd.
  apply NoDup_app in Hnd as (Hnd & Hdisj & _).
  assert (Hin : forall i, i ∈ pre ++ idx :: post -> 0 <= i < len seq).
  { intros i Hi. rewrite <- Hs in Hi. apply elem_of_sorted_indices, Hi. }
  destruct (sweep_loop_inv seq pre 0 [] (replicate (length seq) none))
    as (ps & m & E & Inv & P).
  - apply sweep_inv_initial.
  - exact Hnd.
  - intros i Hi. split; [apply Hin, elem_of_app; auto|].
    apply not_processed_initially.
  - exists ps, m. split; [exact E|]. split; [exact Inv|]. split.
    + intros i. rewrite P. split; [|auto].
      intros [H|H]; [|exact H]. exfalso. eapply not_processed_initially, H.
    + split; [apply Hin, elem_of_app; right; left|].
      intros Hi. apply (Hdisj idx Hi). left.
Qed.

(** C4.  At any point of the sweep of [GetPeaks], when both neighbours of
    the index [idx] being processed are assigned, they belong to two
    different live peaks [pl] (left, smaller born index, its span ending
    at [idx - 1]) and [pr] (right, its span starting at [idx + 1]).  If
    the birth value of [pl] is strictly greater, [pl] takes [pr]'s right
    end and [pr] dies at [idx]; if the birth value of [pr] is strictly
    greater, or the two are equal, [pr] takes [pl]'s left end and [pl]
    dies at [idx].  The two peaks after the step are given field by
    field: the survivor keeps its [born], stays alive ([died] is [none])
    and has the span from [left pl] to [right pr], which covers the span
    of the absorbed peak; the absorbed peak keeps [born], [left] and
    [right], and its [died] is [idx]. *)
Theorem merge_dominance seq pre idx post ps m :
  sorted_indices seq = pre ++ idx :: post ->
  sweep seq pre ([], replicate (length seq) none) = Ok (ps, m) ->
  processed m (idx - 1) -> processed m (idx + 1) ->
  exists il ir pl pr bl br ps' m',
    get m (idx - 1) = Ok il /\ get m (idx + 1) = Ok ir
    /\ get ps il = Ok pl /\ get ps ir = Ok pr
    /\ il <> ir /\ born pl < born pr
    /\ died pl = none /\ died pr = none
    /\ left pl <= right pl /\ right pl = idx - 1
    /\ left pr = idx + 1 /\ left pr <= right pr
    /\ get seq (born pl) = Ok bl /\ get seq (born pr) = Ok br
    /\ sweep_step seq idx (ps, m) = Ok (ps', m')
    /\ match SFcompare bl br with
       | Some Gt =>
           get ps' il
           = Ok {| born := born pl; died := none;
                   left := left pl; right := right pr |}
           /\ get ps' ir
             = Ok {| born := born pr; died := idx;
                     left := left pr; right := right pr |}
           /\ left pl <= left pr
       | _ =>
           get ps' ir
           = Ok {| born := born pr; died := none;
                   left := left pl; right := right pr |}
           /\ get ps' il
             = Ok {| born := born pl; died := idx;
                     left := left pl; right := right pl |}
           /\ right pl <= right pr
       end.
Proof.
  intros Hs E HL HR.
  destruct (sweep_prefix seq pre idx post Hs) as (ps0 & m0 & E0 & Inv & P & Hidx & Hnin).
  rewrite E in E0. injection E0 as <- <-.
  assert (Hn : ~ processed m idx) by (rewrite P; exact Hnin).
  pose proof (inv_len _ _ _ Inv) as Hlen.
  destruct (neighbours_differ _ _ _ _ Inv Hidx Hn HL HR)
    as (il & ir & pl & pr & Hml & Hmr & Hl & Hr & Hdl & Hdr & Hrl & Hlr & Hne & Hborn).
  destruct (inv_alive _ _ _ Inv il pl Hl Hdl) as (B1 & B2 & _).
  destruct (inv_alive _ _ _ Inv ir pr Hr Hdr) as (C1 & C2 & _).
  pose proof (get_Ok_range _ _ _ Hl) as Hilr.
  pose proof (get_Ok_range _ _ _ Hr) as Hirr.
  destruct (get_in_range seq (born pl)) as [bl Hbl]; [lia|].
  destruct (get_in_range seq (born pr)) as [br Hbr]; [lia|].
  assert (Hwl : set_right pl (right pr)
                = {| born := born pl; died := none;
                     left := left pl; right := right pr |})
    by (unfold set_right; rewrite Hdl; reflexivity).
  assert (Hwr : set_left pr (left pl)
                = {| born := born pr; died := none;
                     left := left pl; right := right pr |})
    by (unfold set_left; rewrite Hdr; reflexivity).
  exists il, ir, pl, pr, bl, br.
  rewrite sweep_step_cases by lia.
  unfold processed in HL, HR. rewrite HL, HR, Hml, Hmr. cbn [bind].
  destruct (F64.gt bl br) eqn:Hgt.
  - rewrite (merge_both_gt seq ps m il ir idx pl pr bl br) by (assumption || lia).
    apply gt_compare in Hgt. rewrite Hgt.
    eexists _, _.
    repeat (split; [first [eassumption|reflexivity|lia]|]).
    split; [|split; [|lia]].
    + rewrite <- Hwl. apply get_insert_eq. rewrite len_insert. assumption.
    + rewrite get_insert_ne by lia. apply get_insert_eq. assumption.
  - rewrite (merge_both_le seq ps m il ir idx pl pr bl br) by (assumption || lia).
    assert (Hc : SFcompare bl br <> Some Gt)
      by (intros Hc; apply gt_compare in Hc; congruence).
    assert (Hres :
      get (<[Z.to_nat ir:=set_left pr (left pl)]> (<[Z.to_nat il:=set_died pl idx]> ps)) ir
        = Ok {| born := born pr; died := none;
                left := left pl; right := right pr |}
      /\ get (<[Z.to_nat ir:=set_left pr (left pl)]> (<[Z.to_nat il:=set_died pl idx]> ps)) il
        = Ok {| born := born pl; died := idx;
                left := left pl; right := right pl |}
      /\ right pl <= right pr).
    { split; [rewrite <- Hwr; apply get_insert_eq; rewrite len_insert; assumption|].
      split; [rewrite get_insert_ne by lia; apply get_insert_eq; assumption|lia]. }
    eexists _, _. repeat (split; [first [eassumption|reflexivity|lia]|]).
    destruct (SFcompare bl br) as [[ | | ]|]; [exact Hres..|congruence|exact Hres].
Qed.

Lemma merge_dominance_witness :
  sorted_indices sample_seq = [3; 5; 1] ++ 2 :: [4; 0; 6]
  /\ sweep sample_seq [3; 5; 1] ([], replicate (length sample_seq) none)
     = Ok (sample_peaks, sample_map)
  /\ processed sample_map (2 - 1) /\ processed sample_map (2 + 1)
  /\ exists il ir pl pr bl br ps' m',
      get sample_map (2 - 1) = Ok il /\ get sample_map (2 + 1) = Ok ir
      /\ get sample_peaks il = Ok pl /\ get sample_peaks ir = Ok pr
      /\ il <> ir /\ born pl < born pr
      /\ died pl = none /\ died pr = none
      /\ left pl <= right pl /\ right pl = 2 - 1
      /\ left pr = 2 + 1 /\ left pr <= right pr
      /\ get sample_seq (born pl) = Ok bl /\ get sample_seq (born pr) = Ok br
      /\ sweep_step sample_seq 2 (sample_peaks, sample_map) = Ok (ps', m')
      /\ match SFcompare bl br with
         | Some Gt =>
             get ps' il
             = Ok {| born := born pl; died := none;
                     left := left pl; right := right pr |}
             /\ get ps' ir
               = Ok {| born := born pr; died := 2;
                       left := left pr; right := right pr |}
             /\ left pl <= left pr
         | _ =>
             get ps' ir
             = Ok {| born := born pr; died := none;
                     left := left pl; right := right pr |}
             /\ get ps' il
               = Ok {| born := born pl; died := 2;
                       left := left pl; right := right pl |}
             /\ right pl <= right pr
         end.
Proof.
  split; [reflexivity|]. split; [reflexivity|].
  split; [reflexivity|]. split; [reflexivity|].
  apply (merge_dominance sample_seq [3; 5; 1] 2 [4; 0; 6] sample_peaks sample_map);
    reflexivity.
Defined.

(** ** A single hump *)


Section StableSort.
Context {A : Type} (less : A -> A -> bool).
Hypothesis less_trans :
  forall a b c, less a b = true -> less b c = true -> less a c = true.
Hypothesis less_asym : forall a b, less a b = true -> less b a = false.

Let R (a b : A) : Prop := less b a = false.

Lemma insert_stable_sorted x l :
  StronglySorted R l -> StronglySorted R (insert_stable less x l).
Proof.
  induction l as [|y l IH]; intros Hs.
  - cbn. repeat constructor.
  - apply StronglySorted_cons in Hs as [Hy Hl].
    cbn [insert_stable]. destruct (less x y) eqn:Hxy.
    + apply StronglySorted_cons. split.
      * constructor; [apply less_asym, Hxy|].
        rewrite Forall_forall in Hy |- *. intros z Hz.
        specialize (Hy z Hz). unfold R in *.
        destruct (less z x) eqn:Hzx; [|reflexivity].
        rewrite (less_trans z x y Hzx Hxy) in Hy. discriminate.
      * apply StronglySorted_cons. auto.
    + apply StronglySorted_cons. split; [|apply IH, Hl].
      rewrite insert_stable_perm. constructor; [exact Hxy|exact Hy].
Qed.

Lemma SliceStable_sorted l : StronglySorted R (SliceStable less l).
Proof.
  unfold SliceStable.
  assert (H : forall acc, StronglySorted R acc ->
            StronglySorted R (fold_left (fun acc x => insert_stable less x acc) l acc)).
  { induction l as [|x l IH]; intros acc Hacc; [exact Hacc|].
    cbn [fold_left]. apply IH, insert_stable_sorted, Hacc. }
  apply H. constructor.
Qed.

End StableSort.

Lemma sorted_indices_later seq pre a post b :
  sorted_indices seq = pre ++ a :: post -> b ∈ post ->
  F64.gt (value_at seq b) (value_at seq a) = false.
Proof.
  intros Hs Hb.
  pose proof (SliceStable_sorted
                (fun a b => F64.gt (value_at seq a) (value_at seq b))
                ltac:(intros x y z; apply gt_trans)
                ltac:(intros x y; apply gt_asym)
                (Range (len seq))) as Hsorted.
  fold (sorted_indices seq) in Hsorted. rewrite Hs in Hsorted.
  apply StronglySorted_app in Hsorted as (_ & _ & Hsorted).
  apply StronglySorted_cons in Hsorted as [Hall _].
  rewrite Forall_forall in Hall. apply (Hall b Hb).
Qed.

Lemma range_loop_snoc {A T : Type} (body : Z -> A -> T -> result T) :
  forall (l : list A) (a : A) i0 (s : T),
    range_loop i0 (l ++ [a]) body s
    = do s' <- range_loop i0 l body s; body (i0 + len l) a s'.
Proof.
  induction l as [|x l IH]; intros a i0 s.
  - cbn. rewrite Z.add_0_r. destruct (body i0 a s); reflexivity.
  - cbn [app range_loop]. destruct (body i0 x s) as [s1| |]; cbn [bind];
      [|reflexivity..].
    rewrite IH. replace (i0 + 1 + len l) with (i0 + len (x :: l))
      by (unfold len; cbn [length]; lia).
    reflexivity.
Qed.

Lemma sweep_snoc seq pre a s :
  sweep seq (pre ++ [a]) s = do s' <- sweep seq pre s; sweep_step seq a s'.
Proof. unfold sweep. apply range_loop_snoc. Qed.

Section Hump.
Variables (seq : list float64) (mx : Z).
Hypothesis Hhump : single_hump seq mx.

Lemma hump_neighbour_order pre a post l r :
  sorted_indices seq = pre ++ a :: post ->
  (forall i, i ∈ pre -> l <= i <= r) ->
  (a < mx -> a + 1 < l \/ pre = [] -> False)
  /\ (mx < a -> r < a - 1 \/ pre = [] -> False).
Proof.
  intros Hs Hpre. destruct Hhump as (Hmx & Hup & Hdown).
  assert (Ha : 0 <= a < len seq).
  { apply elem_of_sorted_indices. rewrite Hs, elem_of_app, elem_of_cons. auto. }
  assert (Hpost : forall b, 0 <= b < len seq -> b <> a -> b ∉ pre -> b ∈ post).
  { intros b Hb Hne Hnin. apply elem_of_sorted_indices in Hb.
    rewrite Hs, elem_of_app, elem_of_cons in Hb.
    destruct Hb as [Hb|[Hb|Hb]]; [contradiction|contradiction|exact Hb]. }
  split.
  - intros Hlt Hgap.
    assert (Hin : a + 1 ∈ post).
    { apply Hpost; [lia|lia|]. intros Hin.
      destruct Hgap as [Hgap| ->]; [apply Hpre in Hin; lia|].
      apply elem_of_nil in Hin. exact Hin. }
    pose proof (sorted_indices_later seq pre a post (a + 1) Hs Hin) as Hle.
    pose proof (Hup a ltac:(lia)) as Hlt'.
    unfold F64.gt in Hle. unfold F64.lt in Hlt'. congruence.
  - intros Hgt Hgap.
    assert (Hin : a - 1 ∈ post).
    { apply Hpost; [lia|lia|]. intros Hin.
      destruct Hgap as [Hgap| ->]; [apply Hpre in Hin; lia|].
      apply elem_of_nil in Hin. exact Hin. }
    pose proof (sorted_indices_later seq pre a post (a - 1) Hs Hin) as Hle.
    pose proof (Hdown (a - 1) ltac:(lia)) as Hgt'.
    replace (a - 1 + 1) with a in Hgt' by lia. congruence.
Qed.

Lemma hump_birth :
  exists m,
    sweep_step seq mx ([], replicate (length seq) none)
    = Ok ([mkPeak mx none mx mx], m)
    /\ hump_map (len seq) mx mx m.
Proof.
  destruct Hhump as (Hmx & _).
  assert (Hlen : len (replicate (length seq) none) = len seq)
    by (unfold len; rewrite length_replicate; reflexivity).
  rewrite sweep_step_cases by lia.
  assert (Hnp : forall i, processedb (replicate (length seq) none) i = false).
  { intros i. destruct (processedb _ i) eqn:E; [|reflexivity].
    exfalso. eapply not_processed_initially, E. }
  rewrite !Hnp. unfold birth. cbn [app].
  rewrite set_in_range by lia. cbn [bind].
  eexists. split; [reflexivity|]. split; [rewrite len_insert; exact Hlen|].
  intros i Hi. destruct (Z.eq_dec i mx) as [->|Hne].
  - rewrite get_insert_eq by lia.
    rewrite !Z.leb_refl. reflexivity.
  - rewrite get_insert_ne by lia.
    replace ((mx <=? i) && (i <=? mx)) with false by lia.
    apply not_processed_get; [apply not_processed_initially|lia].
Qed.

Lemma hump_map_processedb n l r m i :
  hump_map n l r m ->
  processedb m i = (0 <=? i) && (i <? n) && (l <=? i) && (i <=? r).
Proof.
  intros [Hlen Hm]. unfold processedb.
  destruct (Z.leb_spec 0 i); cbn [andb].
  - destruct (Z.ltb_spec i n); cbn [andb].
    + rewrite Hm by lia. destruct ((l <=? i) && (i <=? r)); reflexivity.
    + rewrite get_out_of_range by lia. reflexivity.
  - unfold get. destruct (Z.ltb_spec i 0); [reflexivity|lia].
Qed.

Lemma hump_map_insert n l r l' r' m a :
  hump_map n l r m -> 0 <= a < n ->
  (forall i, (l' <=? i) && (i <=? r') = (l <=? i) && (i <=? r) || (i =? a)) ->
  hump_map n l' r' (<[Z.to_nat a := 0]> m).
Proof.
  intros [Hlen Hm] Ha Hb. split; [rewrite len_insert; exact Hlen|].
  intros i Hi. rewrite Hb. destruct (Z.eqb_spec i a) as [->|Hne].
  - rewrite get_insert_eq by lia. rewrite orb_true_r. reflexivity.
  - rewrite get_insert_ne by lia. rewrite orb_false_r. apply Hm, Hi.
Qed.

Lemma hump_extend_left l r m :
  hump_map (len seq) l r m -> 0 < l -> l <= r < len seq ->
  exists m',
    sweep_step seq (l - 1) ([mkPeak mx none l r], m)
    = Ok ([mkPeak mx none (l - 1) r], m')
    /\ hump_map (len seq) (l - 1) r m'.
Proof.
  intros Hm Hl Hr. pose proof Hm as [Hlen Hget].
  rewrite sweep_step_cases by lia.
  rewrite !(hump_map_processedb _ _ _ _ _ Hm).
  replace ((0 <=? l - 1 - 1) && (l - 1 - 1 <? len seq) && (l <=? l - 1 - 1)
           && (l - 1 - 1 <=? r)) with false by lia.
  replace ((0 <=? l - 1 + 1) && (l - 1 + 1 <? len seq) && (l <=? l - 1 + 1)
           && (l - 1 + 1 <=? r)) with true by lia.
  rewrite Hget by lia.
  replace ((l <=? l - 1 + 1) && (l - 1 + 1 <=? r)) with true by lia.
  cbn [bind]. unfold merge_right.
  change (get [mkPeak mx none l r] 0) with (Ok (mkPeak mx none l r)).
  cbn [bind]. change (set [mkPeak mx none l r] 0 ?p) with (Ok [p]).
  cbn [bind]. rewrite set_in_range by lia. cbn [bind].
  eexists. split; [reflexivity|].
  apply (hump_map_insert _ l r); [exact Hm|lia|]. intros i. lia.
Qed.

Lemma hump_extend_right l r m :
  hump_map (len seq) l r m -> 0 <= l <= r -> r + 1 < len seq ->
  exists m',
    sweep_step seq (r + 1) ([mkPeak mx none l r], m)
    = Ok ([mkPeak mx none l (r + 1)], m')
    /\ hump_map (len seq) l (r + 1) m'.
Proof.
  intros Hm Hl Hr. pose proof Hm as [Hlen Hget].
  rewrite sweep_step_cases by lia.
  rewrite !(hump_map_processedb _ _ _ _ _ Hm).
  replace ((0 <=? r + 1 - 1) && (r + 1 - 1 <? len seq) && (l <=? r + 1 - 1)
           && (r + 1 - 1 <=? r)) with true by lia.
  replace ((0 <=? r + 1 + 1) && (r + 1 + 1 <? len seq) && (l <=? r + 1 + 1)
           && (r + 1 + 1 <=? r)) with false by lia.
  rewrite Hget by lia.
  replace ((l <=? r + 1 - 1) && (r + 1 - 1 <=? r)) with true by lia.
  cbn [bind]. unfold merge_left.
  change (get [mkPeak mx none l r] 0) with (Ok (mkPeak mx none l r)).
  cbn [bind]. change (set [mkPeak mx none l r] 0 ?p) with (Ok [p]).
  cbn [bind]. rewrite set_in_range by lia. cbn [bind].
  eexists. split; [reflexivity|].
  apply (hump_map_insert _ l r); [exact Hm|lia|]. intros i. lia.
Qed.

Lemma hump_sweep :
  forall pre post,
    sorted_indices seq = pre ++ post -> pre <> [] ->
    exists l r m,
      0 <= l <= mx /\ mx <= r < len seq
      /\ (forall i, i ∈ pre <-> l <= i <= r)
      /\ hump_map (len seq) l r m
      /\ sweep seq pre ([], replicate (length seq) none)
         = Ok ([mkPeak mx none l r], m).
Proof.
  induction pre as [|a pre IH] using rev_ind; intros post Hs Hne; [congruence|].
  rewrite <- app_assoc in Hs. cbn [app] in Hs.
  assert (Ha : 0 <= a < len seq).
  { apply elem_of_sorted_indices. rewrite Hs, elem_of_app, elem_of_cons. auto. }
  assert (Hnin : a ∉ pre).
  { pose proof (sorted_indices_NoDup seq) as Hnd. rewrite Hs in Hnd.
    apply NoDup_app in Hnd as (_ & Hd & _). intros Hin. apply (Hd a Hin). left. }
  destruct Hhump as (Hmx & _).
  rewrite sweep_snoc.
  destruct pre as [|b pre'].
  - (* the first index is the maximum *)
    destruct (hump_neighbour_order [] a post 0 0 Hs) as [H1 H2].
    { intros i Hi. apply elem_of_nil in Hi. contradiction. }
    assert (a = mx).
    { destruct (Z.lt_trichotomy a mx) as [Hlt|[Heq|Hgt]]; [|exact Heq|].
      - exfalso. apply H1; auto.
      - exfalso. apply H2; auto. }
    subst a. destruct hump_birth as (m & E & Hm).
    exists mx, mx, m. cbn [sweep range_loop bind]. rewrite E.
    split; [lia|]. split; [lia|]. split; [|split; [exact Hm|reflexivity]].
    intros i. cbn [app]. rewrite list_elem_of_singleton. lia.
  - destruct (IH (a :: post) Hs ltac:(discriminate))
      as (l & r & m & Hl & Hr & Hpre & Hm & E).
    rewrite E. cbn [bind].
    destruct (hump_neighbour_order (b :: pre') a post l r Hs) as [H1 H2].
    { intros i Hi. apply Hpre, Hi. }
    assert (Hout : a < l \/ r < a).
    { destruct (Z.lt_ge_cases a l); [auto|]. destruct (Z.lt_ge_cases r a); [auto|].
      exfalso. apply Hnin, Hpre. lia. }
    destruct Hout as [Hout|Hout].
    + assert (a = l - 1).
      { destruct (Z.eq_dec a (l - 1)); [assumption|].
        exfalso. apply H1; [lia|left; lia]. }
      subst a.
      destruct (hump_extend_left l r m Hm ltac:(lia) ltac:(lia)) as (m' & E' & Hm').
      exists (l - 1), r, m'. rewrite E'.
      split; [lia|]. split; [lia|]. split; [|split; [exact Hm'|reflexivity]].
      intros i. rewrite elem_of_app, list_elem_of_singleton, Hpre. lia.
    + assert (a = r + 1).
      { destruct (Z.eq_dec a (r + 1)); [assumption|].
        exfalso. apply H2; [lia|left; lia]. }
      subst a.
      destruct (hump_extend_right l r m Hm ltac:(lia) ltac:(lia)) as (m' & E' & Hm').
      exists l, (r + 1), m'. rewrite E'.
      split; [lia|]. split; [lia|]. split; [|split; [exact Hm'|reflexivity]].
      intros i. rewrite elem_of_app, list_elem_of_singleton, Hpre. lia.
Qed.

End Hump.

(** C8.  On a non-empty sequence that increases strictly up to the index
    [mx] and decreases strictly after it, [GetPeaks] returns exactly one
    peak; it is born at [mx], never died, and its persistence is
    infinite. *)
Theorem GetPeaks_single_hump seq mx :
  single_hump seq mx ->
  exists pk,
    GetPeaks seq = Ok {| peaks := [pk]; seq := seq |}
    /\ born pk = mx /\ died pk = none
    /\ getPersistence pk seq = Ok F64.inf.
Proof.
  intros Hh. pose proof Hh as (Hmx & _).
  assert (Hne : sorted_indices seq <> []).
  { intros Hnil.
    assert (Hin : mx ∈ sorted_indices seq) by (apply elem_of_sorted_indices; lia).
    rewrite Hnil in Hin. apply elem_of_nil in Hin. exact Hin. }
  destruct (hump_sweep seq mx Hh (sorted_indices seq) [])
    as (l & r & m & Hl & Hr & Hpre & Hm & E);
    [rewrite app_nil_r; reflexivity|exact Hne|].
  exists (mkPeak mx none l r). unfold GetPeaks. rewrite E. cbn [bind].
  repeat split.
Qed.

Lemma GetPeaks_single_hump_witness :
  single_hump (map F64.of_Z [1; 3; 2]) 1
  /\ exists pk,
      GetPeaks (map F64.of_Z [1; 3; 2])
      = Ok {| peaks := [pk]; seq := map F64.of_Z [1; 3; 2] |}
      /\ born pk = 1 /\ died pk = none
      /\ getPersistence pk (map F64.of_Z [1; 3; 2]) = Ok F64.inf.
Proof.
  assert (H : single_hump (map F64.of_Z [1; 3; 2]) 1).
  { split; [split; [lia|reflexivity]|]. split.
    - intros i Hi. replace i with 0 by lia. reflexivity.
    - intros i Hi. change (len (map F64.of_Z [1; 3; 2])) with 3 in Hi.
      replace i with 1 by lia. reflexivity. }
  split; [exact H|].
  apply (GetPeaks_single_hump (map F64.of_Z [1; 3; 2]) 1 H).
Defined.



(** ** Persistence and GetIndices *)

Lemma value_at_get (seq : list float64) i :
  0 <= i < len seq -> get seq i = Ok (value_at seq i).
Proof.
  intros H. unfold value_at. destruct (get_in_range seq i H) as [v ->]. reflexivity.
Qed.

Lemma getPersistence_in_range seq p :
  peak_in_range (len seq) p -> getPersistence p seq = Ok (persistence seq p).
Proof.
  intros [Hb Hd]. unfold getPersistence, persistence.
  destruct (Z.eqb_spec (died p) none) as [E|E]; [reflexivity|].
  destruct Hd as [Hd|Hd]; [contradiction|].
  rewrite !value_at_get by assumption. reflexivity.
Qed.

Lemma persistence_never_died sq p : died p = none -> persistence sq p = F64.inf.
Proof. intros H. unfold persistence. rewrite H. reflexivity. Qed.

Lemma max_finite_step mx L prs :
  max_finite mx L ->
  max_finite (if F64.gt prs mx && F64.lt prs F64.inf then prs else mx) (L ++ [prs]).
Proof.
  intros [Hin Hub].
  assert (Hmx : F64.is_nan mx = false).
  { destruct Hin as [->|[_ H]]; [reflexivity|apply lt_inf_not_nan, H]. }
  destruct (F64.gt prs mx) eqn:Hgt, (F64.lt prs F64.inf) eqn:Hlt; cbn [andb].
  - split.
    + right. split; [|exact Hlt]. apply elem_of_app. right. left.
    + intros x Hx Hxl. apply elem_of_app in Hx as [Hx|Hx].
      * unfold F64.ge, F64.gt in *. eapply SFleb_ltb_trans; [|exact Hgt].
        apply Hub; assumption.
      * apply list_elem_of_singleton in Hx as ->.
        apply SFleb_refl, lt_inf_not_nan, Hlt.
  - split.
    + destruct Hin as [->|[Hin Hl]]; [auto|]. right. split; [|exact Hl].
      apply elem_of_app. auto.
    + intros x Hx Hxl. apply elem_of_app in Hx as [Hx|Hx]; [auto|].
      apply list_elem_of_singleton in Hx as ->. congruence.
  - split.
    + destruct Hin as [->|[Hin Hl]]; [auto|]. right. split; [|exact Hl].
      apply elem_of_app. auto.
    + intros x Hx Hxl. apply elem_of_app in Hx as [Hx|Hx]; [auto|].
      apply list_elem_of_singleton in Hx as ->.
      apply SFleb_total; [exact Hmx|apply lt_inf_not_nan, Hlt|exact Hgt].
  - split.
    + destruct Hin as [->|[Hin Hl]]; [auto|]. right. split; [|exact Hl].
      apply elem_of_app. auto.
    + intros x Hx Hxl. apply elem_of_app in Hx as [Hx|Hx]; [auto|].
      apply list_elem_of_singleton in Hx as ->. congruence.
Qed.

Lemma minmax_loop sq :
  forall l i0 mn mx L,
    Forall (peak_in_range (len sq)) l -> max_finite mx L ->
    exists mn' mx',
      range_loop i0 l
        (fun _ pk '(min, max) =>
           do prs <- getPersistence pk sq;
           let max := if F64.gt prs max && F64.lt prs F64.inf then prs else max in
           let min := if F64.lt prs min then prs else min in
           Ok (min, max))
        (mn, mx) = Ok (mn', mx')
      /\ max_finite mx' (L ++ map (persistence sq) l).
Proof.
  induction l as [|p l IH]; intros i0 mn mx L Hwf Hmax.
  - exists mn, mx. rewrite app_nil_r. auto.
  - apply Forall_cons in Hwf as [Hp Hl].
    cbn [range_loop]. rewrite (getPersistence_in_range sq p Hp). cbn [bind].
    edestruct (IH (i0 + 1)) as (mn' & mx' & E & Hm);
      [exact Hl|apply (max_finite_step mx L (persistence sq p) Hmax)|].
    exists mn', mx'. split; [exact E|].
    cbn [map]. rewrite <- app_assoc in Hm. exact Hm.
Qed.

Lemma indices_loop sq maxP frac :
  forall l i0 acc,
    Forall (peak_in_range (len sq)) l ->
    range_loop i0 l
      (fun _ pk indices =>
         do prs <- getPersistence pk sq;
         if F64.ge (F64.div prs maxP) frac
         then Ok (indices ++ [born pk])
         else Ok indices)
      acc
    = Ok (acc ++ map born (filter (qualifies sq maxP frac) l)).
Proof.
  induction l as [|p l IH]; intros i0 acc Hwf.
  - cbn. rewrite app_nil_r. reflexivity.
  - apply Forall_cons in Hwf as [Hp Hl].
    cbn [range_loop]. rewrite (getPersistence_in_range sq p Hp). cbn [bind].
    destruct (F64.ge (F64.div (persistence sq p) maxP) frac) eqn:E.
    + cbn [bind]. rewrite IH by exact Hl.
      rewrite filter_cons_True by exact E. cbn [map].
      rewrite <- app_assoc. reflexivity.
    + cbn [bind]. rewrite IH by exact Hl.
      rewrite filter_cons_False by (unfold qualifies; congruence). reflexivity.
Qed.

Lemma GetPeaks_returns sq :
  exists pks,
    GetPeaks sq = Ok pks
    /\ seq pks = sq
    /\ Forall (peak_in_range (len sq)) (peaks pks)
    /\ StronglySorted Z.le (map born (peaks pks)).
Proof.
  destruct (sweep_complete sq) as (ps & m & E & Inv & _).
  unfold GetPeaks. rewrite E. cbn [bind].
  eexists. split; [reflexivity|]. cbn [peaks seq]. split; [reflexivity|]. split.
  - rewrite SliceStable_perm. apply Forall_forall. intros p Hp.
    apply list_elem_of_lookup in Hp as [k Hk].
    assert (Hg : get ps (Z.of_nat k) = Ok p)
      by (apply get_Ok_lookup; rewrite Nat2Z.id; split; [lia|assumption]).
    split; [eapply inv_born; eassumption|].
    destruct (Z.eq_dec (died p) none); [auto|]. right.
    eapply inv_dead; eassumption.
  - apply StronglySorted_fmap with (R1 := fun p q => (born q <? born p) = false).
    + intros p q H. apply Z.ltb_ge in H. exact H.
    + apply (SliceStable_sorted (fun p q => born p <? born q)).
      * intros a b c H1 H2. apply Z.ltb_lt in H1, H2. apply Z.ltb_lt. lia.
      * intros a b H. apply Z.ltb_lt in H. apply Z.ltb_ge. lia.
Qed.

(** C2 (as amended).  For every sequence and every fraction [f],
    [GetPeaks] returns a result [pks] whose peaks are listed by ascending
    [born]; on it, [MinMaxPersistence] returns as maximum the greatest
    persistence below [+Inf] ([-Inf] when there is none), and [GetIndices]
    returns, in peak-list order, the [born] index of exactly the peaks
    with [persistence / maxPersistence >= f].  A peak that never died is
    among them provided [maxPersistence] is a finite number of positive
    sign and [f] is not NaN. *)
Theorem GetIndices_spec sq f :
  exists pks mn maxP,
    GetPeaks sq = Ok pks
    /\ StronglySorted Z.le (map born (peaks pks))
    /\ MinMaxPersistence pks = Ok (mn, maxP)
    /\ max_finite maxP (map (persistence sq) (peaks pks))
    /\ GetIndices pks f
       = Ok (map born (filter (qualifies sq maxP f) (peaks pks)))
    /\ (positive_finite maxP -> F64.is_nan f = false ->
        forall p, p ∈ peaks pks -> died p = none ->
          p ∈ filter (qualifies sq maxP f) (peaks pks)).
Proof.
  destruct (GetPeaks_returns sq) as (pks & E & Hseq & Hwf & Hsorted).
  destruct (minmax_loop sq (peaks pks) 0 F64.inf F64.neg_inf [] Hwf)
    as (mn & maxP & Emm & Hmax).
  { split; [left; reflexivity|]. intros x Hx. apply elem_of_nil in Hx. contradiction. }
  exists pks, mn, maxP.
  split; [exact E|]. split; [exact Hsorted|].
  assert (Hmm : MinMaxPersistence pks = Ok (mn, maxP))
    by (unfold MinMaxPersistence; rewrite Hseq; exact Emm).
  split; [exact Hmm|]. split; [exact Hmax|]. split.
  - unfold GetIndices. rewrite Hmm. cbn [bind]. rewrite Hseq.
    apply (indices_loop sq maxP f (peaks pks) 0 [] Hwf).
  - intros Hpos Hf p Hp Hd. apply list_elem_of_filter. split; [|exact Hp].
    unfold qualifies. rewrite (persistence_never_died sq p Hd).
    rewrite (div_inf_positive maxP Hpos). apply ge_inf, Hf.
Qed.

(** On the single-hump sequence [1, 3, 2] the only peak never died, yet
    [GetIndices] returns no index, whatever the fraction: there is no
    finite persistence, [maxPersistence] is [-Inf] and the ratio is NaN. *)
Lemma GetIndices_single_peak_excluded :
  exists pks pk,
    GetPeaks (map F64.of_Z [1; 3; 2]) = Ok pks
    /\ pk ∈ peaks pks
    /\ getPersistence pk (seq pks) = Ok F64.inf
    /\ GetIndices pks F64.zero = Ok [].
Proof.
  eexists _, (mkPeak 1 none 0 2). split; [vm_compute; reflexivity|].
  cbn [peaks seq]. split; [left|]. split; reflexivity.
Qed.

(** On [sample_seq] the persistences are 1, infinite and 2: at fraction 1
    the peaks born at 3 and 5 qualify. *)
Example GetIndices_sample :
  exists pks,
    GetPeaks sample_seq = Ok pks
    /\ map born (peaks pks) = [1; 3; 5]
    /\ GetIndices pks (F64.of_Z 1) = Ok [3; 5]
    /\ GetIndices pks F64.zero = Ok [1; 3; 5].
Proof.
  eexists. split; [vm_compute; reflexivity|].
  cbn [peaks]. repeat split; vm_compute; reflexivity.
Qed.

(** ** Downsampled coefficients *)

Lemma range_loop_invariant {A T : Type} (P : T -> Prop)
    (body : Z -> A -> T -> result T) :
  (forall i v s s', 0 <= i -> P s -> body i v s = Ok s' -> P s') ->
  forall l i0 s s',
    0 <= i0 -> P s -> range_loop i0 l body s = Ok s' -> P s'.
Proof.
  intros Hbody. induction l as [|v l IH]; intros i0 s s' Hi Hs E.
  - cbn in E. injection E as <-. exact Hs.
  - cbn [range_loop] in E. destruct (body i0 v s) as [s1| |] eqn:E1;
      cbn [bind] in E; try discriminate.
    apply (IH (i0 + 1) s1 s'); [lia| |exact E].
    eapply Hbody; eassumption.
Qed.

(** Whatever the transform, the deepest band that
    [GetDownSampledCoefficients] returns is the empty slice [make] put
    there. *)
Lemma GetDownSampledCoefficients_deepest_nil t d :
  1 <= level t ->
  GetDownSampledCoefficients t = Ok d ->
  get d (level t - 1) = Ok [] /\ len d = level t.
Proof.
  intros Hl. unfold GetDownSampledCoefficients.
  rewrite make_nonneg by lia. cbn [bind].
  set (P := fun dscfs : list (list float64) =>
              get dscfs (level t - 1) = Ok [] /\ len dscfs = level t).
  apply (range_loop_invariant P); [|lia|].
  - intros _ sec dscfs dscfs' _ HP E.
    destruct (getSectionCoefficients t sec) as [cfs| |]; cbn [bind] in E;
      try discriminate.
    revert E. apply (range_loop_invariant P); [|lia|exact HP].
    clear. subst P. cbn beta. intros i cf s s' Hi [HP1 HP2].
    destruct (Z.ltb_spec i (level t - 1)) as [Hlt|Hge]; intros E.
    + destruct (Pow2 _) as [n| |]; cbn [bind] in E; try discriminate.
      destruct (DownSample cf n) as [ds| |]; cbn [bind] in E; try discriminate.
      destruct (get s i) as [old| |]; cbn [bind] in E; try discriminate.
      apply set_Ok in E as [Hr ->]. split.
      * rewrite get_insert_ne by lia. exact HP1.
      * rewrite len_insert. exact HP2.
    + injection E as <-. split; assumption.
  - subst P. cbn beta. split.
    + apply get_Ok_lookup. split; [lia|]. apply lookup_replicate. split; [reflexivity|lia].
    + unfold len. rewrite length_replicate. lia.
Qed.

(** C1, evaluated.  On a ramp of 256 samples at level 2 the coefficient
    bands have 128 and 64 samples; [GetDownSampledCoefficients] decimates
    band 0 to 64 samples and returns the deepest band empty. *)
Theorem GetDownSampledCoefficients_deepest_band_empty :
  exists t c d,
    Daubechies4 (map F64.of_Z (seqZ 0 256)) 2 = Ok t
    /\ GetCoefficients t = Ok c
    /\ GetDownSampledCoefficients t = Ok d
    /\ map length c = [128; 64]%nat
    /\ map length d = [64; 0]%nat.
Proof.
  assert (H : (do t <- Daubechies4 (map F64.of_Z (seqZ 0 256)) 2;
               do c <- GetCoefficients t;
               do d <- GetDownSampledCoefficients t;
               Ok (map length c, map length d))
              = Ok ([128; 64]%nat, [64; 0]%nat))
    by (vm_compute; reflexivity).
  destruct (Daubechies4 _ 2) as [t| |] eqn:Et; [|discriminate..].
  cbn [bind] in H.
  destruct (GetCoefficients t) as [c| |] eqn:Ec; [|discriminate..].
  cbn [bind] in H.
  destruct (GetDownSampledCoefficients t) as [d| |] eqn:Ed; [|discriminate..].
  cbn [bind] in H. injection H as Hc Hd.
  exists t, c, d. repeat split; try reflexivity; assumption.
Qed.

(* ================================================================== *)
(** * Further properties of the code *)

(** ** [Pow2] over all exponents *)

Lemma Pow2_63 : Pow2 63 = Ok Int.min_int.
Proof. reflexivity. Qed.

Lemma iter_double_zero n :
  Nat.iter n (fun pw => Int.wrap (pw * 2)) 0 = 0.
Proof. induction n as [|n IH]; [reflexivity|]. rewrite Nat.iter_succ, IH. reflexivity. Qed.

Lemma Pow2_max_int x : Int.max_int <= x -> Pow2 x = OutOfFuel.
Proof.
  intros Hx. unfold Pow2. destruct (Z.ltb_spec x 0) as [Hc|_];
    [unfold Int.max_int in Hx; lia|].
  apply pow2_loop_diverges; [exact Hx|]. apply in_range_bounds. lia.
Qed.

Lemma Pow2_cases x :
  Pow2 x =
  if x <? 0 then Panic
  else if x <=? 62 then Ok (2 ^ x)
  else if x =? 63 then Ok Int.min_int
  else if x <? Int.max_int then Ok 0
  else OutOfFuel.
Proof.
  destruct (Z.ltb_spec x 0); [apply Pow2_negative; assumption|].
  destruct (Z.leb_spec x 62); [apply Pow2_small; lia|].
  destruct (Z.eqb_spec x 63) as [->|]; [reflexivity|].
  destruct (Z.ltb_spec x Int.max_int) as [Hlt|Hge].
  - rewrite Pow2_iter by lia. f_equal.
    replace (Z.to_nat x) with ((Z.to_nat x - 64) + 64)%nat by lia.
    rewrite Nat.iter_add.
    change (Nat.iter 64 (fun pw => Int.wrap (pw * 2)) 1) with 0.
    apply iter_double_zero.
  - apply Pow2_max_int, Hge.
Qed.

(** X1.  [Pow2] on every exponent: it panics below 0, returns the power of
    two up to 62, the minimal [int] at 63 (the doubling overflows) and 0
    from 64 up to the [int] before the maximal one.  At the maximal [int]
    it does not return: the counter of its loop wraps around, the
    condition [i <= x] holds for ever, and no bound on the number of
    rounds lets the loop end. *)
Theorem Pow2_all :
  (forall x,
     Pow2 x =
     if x <? 0 then Panic
     else if x <=? 62 then Ok (2 ^ x)
     else if x =? 63 then Ok Int.min_int
     else if x <? Int.max_int then Ok 0
     else OutOfFuel)
  /\ (forall fuel, pow2_loop fuel Int.max_int 1 1 = OutOfFuel).
Proof.
  split.
  - apply Pow2_cases.
  - intros fuel. apply pow2_loop_diverges; [lia|]. apply in_range_bounds. lia.
Qed.

(** ** Loops with an invariant

    Loops that cannot fail: an invariant indexed by the round. *)
Lemma for_loop_total {T : Type} (P : nat -> T -> Prop)
    (body : Z -> T -> result T) (a step : Z) (count : nat) (s : T) :
  P 0%nat s ->
  (forall k s, (k < count)%nat -> P k s ->
     exists s', body (a + Z.of_nat k * step) s = Ok s' /\ P (S k) s') ->
  exists s', for_loop count a step body s = Ok s' /\ P count s'.
Proof.
  revert P a s. induction count as [|c IH]; intros P a s H0 Hstep.
  - exists s. split; [reflexivity | assumption].
  - destruct (Hstep 0%nat s ltac:(lia) H0) as (s1 & Hb & H1).
    replace (a + Z.of_nat 0 * step) with a in Hb by lia.
    cbn [for_loop]. rewrite Hb. cbn [bind].
    apply (IH (fun k => P (S k))); [assumption|].
    intros k s2 Hk HP. destruct (Hstep (S k) s2 ltac:(lia) HP) as (s3 & Hb3 & H3).
    exists s3. split; [|assumption]. rewrite <- Hb3. f_equal. lia.
Qed.

Lemma for_range_total {T : Type} (P : nat -> T -> Prop)
    (body : Z -> T -> result T) (a b : Z) (s : T) :
  P 0%nat s ->
  (forall k s, (k < Z.to_nat (b - a))%nat -> P k s ->
     exists s', body (a + Z.of_nat k) s = Ok s' /\ P (S k) s') ->
  exists s', for_range a b body s = Ok s' /\ P (Z.to_nat (b - a)) s'.
Proof.
  intros H0 Hstep. apply for_loop_total; [assumption|].
  intros k s1 Hk HP. destruct (Hstep k s1 Hk HP) as (s2 & Hb & H2).
  exists s2. split; [|assumption]. rewrite <- Hb. f_equal. lia.
Qed.

Lemma for_range_count {T : Type} (P : nat -> T -> Prop) (count : nat)
    (body : Z -> T -> result T) (a b : Z) (s : T) :
  count = Z.to_nat (b - a) ->
  P 0%nat s ->
  (forall k s, (k < count)%nat -> P k s ->
     exists s', body (a + Z.of_nat k) s = Ok s' /\ P (S k) s') ->
  exists s', for_range a b body s = Ok s' /\ P count s'.
Proof. intros ->. apply for_range_total. Qed.

Lemma range_loop_total {A T : Type} (P : nat -> T -> Prop)
    (body : Z -> A -> T -> result T) (l : list A) (i0 : Z) (s : T) :
  P 0%nat s ->
  (forall k v s, l !! k = Some v -> P k s ->
     exists s', body (i0 + Z.of_nat k) v s = Ok s' /\ P (S k) s') ->
  exists s', range_loop i0 l body s = Ok s' /\ P (length l) s'.
Proof.
  revert P i0 s. induction l as [|v l IH]; intros P i0 s H0 Hstep.
  - exists s. split; [reflexivity | assumption].
  - destruct (Hstep 0%nat v s eq_refl H0) as (s1 & Hb & H1).
    replace (i0 + Z.of_nat 0) with i0 in Hb by lia.
    cbn [range_loop]. rewrite Hb. cbn [bind].
    apply (IH (fun k => P (S k))); [assumption|].
    intros k w s2 Hk HP. destruct (Hstep (S k) w s2 Hk HP) as (s3 & Hb3 & H3).
    exists s3. split; [|assumption]. rewrite <- Hb3. f_equal. lia.
Qed.

(** ** [IsPowerOf2] *)

Lemma land_pred_pow2 k : 0 <= k -> Z.land (2 ^ k) (2 ^ k - 1) = 0.
Proof.
  intros Hk. replace (2 ^ k - 1) with (Z.ones k)
    by (rewrite Z.ones_equiv; lia).
  rewrite Z.land_ones by assumption. apply Z_mod_same_full.
Qed.

Lemma land_pred_zero x : 0 < x -> Z.land x (x - 1) = 0 -> x = 2 ^ Z.log2 x.
Proof.
  intros Hx Hl.
  destruct (Z.log2_spec x Hx) as [Hlo Hhi].
  destruct (Z.eq_dec x (2 ^ Z.log2 x)) as [|Hne]; [assumption|exfalso].
  assert (Hlog : Z.log2 (x - 1) = Z.log2 x).
  { apply Z.log2_unique; [apply Z.log2_nonneg|]. lia. }
  assert (Hb : Z.testbit (Z.land x (x - 1)) (Z.log2 x) = true).
  { rewrite Z.land_spec. rewrite (Z.bit_log2 x Hx). rewrite andb_true_l.
    rewrite <- Hlog. apply Z.bit_log2. 
    assert (1 <= 2 ^ Z.log2 x) by (pose proof (Z.pow_pos_nonneg 2 (Z.log2 x) ltac:(lia) (Z.log2_nonneg x)); lia).
    lia. }
  rewrite Hl, Z.bits_0 in Hb. discriminate.
Qed.

(** X2.  [IsPowerOf2] on the whole of [int]: it is true on the powers of
    two and, because [x - 1] wraps around, on the minimal [int], and false
    on every other number. *)
Theorem IsPowerOf2_spec x :
  Int.in_range x ->
  IsPowerOf2 x = true <-> x = Int.min_int \/ exists k, 0 <= k /\ x = 2 ^ k.
Proof.
  intros Hr. unfold Int.in_range, Int.min_int, Int.max_int in Hr.
  unfold IsPowerOf2. rewrite andb_true_iff, negb_true_iff, Z.eqb_neq, Z.eqb_eq.
  destruct (Z.eq_dec x Int.min_int) as [->|Hmin].
  { split; [left; reflexivity|]. intros _. split; [discriminate | reflexivity]. }
  unfold Int.min_int in Hmin.
  rewrite wrap_small by (apply in_range_bounds; lia).
  split.
  - intros [Hx0 Hl]. right.
    destruct (Z_lt_le_dec x 0) as [Hneg|Hpos].
    + exfalso. assert (Z.land x (x - 1) < 0) by (apply Z.land_neg; lia). lia.
    + exists (Z.log2 x). split; [apply Z.log2_nonneg|].
      apply land_pred_zero; [lia | assumption].
  - intros [?|(k & Hk & ->)]; [contradiction|].
    split; [|apply land_pred_pow2; assumption].
    pose proof (Z.pow_pos_nonneg 2 k). lia.
Qed.

Lemma IsPowerOf2_spec_witness :
  Int.in_range 64 /\
  (IsPowerOf2 64 = true <-> 64 = Int.min_int \/ exists k, 0 <= k /\ 64 = 2 ^ k).
Proof.
  assert (H : Int.in_range 64) by (unfold Int.in_range, Int.min_int, Int.max_int; lia).
  split; [exact H | exact (IsPowerOf2_spec 64 H)].
Defined.

(** ** [AbsInt], [MaxInt], [FindMaxI] *)

Lemma neg_int e :
  Int.in_range e ->
  (if e <? 0 then Int.wrap (- e) else e) =
  if e =? Int.min_int then Int.min_int else Z.abs e.
Proof.
  intros Hr. unfold Int.in_range, Int.min_int, Int.max_int in *.
  destruct (Z.eqb_spec e (- 2 ^ 63)) as [->|Hne]; [reflexivity|].
  destruct (Z.ltb_spec e 0); [|lia].
  rewrite wrap_small by (apply in_range_bounds; lia). lia.
Qed.

(** X3.  [AbsInt] returns a slice of the same length that holds the
    absolute values, except that the minimal [int] stays as it is (its
    negation overflows). *)
Theorem AbsInt_spec (x : list Z) :
  Forall Int.in_range x ->
  exists y, AbsInt x = Ok y /\ length y = length x /\
    forall (i : nat) e, x !! i = Some e ->
      y !! i = Some (if e =? Int.min_int then Int.min_int else Z.abs e).
Proof.
  intros Hx. unfold AbsInt.
  rewrite make_nonneg by (unfold len; lia). cbn [bind].
  set (g := fun e => if e =? Int.min_int then Int.min_int else Z.abs e).
  destruct (range_loop_total
    (fun k y => length y = length x /\
       forall (i : nat) e, (i < k)%nat -> x !! i = Some e -> y !! i = Some (g e))
    (fun i e x1 => if e <? 0 then set x1 i (Int.wrap (- e)) else set x1 i e)
    x 0 (replicate (Z.to_nat (len x)) 0)) as (y & Hy & Hlen & Hval).
  - split; [rewrite length_replicate; unfold len; lia|]. intros; lia.
  - intros k e y Hk [Hlen Hval].
    assert (Hlt : (k < length x)%nat) by (eapply lookup_lt_Some; eassumption).
    exists (<[k := g e]> y). split.
    + assert (He : Int.in_range e).
      { rewrite Forall_forall in Hx. apply Hx.
        eapply list_elem_of_lookup_2; eassumption. }
      assert (Hg : (if e <? 0 then Int.wrap (- e) else e) = g e)
        by (apply neg_int; assumption).
      replace (0 + Z.of_nat k) with (Z.of_nat k) by lia.
      transitivity (set y (Z.of_nat k) (if e <? 0 then Int.wrap (- e) else e));
        [destruct (e <? 0); reflexivity|].
      rewrite Hg. apply set_insert; [reflexivity | lia].
    + split; [rewrite length_insert; assumption|].
      intros i e' Hi He'. destruct (Nat.eq_dec i k) as [->|Hne].
      * rewrite list_lookup_insert_eq by lia. congruence.
      * rewrite list_lookup_insert_ne by lia. apply Hval; [lia | assumption].
  - exists y. split; [assumption|]. split; [assumption|].
    intros i e He. apply Hval; [|assumption]. eapply lookup_lt_Some; eassumption.
Qed.

Lemma AbsInt_spec_witness :
  Forall Int.in_range [-3; Int.min_int] /\
  exists y, AbsInt [-3; Int.min_int] = Ok y /\ length y = 2%nat /\
    forall (i : nat) e, [-3; Int.min_int] !! i = Some e ->
      y !! i = Some (if e =? Int.min_int then Int.min_int else Z.abs e).
Proof.
  assert (H : Forall Int.in_range [-3; Int.min_int]).
  { repeat constructor; unfold Int.min_int, Int.max_int; lia. }
  split; [exact H | exact (AbsInt_spec _ H)].
Defined.

Lemma MaxInt_loop (l : list Z) : forall i m0,
  exists m, range_loop i l (fun _ f max => if f >? max then Ok f else Ok max) m0 = Ok m
    /\ m0 <= m /\ (forall e, e ∈ l -> e <= m) /\ (m = m0 \/ m ∈ l).
Proof.
  induction l as [|f l IH]; intros i m0.
  - exists m0. split; [reflexivity|]. split; [lia|]. split; [|left; reflexivity].
    intros e He. apply elem_of_nil in He. contradiction.
  - cbn [range_loop].
    destruct (IH (i + 1) (if f >? m0 then f else m0)) as (m & Hm & Hle & Hall & Hin).
    exists m. split; [destruct (f >? m0); exact Hm|].
    destruct (Z.gtb_spec f m0).
    + split; [lia|]. split.
      * intros e He. apply elem_of_cons in He as [->|He]; [lia | auto].
      * right. destruct Hin as [->|Hin]; [left | right]; auto.
    + split; [lia|]. split.
      * intros e He. apply elem_of_cons in He as [->|He]; [lia | auto].
      * destruct Hin as [->|Hin]; [left | right; right]; auto.
Qed.

(** X4.  [MaxInt] panics on the empty slice and otherwise returns an
    element of the slice that no element exceeds. *)
Theorem MaxInt_spec :
  MaxInt [] = Panic /\
  forall a x, exists m,
    MaxInt (a :: x) = Ok m /\ m ∈ a :: x /\ forall e, e ∈ a :: x -> e <= m.
Proof.
  split; [reflexivity|]. intros a x.
  unfold MaxInt. change (get (a :: x) 0) with (Ok a). cbn [bind].
  destruct (MaxInt_loop (a :: x) 0 a) as (m & Hm & Hle & Hall & Hin).
  exists m. split; [assumption|]. split; [|assumption].
  destruct Hin as [->|Hin]; [left | assumption].
Qed.

(** X5.  [FindMaxI] panics on the empty slice.  Otherwise its loop stops
    before the last element: the result is the first maximum of the slice
    without its last element (of the slice itself when it has a single
    element), with its index. *)
Theorem FindMaxI_spec (x : list Z) (a : Z) :
  FindMaxI [] = Panic /\
  exists v i, FindMaxI (a :: x) = Ok (v, Z.of_nat i) /\
    (a :: x) !! i = Some v /\
    (i <= length x - 1)%nat /\
    (forall j e, (j <= length x - 1)%nat -> (a :: x) !! j = Some e -> e <= v) /\
    (forall j e, (j < i)%nat -> (a :: x) !! j = Some e -> e < v).
Proof.
  split; [reflexivity|].

  unfold FindMaxI. change (get (a :: x) 0) with (Ok a). cbn [bind].
  set (body := fun (i : Z) '(value, index) => _).
  destruct (for_range_total
    (fun k '(v, idx) => exists i, idx = Z.of_nat i /\
       (a :: x) !! i = Some v /\ (i <= k)%nat /\
       (forall j e, (j <= k)%nat -> (a :: x) !! j = Some e -> e <= v) /\
       (forall j e, (j < i)%nat -> (a :: x) !! j = Some e -> e < v))
    body 1 (len (a :: x) - 1) (a, 0)) as ([v idx] & Hrun & i & -> & Hi & Hik & Hmax & Hfirst).
  - exists 0%nat. split; [reflexivity|]. split; [reflexivity|]. split; [lia|].
    split; [|intros; lia].
    intros j e Hj He. replace j with 0%nat in He by lia. cbn in He. injection He; lia.
  - intros k [v idx] Hk (i & -> & Hi & Hik & Hmax & Hfirst).
    unfold len in Hk. cbn [length] in Hk.
    destruct ((a :: x) !! S k) as [xi|] eqn:Hxi;
      [|apply lookup_ge_None in Hxi; cbn [length] in Hxi; lia].
    unfold body. rewrite (get_lookup (a :: x) (1 + Z.of_nat k) (S k) xi) by (lia || assumption).
    cbn [bind]. destruct (Z.gtb_spec xi v).
    + eexists. split; [reflexivity|]. exists (S k).
      split; [lia|]. split; [assumption|]. split; [lia|]. split.
      * intros j e Hj He. destruct (Nat.eq_dec j (S k)) as [->|];
          [replace e with xi by congruence; lia|].
        specialize (Hmax j e ltac:(lia) He). lia.
      * intros j e Hj He. specialize (Hmax j e ltac:(lia) He). lia.
    + eexists. split; [reflexivity|]. exists i.
      split; [reflexivity|]. split; [assumption|]. split; [lia|]. split; [|assumption].
      intros j e Hj He. destruct (Nat.eq_dec j (S k)) as [->|];
        [replace e with xi by congruence; lia|].
      apply (Hmax j); [lia | assumption].
  - exists v, i. split; [exact Hrun|]. unfold len in *. cbn [length] in *.
    split; [assumption|]. split; [lia|]. split; [|assumption].
    intros j e Hj He. apply (Hmax j); [lia | assumption].
Qed.

(** ** [DownSample] *)

Lemma DownSample_ok (x : list float64) (n m : nat) :
  (0 < n)%nat -> length x = (m * n)%nat -> len x <= Int.max_int ->
  exists y, DownSample x (Z.of_nat n) = Ok y /\ length y = m /\
    forall j, (j < m)%nat -> y !! j = x !! (j * n)%nat.
Proof.
  intros Hn Hlen Hmax. unfold Int.max_int in Hmax.
  assert (Hlx : len x = Z.of_nat m * Z.of_nat n) by (unfold len; lia).
  unfold DownSample, Int.rem, Int.div.
  destruct (Z.eqb_spec (Z.of_nat n) 0); [lia|]. cbn [bind].
  rewrite Hlx, Z.rem_mul, Z.quot_mul by lia.
  change (negb (0 =? 0)) with false. cbv iota.
  rewrite wrap_small by (apply in_range_bounds; nia).
  rewrite make_nonneg by lia. cbn [bind]. rewrite Nat2Z.id.
  set (body := fun (j : Z) '(i, x1) => _).
  destruct (for_range_total
    (fun k '(i, y) => i = Z.of_nat k * Z.of_nat n /\ length y = m /\
       forall j, (j < k)%nat -> y !! j = x !! (j * n)%nat)
    body 0 (len (replicate m F64.zero)) (0, replicate m F64.zero))
    as ([i y] & Hrun & Hi & Hy & Hval).
  - split; [lia|]. split; [apply length_replicate|]. intros; lia.
  - unfold len. rewrite length_replicate.
    intros k [i y] Hk (-> & Hy & Hval).
    assert (Hkn : (k * n < length x)%nat) by nia.
    destruct (lookup_lt_is_Some_2 x (k * n)%nat Hkn) as [v Hv].
    unfold body.
    rewrite (get_lookup x _ (k * n)%nat v) by (lia || assumption). cbn [bind].
    rewrite (set_insert y _ k v) by lia. cbn [bind].
    eexists. split; [reflexivity|].
    split; [rewrite wrap_small by (apply in_range_bounds; nia); lia|].
    split; [rewrite length_insert; assumption|].
    intros j Hj. destruct (Nat.eq_dec j k) as [->|Hne].
    + rewrite list_lookup_insert_eq by lia. symmetry; assumption.
    + rewrite list_lookup_insert_ne by lia. apply Hval. lia.
  - rewrite Hrun. cbn [bind]. exists y. split; [reflexivity|].
    split; [assumption|]. unfold len in Hval. rewrite length_replicate in Hval.
    intros j Hj. apply Hval. lia.
Qed.

(** X6.  When [n > 0] divides the length of [x], [DownSample x n] returns
    the [len x / n] samples [x[0], x[n], x[2n], ...]. *)
Theorem DownSample_spec (x : list float64) (n m : nat) :
  (0 < n)%nat -> length x = (m * n)%nat -> len x <= Int.max_int ->
  exists y, DownSample x (Z.of_nat n) = Ok y /\ length y = m /\
    forall j, (j < m)%nat -> y !! j = x !! (j * n)%nat.
Proof. apply DownSample_ok. Qed.

Lemma DownSample_spec_witness :
  (0 < 2)%nat /\ length sample_six = (3 * 2)%nat /\
  len sample_six <= Int.max_int /\
  exists y, DownSample sample_six (Z.of_nat 2) = Ok y /\ length y = 3%nat /\
    forall j, (j < 3)%nat -> y !! j = sample_six !! (j * 2)%nat.
Proof.
  split; [lia|]. split; [reflexivity|]. split; [vm_compute; discriminate|].
  apply (DownSample_spec sample_six 2 3);
    [lia | reflexivity | vm_compute; discriminate].
Defined.

Lemma DownSample_unique (x y y' : list float64) (n m : nat) :
  length y = m -> length y' = m ->
  (forall j, (j < m)%nat -> y !! j = x !! (j * n)%nat) ->
  (forall j, (j < m)%nat -> y' !! j = x !! (j * n)%nat) ->
  y = y'.
Proof.
  intros Hy Hy' Hv Hv'. apply list_eq. intros j.
  destruct (Nat.lt_ge_cases j m) as [Hj|Hj].
  - rewrite Hv, Hv' by assumption. reflexivity.
  - rewrite !lookup_ge_None_2 by lia. reflexivity.
Qed.

(** X9.  [DownSample] by 1 returns the input. *)
Theorem DownSample_one (x : list float64) :
  len x <= Int.max_int -> DownSample x 1 = Ok x.
Proof.
  intros Hmax.
  destruct (DownSample_ok x 1 (length x) ltac:(lia) ltac:(lia) Hmax)
    as (y & Hy & Hlen & Hval).
  change (Z.of_nat 1) with 1 in Hy. rewrite Hy. f_equal.
  apply list_eq. intros j. destruct (Nat.lt_ge_cases j (length x)) as [Hj|Hj].
  - rewrite Hval by assumption. f_equal. lia.
  - rewrite !lookup_ge_None_2 by lia. reflexivity.
Qed.

Lemma DownSample_one_witness :
  len sample_six <= Int.max_int /\ DownSample sample_six 1 = Ok sample_six.
Proof.
  split; [vm_compute; discriminate|].
  apply (DownSample_one sample_six). vm_compute. discriminate.
Defined.

(** X8.  Down-sampling by [a] and then by [b] is down-sampling by
    [a * b], whenever [a * b] divides the length. *)
Theorem DownSample_compose (x : list float64) (a b m : nat) :
  (0 < a)%nat -> (0 < b)%nat -> length x = (m * (a * b))%nat ->
  len x <= Int.max_int ->
  (do y <- DownSample x (Z.of_nat a); DownSample y (Z.of_nat b)) =
  DownSample x (Z.of_nat a * Z.of_nat b).
Proof.
  intros Ha Hb Hlen Hmax.
  destruct (DownSample_ok x a (m * b) Ha ltac:(lia) Hmax) as (y & Hy & Hly & Hvy).
  assert (Hymax : len y <= Int.max_int).
  { unfold len in *. rewrite Hly. nia. }
  destruct (DownSample_ok y b m Hb ltac:(lia) Hymax) as (z & Hz & Hlz & Hvz).
  destruct (DownSample_ok x (a * b) m ltac:(lia) Hlen Hmax) as (z' & Hz' & Hlz' & Hvz').
  rewrite Hy. cbn [bind]. rewrite Hz, <- Nat2Z.inj_mul, Hz'. f_equal.
  apply (DownSample_unique x z z' (a * b) m); try assumption.
  intros j Hj. rewrite Hvz by assumption. rewrite Hvy by nia. f_equal. lia.
Qed.

Lemma DownSample_compose_witness :
  (0 < 2)%nat /\ (0 < 3)%nat /\ length sample_six = (1 * (2 * 3))%nat /\
  len sample_six <= Int.max_int /\
  (do y <- DownSample sample_six (Z.of_nat 2); DownSample y (Z.of_nat 3)) =
  DownSample sample_six (Z.of_nat 2 * Z.of_nat 3).
Proof.
  split; [lia|]. split; [lia|]. split; [reflexivity|].
  split; [vm_compute; discriminate|].
  apply (DownSample_compose sample_six 2 3 1);
    [lia | lia | reflexivity | vm_compute; discriminate].
Defined.

(** X7.  [DownSample] returns exactly when [n] is not 0, divides [len x]
    and is positive or [x] is empty; in every other case it panics (on the
    division by 0, on its own check, or in [make] with a negative
    length). *)
Theorem DownSample_defined (x : list float64) (n : Z) :
  Int.in_range n -> len x <= Int.max_int ->
  if negb (n =? 0) && (Z.rem (len x) n =? 0) && ((0 <? n) || (len x =? 0))
  then exists y, DownSample x n = Ok y
  else DownSample x n = Panic.
Proof.
  intros Hn Hmax. unfold Int.in_range, Int.min_int, Int.max_int in *.
  destruct (Z.eqb_spec n 0) as [->|Hn0]; [reflexivity|]. cbn [negb andb].
  destruct (Z.eqb_spec (Z.rem (len x) n) 0) as [Hrem|Hrem]; cbn [andb].
  2:{ unfold DownSample, Int.rem. destruct (Z.eqb_spec n 0); [lia|]. cbn [bind].
      destruct (Z.eqb_spec (Z.rem (len x) n) 0); [lia | reflexivity]. }
  destruct (Z.ltb_spec 0 n) as [Hpos|Hneg]; cbn [orb].
  - apply Z.rem_divide in Hrem as [q Hq]; [|lia].
    assert (0 <= q) by (unfold len in *; nia).
    destruct (DownSample_ok x (Z.to_nat n) (Z.to_nat q)) as (y & Hy & _);
      [lia | unfold len in Hq; nia | unfold Int.max_int; lia |].
    exists y. rewrite <- Hy. f_equal. lia.
  - destruct (Z.eqb_spec (len x) 0) as [H0|H0].
    + exists []. destruct x; [|discriminate H0].
      unfold DownSample, Int.rem, Int.div. destruct (Z.eqb_spec n 0); [lia|].
      cbn [bind]. unfold len. cbn [length]. change (Z.of_nat 0) with 0.
      rewrite Z.rem_0_l, Z.quot_0_l by lia. reflexivity.
    + unfold DownSample, Int.rem, Int.div. destruct (Z.eqb_spec n 0); [lia|].
      cbn [bind]. rewrite Hrem. change (negb (0 =? 0)) with false. cbv iota.
      apply Z.rem_divide in Hrem as [q Hq]; [|lia].
      rewrite Hq, Z.quot_mul by lia.
      assert (0 < len x) by (unfold len in *; lia).
      assert (q < 0) by nia. assert (- 2 ^ 63 < q) by nia.
      rewrite wrap_small by (apply in_range_bounds; lia).
      unfold make. destruct (Z.ltb_spec q 0); [reflexivity | lia].
Qed.

Lemma DownSample_defined_witness :
  Int.in_range 4 /\ len sample_six <= Int.max_int /\
  DownSample sample_six 4 = Panic.
Proof.
  assert (H : Int.in_range 4) by (unfold Int.in_range, Int.min_int, Int.max_int; lia).
  assert (H' : len sample_six <= Int.max_int) by (vm_compute; discriminate).
  split; [exact H|]. split; [exact H'|].
  exact (DownSample_defined sample_six 4 H H').
Defined.

(** ** [Multiplex] *)

Lemma Multiplex_ok (c0 : list float64) (channels : list (list float64)) :
  Forall (fun ch => length c0 <= length ch)%nat channels ->
  len (c0 :: channels) * len c0 <= Int.max_int ->
  exists buf, Multiplex (c0 :: channels) = Ok buf /\
    length buf = (length (c0 :: channels) * length c0)%nat /\
    forall i j ch, (i < length c0)%nat -> (c0 :: channels) !! j = Some ch ->
      buf !! (i * length (c0 :: channels) + j)%nat = ch !! i.
Proof.
  intros Hall Hmax. unfold Int.max_int in Hmax.
  set (chs := c0 :: channels) in *.
  assert (Hall' : forall j ch, chs !! j = Some ch -> (length c0 <= length ch)%nat).
  { intros [|j] ch Hj; [cbn in Hj; injection Hj as <-; lia|].
    rewrite Forall_forall in Hall. apply Hall.
    eapply list_elem_of_lookup_2. exact Hj. }
  set (nc := length chs). set (cl := length c0).
  assert (Hnc : len chs = Z.of_nat nc) by reflexivity.
  assert (Hcl : len c0 = Z.of_nat cl) by reflexivity.
  assert (Hpos : (0 < nc)%nat) by (subst nc chs; cbn; lia).
  unfold Multiplex. change (get chs 0) with (Ok c0). cbn [bind].
  rewrite Hnc, Hcl in *.
  rewrite wrap_small by (apply in_range_bounds; lia).
  rewrite make_nonneg by lia. cbn [bind].
  cbv zeta.
  pose (P := fun (k : nat) (buf : list float64) =>
    length buf = (nc * cl)%nat /\
    forall i j ch, (i < k)%nat -> chs !! j = Some ch ->
      buf !! (i * nc + j)%nat = ch !! i).
  enough (exists buf,
    for_range 0 (Z.of_nat cl)
      (fun i buf =>
         for_range 0 (Z.of_nat nc)
           (fun j buf =>
              do ch <- get chs j;
              do v <- get ch i;
              set buf (Int.wrap (Int.wrap (i * Z.of_nat nc) + j)) v) buf)
      (replicate (Z.to_nat (Z.of_nat nc * Z.of_nat cl)) F64.zero) = Ok buf /\
    P cl buf) as (buf & Hrun & Hlen & Hval).
  { exists buf. split; [exact Hrun|]. split; [lia|]. exact Hval. }
  apply (for_range_count P cl); [lia | |].
  - split; [rewrite length_replicate; lia|]. intros; lia.
  - intros k buf Hk [Hlen Hval].
    pose (Q := fun (j' : nat) (buf' : list float64) =>
      length buf' = (nc * cl)%nat /\
      (forall i j ch, (i < k)%nat -> chs !! j = Some ch ->
         buf' !! (i * nc + j)%nat = ch !! i) /\
      (forall j ch, (j < j')%nat -> chs !! j = Some ch ->
         buf' !! (k * nc + j)%nat = ch !! k)).
    enough (exists buf',
      for_range 0 (Z.of_nat nc)
        (fun j buf =>
           do ch <- get chs j;
           do v <- get ch (0 + Z.of_nat k);
           set buf (Int.wrap (Int.wrap ((0 + Z.of_nat k) * Z.of_nat nc) + j)) v) buf
      = Ok buf' /\
      Q nc buf')
      as (buf' & Hrun' & Hlen' & Hold & Hnew).
    { exists buf'. split; [exact Hrun'|]. split; [assumption|].
      intros i j ch Hi Hj. destruct (Nat.eq_dec i k) as [->|Hne].
      * apply Hnew; [|assumption]. eapply lookup_lt_Some; eassumption.
      * apply Hold; [lia | assumption]. }
    apply (for_range_count Q nc); [lia | |].
    + split; [assumption|]. split; [assumption|]. intros; lia.
    + intros j' b Hj' (Hlb & Hold & Hnew).
      destruct (lookup_lt_is_Some_2 chs j' Hj') as [ch Hch].
      pose proof (Hall' j' ch Hch) as Hchlen.
      destruct (lookup_lt_is_Some_2 ch k ltac:(lia)) as [v Hv].
      rewrite (get_lookup chs _ j' ch) by (lia || assumption). cbn [bind].
      rewrite (get_lookup ch _ k v) by (lia || assumption). cbn [bind].
      rewrite (wrap_small ((0 + Z.of_nat k) * Z.of_nat nc)) by (apply in_range_bounds; nia).
      rewrite wrap_small by (apply in_range_bounds; nia).
      rewrite (set_insert b _ (k * nc + j')%nat v) by nia.
      eexists. split; [reflexivity|].
      split; [rewrite length_insert; assumption|]. split.
      * intros i j ch' Hi Hj.
        assert ((j < nc)%nat) by (eapply lookup_lt_Some; eassumption).
        rewrite list_lookup_insert_ne by nia. apply Hold; assumption.
      * intros j ch' Hj Hchj. destruct (Nat.eq_dec j j') as [->|Hne].
        -- rewrite list_lookup_insert_eq by nia. congruence.
        -- rewrite list_lookup_insert_ne by lia. apply Hnew; [lia | assumption].
Qed.

(** X10.  [Multiplex] panics without a channel.  When no channel is shorter
    than the first one, it returns [numChans * chanLen] samples, sample
    [i] of channel [j] at position [i * numChans + j]; [chanLen] is the
    length of the first channel, and what longer channels hold beyond it is
    left out. *)
Theorem Multiplex_spec (c0 : list float64) (channels : list (list float64)) :
  Forall (fun ch => length c0 <= length ch)%nat channels ->
  len (c0 :: channels) * len c0 <= Int.max_int ->
  Multiplex [] = Panic /\
  exists buf, Multiplex (c0 :: channels) = Ok buf /\
    length buf = (length (c0 :: channels) * length c0)%nat /\
    forall i j ch, (i < length c0)%nat -> (c0 :: channels) !! j = Some ch ->
      buf !! (i * length (c0 :: channels) + j)%nat = ch !! i.
Proof.
  intros Hall Hmax. split; [reflexivity|]. apply Multiplex_ok; assumption.
Qed.

Lemma Multiplex_spec_witness :
  Forall (fun ch => length sample_chan_a <= length ch)%nat
    [sample_chan_b; sample_chan_c] /\
  len [sample_chan_a; sample_chan_b; sample_chan_c] * len sample_chan_a
    <= Int.max_int /\
  Multiplex [] = Panic /\
  exists buf,
    Multiplex [sample_chan_a; sample_chan_b; sample_chan_c] = Ok buf /\
    length buf = (3 * 3)%nat /\
    forall i j ch, (i < 3)%nat ->
      [sample_chan_a; sample_chan_b; sample_chan_c] !! j = Some ch ->
      buf !! (i * 3 + j)%nat = ch !! i.
Proof.
  assert (H : Forall (fun ch => length sample_chan_a <= length ch)%nat
                [sample_chan_b; sample_chan_c])
    by (repeat constructor).
  split; [exact H|]. split; [vm_compute; discriminate|].
  apply (Multiplex_spec sample_chan_a [sample_chan_b; sample_chan_c] H).
  vm_compute. discriminate.
Defined.

(** X11.  [split] undoes [Multiplex] on two channels of equal length: the
    interleaved samples come back as the first channel followed by the
    second. *)
Theorem split_Multiplex (a b : list float64) :
  length a = length b -> 2 * len a <= Int.max_int ->
  (do buf <- Multiplex [a; b]; split buf) = Ok (a ++ b).
Proof.
  intros Hab Hmax.
  destruct (Multiplex_ok a [b]) as (buf & Hrun & Hlen & Hval).
  { constructor; [lia | constructor]. }
  { exact Hmax. }
  cbn [length] in Hlen, Hval.
  rewrite Hrun. cbn [bind].
  rewrite (split_ok buf (length a)) by lia. f_equal. unfold split_spec.
  f_equal.
  - apply list_eq. intros i. rewrite lookup_evens.
    destruct (Nat.lt_ge_cases i (length a)) as [Hi|Hi].
    + rewrite <- (Hval i 0%nat a Hi eq_refl). f_equal. lia.
    + rewrite !lookup_ge_None_2 by lia. reflexivity.
  - apply list_eq. intros i. rewrite lookup_odds.
    destruct (Nat.lt_ge_cases i (length a)) as [Hi|Hi].
    + rewrite <- (Hval i 1%nat b Hi eq_refl). f_equal. lia.
    + rewrite !lookup_ge_None_2 by lia. reflexivity.
Qed.

Lemma split_Multiplex_witness :
  length sample_chan_a = length sample_chan_b /\
  2 * len sample_chan_a <= Int.max_int /\
  (do buf <- Multiplex [sample_chan_a; sample_chan_b]; split buf)
  = Ok (sample_chan_a ++ sample_chan_b).
Proof.
  split; [reflexivity|]. split; [vm_compute; discriminate|].
  apply (split_Multiplex sample_chan_a sample_chan_b);
    [reflexivity | vm_compute; discriminate].
Defined.

(** ** The passes over the sections *)

Lemma lifting_spec_length w : length (lifting_spec w) = length w.
Proof.
  unfold lifting_spec.
  rewrite normalise_spec_length, update2_spec_length, predict_spec_length,
    update1_spec_length. reflexivity.
Qed.

Lemma split_spec_length (w : list float64) h :
  length w = (2 * h)%nat -> length (split_spec w) = length w.
Proof.
  intros Hw. unfold split_spec.
  rewrite length_app, (length_evens w h), (length_odds w h) by assumption. lia.
Qed.

Lemma transform_pass_ok (w : list float64) h :
  length w = (2 * h)%nat -> (1 <= h)%nat ->
  transform_pass w = Ok (lifting_spec (split_spec w)).
Proof.
  intros Hw Hh. unfold transform_pass.
  rewrite (split_ok w h Hw). cbn [bind].
  apply (daubechies4_ok _ h); [|assumption].
  rewrite (split_spec_length w h); assumption.
Qed.

Lemma split_spec_length_any (w : list float64) :
  length (split_spec w) = length w.
Proof.
  unfold split_spec. rewrite length_app.
  induction w as [| |x y l IH] using pairs_ind; [reflexivity | reflexivity|].
  rewrite evens_cons2, odds_cons2. cbn [length]. lia.
Qed.

Lemma lift_levels_length count : forall w, length (lift_levels count w) = length w.
Proof.
  induction count as [|c IH]; intros w; [reflexivity|].
  cbn [lift_levels]. rewrite length_app, IH, length_take, length_drop.
  rewrite lifting_spec_length, split_spec_length_any.
  assert (length w / 2 <= length w)%nat by (apply Nat.Div0.div_le_upper_bound; lia).
  lia.
Qed.

Lemma pow2_half j : 1 <= j -> 2 ^ j = 2 * 2 ^ (j - 1).
Proof. intros Hj. rewrite <- Z.pow_succ_r by lia. f_equal. lia. Qed.

Lemma pow2_pos j : 0 <= j -> 0 < 2 ^ j.
Proof. intros. apply Z.pow_pos_nonneg; lia. Qed.

(** The passes over one section: nothing fails, and only the window of the
    section changes. *)
Lemma section_passes_ok count : forall (j : Z) sec buf,
  Z.of_nat count <= j -> 0 <= start sec ->
  start sec + 2 ^ j <= len buf -> len buf <= Int.max_int ->
  section_passes count sec (2 ^ j) buf =
  Ok (take (Z.to_nat (start sec)) buf
      ++ lift_levels count (take (Z.to_nat (2 ^ j)) (drop (Z.to_nat (start sec)) buf))
      ++ drop (Z.to_nat (start sec + 2 ^ j)) buf).
Proof.
  induction count as [|c IH]; intros j sec buf Hj Ha Hb Hmax.
  - cbn [section_passes lift_levels]. f_equal.
    pose proof (pow2_pos j ltac:(lia)).
    rewrite Z2Nat.inj_add, <- drop_drop by lia.
    rewrite take_drop, take_drop. reflexivity.
  - unfold Int.max_int in Hmax.
    pose proof (pow2_pos j ltac:(lia)) as Hp.
    pose proof (pow2_pos (j - 1) ltac:(lia)) as Hp'.
    pose proof (pow2_half j ltac:(lia)) as Hhalf.
    set (a := start sec) in *. set (sz := 2 ^ j) in *.
    cbn [section_passes]. fold a.
    rewrite wrap_small by (apply in_range_bounds; lia).
    set (w := take (Z.to_nat sz) (drop (Z.to_nat a) buf)).
    assert (Hw : length w = Z.to_nat sz).
    { subst w. rewrite length_take, length_drop. unfold len in Hb. lia. }
    assert (Hslice : slice buf a (a + sz) = Ok w).
    { rewrite slice_ok by lia. subst w. do 2 f_equal. lia. }
    assert (Hwh : length w = (2 * Z.to_nat (2 ^ (j - 1)))%nat) by lia.
    pose proof (pass_on_window buf a (a + sz) w Hslice
                  ltac:(exists (Z.to_nat (2 ^ (j - 1))); lia)) as Hpass.
    set (w1 := lifting_spec (split_spec w)).
    assert (Hw1 : length w1 = Z.to_nat sz).
    { subst w1. rewrite lifting_spec_length, split_spec_length_any. exact Hw. }
    assert (Hwin : on_window transform_pass buf a (a + sz) =
                   Ok (take (Z.to_nat a) buf ++ w1 ++ drop (Z.to_nat (a + sz)) buf)).
    { unfold on_window. rewrite Hslice. cbn [bind].
      rewrite (transform_pass_ok w (Z.to_nat (2 ^ (j - 1)))) by lia.
      reflexivity. }
    rewrite Hwin in Hpass.
    set (buf1 := take (Z.to_nat a) buf ++ w1 ++ drop (Z.to_nat (a + sz)) buf) in *.
    transitivity (section_passes c sec (Int.half sz) buf1).
    { destruct (on_window split buf a (a + sz)) as [b1| |]; try discriminate Hpass.
      cbn [bind] in Hpass |- *. rewrite Hpass. reflexivity. }
    assert (Hhz : Int.half sz = 2 ^ (j - 1)).
    { rewrite half_div by lia. subst sz. rewrite Hhalf.
      rewrite Z.mul_comm, Z.div_mul by lia. reflexivity. }
    assert (Hta : length (take (Z.to_nat a) buf) = Z.to_nat a).
    { rewrite length_take. unfold len in Hb. lia. }
    assert (Hlen1 : len buf1 = len buf).
    { unfold len. subst buf1. rewrite !length_app, Hta, Hw1, length_drop.
      unfold len in Hb. lia. }
    rewrite Hhz, IH by (fold a; unfold Int.max_int; lia). fold a. f_equal.
    assert (Hh : (length w / 2)%nat = Z.to_nat (2 ^ (j - 1))).
    { rewrite Hwh. rewrite Nat.mul_comm, Nat.div_mul by lia. reflexivity. }
    assert (H1 : take (Z.to_nat a) buf1 = take (Z.to_nat a) buf).
    { subst buf1. rewrite take_app_length' by (symmetry; exact Hta). reflexivity. }
    assert (H2 : drop (Z.to_nat a) buf1 = w1 ++ drop (Z.to_nat (a + sz)) buf).
    { subst buf1. rewrite drop_app_length' by (symmetry; exact Hta). reflexivity. }
    assert (H3 : take (Z.to_nat (2 ^ (j - 1))) (drop (Z.to_nat a) buf1) =
                 take (Z.to_nat (2 ^ (j - 1))) w1).
    { rewrite H2. apply take_app_le. lia. }
    assert (H4 : drop (Z.to_nat (a + 2 ^ (j - 1))) buf1 =
                 drop (Z.to_nat (2 ^ (j - 1))) w1 ++ drop (Z.to_nat (a + sz)) buf).
    { rewrite Z2Nat.inj_add, <- drop_drop, H2 by lia.
      apply drop_app_le. lia. }
    rewrite H1, H3, H4. cbn [lift_levels]. fold w w1. rewrite Hh.
    rewrite <- !app_assoc. reflexivity.
Qed.

Lemma Greedy_fits N level : forall st ss,
  0 <= level -> 0 <= st -> Greedy N level st ss ->
  Forall (section_fits N level) ss.
Proof.
  intros st ss Hl Hst HG. induction HG as [st Hstop | st ss Hge HG IH].
  - constructor.
  - assert (Hpow : 64 * 2 ^ level = 2 ^ (6 + level)).
    { rewrite Z.pow_add_r by lia. reflexivity. }
    pose proof (pow2_pos (6 + level) ltac:(lia)) as Hp.
    assert (Hr : 0 < N - st) by lia.
    destruct (Z.log2_spec (N - st) Hr) as [Hlo Hhi].
    constructor.
    + exists (Z.log2 (N - st)). cbn [start size].
      split; [|split; [reflexivity | lia]].
      rewrite <- (Z.log2_pow2 (6 + level)) by lia.
      apply Z.log2_le_mono. lia.
    + apply IH. pose proof (pow2_pos (Z.log2 (N - st)) (Z.log2_nonneg _)). lia.
Qed.

(** The loop of [Daubechies4] over contiguous sections: the buffer is the
    transformed sections followed by the samples not reached yet. *)
Lemma sections_passes_ok (s : list float64) (level : Z) : forall secs i0 st done,
  0 <= level -> len s <= Int.max_int ->
  contiguous st secs -> Forall (section_fits (len s) level) secs ->
  length done = Z.to_nat st -> 0 <= st <= len s ->
  range_loop i0 secs
    (fun _ sec buf => section_passes (Z.to_nat level) sec (size sec) buf)
    (done ++ drop (Z.to_nat st) s) =
  Ok (done
      ++ flat_map (fun sec => lift_levels (Z.to_nat level) (window s sec)) secs
      ++ drop (Z.to_nat (st + total_size secs)) s).
Proof.
  intros secs.
  induction secs as [|sec secs IH]; intros i0 st done Hl Hmax Hc Hf Hd Hst.
  - cbn. rewrite Z.add_0_r. reflexivity.
  - destruct Hc as (Hs & Hpos & Hc). apply Forall_cons in Hf as [(k & Hk & Hsz & Ha & Hb) Hf].
    cbn [range_loop flat_map]. pose proof Hmax as Hmax'. unfold Int.max_int in Hmax'.
    assert (Hlen : len (done ++ drop (Z.to_nat st) s) = len s).
    { unfold len in *. rewrite length_app, length_drop. lia. }
    rewrite Hsz, section_passes_ok by (rewrite ?Hlen; unfold Int.max_int; lia).
    cbn [bind]. rewrite Hs in *.
    rewrite take_app_length' by lia.
    rewrite drop_app_length' by lia.
    assert (Hdrop : drop (Z.to_nat (st + 2 ^ k)) (done ++ drop (Z.to_nat st) s)
                    = drop (Z.to_nat (st + size sec)) s).
    { rewrite Hsz. rewrite (Z2Nat.inj_add st) by lia.
      rewrite <- drop_drop, drop_app_length' by lia.
      rewrite drop_drop. reflexivity. }
    rewrite Hdrop.
    assert (Hwin : take (Z.to_nat (2 ^ k)) (drop (Z.to_nat st) s) = window s sec).
    { unfold window. rewrite Hs, Hsz. reflexivity. }
    rewrite Hwin.
    set (L := lift_levels (Z.to_nat level) (window s sec)).
    assert (HL : length L = Z.to_nat (size sec)).
    { subst L. rewrite lift_levels_length. unfold window.
      rewrite length_take, length_drop. unfold len in Hb. lia. }
    replace (done ++ L ++ drop (Z.to_nat (st + size sec)) s)
      with ((done ++ L) ++ drop (Z.to_nat (st + size sec)) s)
      by (rewrite <- app_assoc; reflexivity).
    rewrite (IH (i0 + 1) (st + size sec)); try assumption; try lia.
    + rewrite <- !app_assoc.
      change (total_size (sec :: secs)) with (size sec + total_size secs).
      rewrite Z.add_assoc. reflexivity.
    + rewrite length_app. lia.
Qed.

Lemma Daubechies4_ok (s : list float64) (lvl : Z) :
  0 <= lvl <= 56 -> len s <= Int.max_int ->
  exists secs,
    getTransformSections (len s) lvl = Ok secs /\
    Daubechies4 s lvl =
    Ok {| st := flat_map (fun sec => lift_levels (Z.to_nat lvl) (window s sec)) secs
                ++ drop (Z.to_nat (total_size secs)) s;
          level := lvl; sections := secs |}.
Proof.
  intros Hl Hmax. unfold Int.max_int in Hmax.
  assert (HN : len s < 2 ^ 63) by lia.
  destruct (sections_loop_spec lvl Hl (len s) HN (Z.to_nat (len s) + 2) 0 [])
    as (secs & Hrun & HG & Hc & _ & Htot); [unfold len; lia | lia |].
  cbn [app] in Hrun. exists secs. split; [exact Hrun|].
  unfold Daubechies4. unfold getTransformSections. rewrite Hrun. cbn [bind].
  assert (Hfit : Forall (section_fits (len s) lvl) secs)
    by (apply (Greedy_fits _ _ 0); [lia | lia | exact HG]).
  assert (Hloop := sections_passes_ok s lvl secs 0 0 []).
  specialize (Hloop ltac:(lia) ltac:(unfold Int.max_int; lia) Hc Hfit eq_refl
                ltac:(unfold len; lia)).
  cbn [app] in Hloop. change (Z.to_nat 0) with 0%nat in Hloop.
  rewrite drop_0 in Hloop. rewrite Hloop. cbn [bind]. reflexivity.
Qed.

Lemma Daubechies4_returns (s : list float64) (lvl : Z) :
  0 <= lvl <= 56 -> len s <= Int.max_int ->
  exists t, Daubechies4 s lvl = Ok t.
Proof.
  intros Hl Hmax. destruct (Daubechies4_ok s lvl Hl Hmax) as (secs & _ & E).
  eexists. exact E.
Qed.

(** X12.  For every level from 0 to 56 [Daubechies4] returns: the sections
    are those of [getTransformSections], the window of each section holds
    the result of [level] passes (one over the whole window, the next over
    its front half, and so on) computed from the samples of that section
    alone, and the samples behind the last section are returned as they
    came. *)
Theorem Daubechies4_spec (s : list float64) (lvl : Z) :
  0 <= lvl <= 56 -> len s <= Int.max_int ->
  exists secs,
    getTransformSections (len s) lvl = Ok secs /\
    Daubechies4 s lvl =
    Ok {| st := flat_map (fun sec => lift_levels (Z.to_nat lvl) (window s sec)) secs
                ++ drop (Z.to_nat (total_size secs)) s;
          level := lvl; sections := secs |}.
Proof. apply Daubechies4_ok. Qed.

Lemma Daubechies4_spec_witness :
  0 <= 2 <= 56 /\ len sample_ramp <= Int.max_int /\
  exists secs,
    getTransformSections (len sample_ramp) 2 = Ok secs /\
    Daubechies4 sample_ramp 2 =
    Ok {| st := flat_map (fun sec => lift_levels (Z.to_nat 2) (window sample_ramp sec)) secs
                ++ drop (Z.to_nat (total_size secs)) sample_ramp;
          level := 2; sections := secs |}.
Proof.
  split; [lia|]. split; [vm_compute; discriminate|].
  apply (Daubechies4_spec sample_ramp 2); [lia | vm_compute; discriminate].
Defined.

(** ** More on the sections *)

Lemma threshold_pow level : 0 <= level -> 64 * 2 ^ level = 2 ^ (6 + level).
Proof. intros. rewrite Z.pow_add_r by lia. reflexivity. Qed.

Lemma Greedy_remainder N level : forall st ss,
  0 <= level -> 0 <= st <= N -> Greedy N level st ss ->
  N - (st + total_size ss) = (N - st) mod (64 * 2 ^ level).
Proof.
  intros st ss Hl Hst HG. induction HG as [st Hstop | st ss Hge HG IH].
  - cbn. rewrite Z.mod_small by lia. lia.
  - pose proof (pow2_pos (6 + level) ltac:(lia)) as Hp.
    rewrite threshold_pow in * by lia.
    assert (Hr : 0 < N - st) by lia.
    destruct (Z.log2_spec (N - st) Hr) as [Hlo Hhi].
    set (k := Z.log2 (N - st)) in *.
    assert (Hk : 6 + level <= k).
    { subst k. rewrite <- (Z.log2_pow2 (6 + level)) by lia.
      apply Z.log2_le_mono. lia. }
    change (total_size (mkSection st (2 ^ k) :: ss)) with (2 ^ k + total_size ss).
    rewrite Z.add_assoc, IH by lia.
    replace (2 ^ k) with (2 ^ (k - (6 + level)) * 2 ^ (6 + level))
      by (rewrite <- Z.pow_add_r by lia; f_equal; lia).
    replace (N - (st + 2 ^ (k - (6 + level)) * 2 ^ (6 + level)))
      with (N - st + (- 2 ^ (k - (6 + level))) * 2 ^ (6 + level)) by lia.
    apply Z_mod_plus_full.
Qed.

Lemma Greedy_size_le N level : forall st ss,
  0 <= level -> Greedy N level st ss -> Forall (fun s => size s <= N - st) ss.
Proof.
  intros st ss Hl HG. induction HG as [st Hstop | st ss Hge HG IH]; [constructor|].
  pose proof (pow2_pos level Hl) as Hp.
  destruct (Z.log2_spec (N - st) ltac:(lia)) as [Hlo Hhi].
  pose proof (pow2_pos (Z.log2 (N - st)) (Z.log2_nonneg _)) as Hsz.
  constructor; [cbn [size]; lia|].
  eapply Forall_impl; [exact IH|]. cbn beta. intros s Hs. lia.
Qed.

Lemma Greedy_decreasing N level : forall st ss,
  0 <= level -> Greedy N level st ss ->
  StronglySorted (fun a b => size b < size a) ss.
Proof.
  intros st ss Hl HG. induction HG as [st Hstop | st ss Hge HG IH]; [constructor|].
  pose proof (pow2_pos level Hl) as Hp.
  destruct (Z.log2_spec (N - st) ltac:(lia)) as [Hlo Hhi].
  constructor; [exact IH|].
  eapply Forall_impl; [exact (Greedy_size_le _ _ _ _ Hl HG)|].
  cbn beta. intros s Hs. cbn [size].
  rewrite Z.pow_succ_r in Hhi by apply Z.log2_nonneg. lia.
Qed.

(** X13.  For levels 0 to 56 and lengths [0 <= N < 2^49 - 1] (the lengths
    on which [Log2] is the integer logarithm) the sections of
    [getTransformSections] cover [N] up to its remainder modulo the
    minimal section length [64 * 2^level], and their sizes are strictly
    decreasing. *)
Theorem getTransformSections_total N lvl :
  0 <= lvl <= 56 -> 0 <= N < 2 ^ 49 - 1 ->
  exists ss, getTransformSections N lvl = Ok ss /\
    total_size ss = N - N mod (64 * 2 ^ lvl) /\
    StronglySorted (fun a b => size b < size a) ss.
Proof.
  intros Hl HN.
  destruct (sections_loop_spec lvl Hl N ltac:(lia) (Z.to_nat N + 2) 0 [])
    as (ss & Hrun & HG & _); [lia | lia |].
  exists ss. split; [exact Hrun|]. split.
  - pose proof (Greedy_remainder N lvl 0 ss ltac:(lia) ltac:(lia) HG) as Hr.
    rewrite Z.sub_0_r in Hr. lia.
  - apply (Greedy_decreasing N lvl 0); [lia | exact HG].
Qed.

(** The case the package's test checks: 1315840 samples at level 4 are
    covered entirely. *)
Lemma getTransformSections_total_witness :
  0 <= 4 <= 56 /\ 0 <= 1315840 < 2 ^ 49 - 1 /\
  exists ss, getTransformSections 1315840 4 = Ok ss /\
    total_size ss = 1315840 - 1315840 mod (64 * 2 ^ 4) /\
    StronglySorted (fun a b => size b < size a) ss.
Proof.
  split; [lia|]. split; [lia|].
  apply (getTransformSections_total 1315840 4); lia.
Defined.

(** ** Levels outside 0..56 *)

Lemma threshold_wraps level :
  56 < level < Int.max_int ->
  exists p, Pow2 level = Ok p /\ Int.wrap (64 * p) <= 0.
Proof.
  intros Hl. rewrite Pow2_cases.
  destruct (Z.ltb_spec level 0); [lia|].
  destruct (Z.leb_spec level 62).
  - exists (2 ^ level). split; [reflexivity|].
    assert (level = 57 \/ level = 58 \/ level = 59 \/ level = 60
            \/ level = 61 \/ level = 62) as Hc by lia.
    destruct Hc as [->|[->|[->|[->|[->| ->]]]]]; vm_compute; discriminate.
  - destruct (Z.eqb_spec level 63).
    + eexists. split; [reflexivity|]. vm_compute. discriminate.
    + destruct (Z.ltb_spec level Int.max_int); [|lia].
      eexists. split; [reflexivity|]. vm_compute. discriminate.
Qed.

Lemma sections_loop_panics N level p :
  Pow2 level = Ok p -> Int.wrap (64 * p) <= 0 -> N < 2 ^ 63 ->
  forall fuel st acc,
    0 <= st <= N -> (Z.to_nat (N - st) < fuel)%nat ->
    sections_loop fuel N level st acc = Panic.
Proof.
  intros Hp Hthr HN.
  induction fuel as [|fuel IH]; intros st acc Hst Hfuel; [lia|].
  cbn [sections_loop]. rewrite Hp. cbn [bind].
  rewrite (wrap_small (N - st)) by (apply in_range_bounds; lia).
  destruct (Z.geb_spec (N - st) (Int.wrap (64 * p))) as [_|Hlt]; [|lia].
  destruct (Z.eq_dec (N - st) 0) as [H0|H0].
  - rewrite H0. reflexivity.
  - pose proof (log2_int_bound (N - st) ltac:(lia)) as Hlog.
    pose proof (Z.log2_spec (N - st) ltac:(lia)) as [Hlo _].
    rewrite Log2_pos by lia. rewrite Pow2_small by lia. cbn [bind].
    pose proof (pow2_pos (Z.log2 (N - st)) ltac:(lia)) as Hsz.
    rewrite wrap_small by (apply in_range_bounds; lia).
    apply IH; lia.
Qed.

Lemma Daubechies4_outside (s : list float64) (lvl : Z) :
  len s <= Int.max_int -> lvl < 0 \/ 56 < lvl ->
  Daubechies4 s lvl = if lvl <? Int.max_int then Panic else OutOfFuel.
Proof.
  intros Hmax Hl. unfold Int.max_int in Hmax.
  unfold Daubechies4, getTransformSections.
  destruct (Z.ltb_spec lvl Int.max_int) as [Hlt|Hge].
  - destruct Hl as [Hneg|Hbig].
    + replace (Z.to_nat (len s) + 2)%nat with (S (Z.to_nat (len s) + 1)) by lia.
      cbn [sections_loop]. rewrite Pow2_negative by assumption. reflexivity.
    + destruct (threshold_wraps lvl (conj Hbig Hlt)) as (p & Hp & Hthr).
      rewrite (sections_loop_panics (len s) lvl p Hp Hthr); [reflexivity | lia | |lia].
      unfold len. lia.
  - replace (Z.to_nat (len s) + 2)%nat with (S (Z.to_nat (len s) + 1)) by lia.
    cbn [sections_loop]. rewrite Pow2_max_int by assumption. reflexivity.
Qed.

(** X14.  Outside the levels 0 to 56 [Daubechies4] returns nothing, on
    every slice (of fewer than [2^49 - 1] samples, the lengths on which
    [Log2] is the integer logarithm).  Below 0 it panics in [Pow2]; from
    57 up to the [int] before the maximal one the threshold
    [64 * Pow2(level)] is zero or negative in [int] arithmetic, the loop of
    [getTransformSections] runs until nothing remains and then panics in
    [Pow2], called with the logarithm of 0.  At the maximal [int] the
    first call [Pow2(level)] never returns, and neither does
    [Daubechies4]. *)
Theorem Daubechies4_level_out_of_range (s : list float64) (lvl : Z) :
  len s < 2 ^ 49 - 1 -> lvl < 0 \/ 56 < lvl ->
  Daubechies4 s lvl = (if lvl <? Int.max_int then Panic else OutOfFuel)
  /\ (Int.max_int <= lvl -> forall fuel, pow2_loop fuel lvl 1 1 = OutOfFuel).
Proof.
  intros Hlen Hl. split.
  - apply Daubechies4_outside; [unfold Int.max_int; lia | exact Hl].
  - intros Hmax fuel. apply pow2_loop_diverges; [exact Hmax|].
    apply in_range_bounds. lia.
Qed.

(** On 300 samples: a panic at level 57, no return at the maximal level. *)
Lemma Daubechies4_level_out_of_range_witness :
  (len sample_ramp < 2 ^ 49 - 1 /\ (57 < 0 \/ 56 < 57) /\
   Daubechies4 sample_ramp 57 = Panic)
  /\ (len sample_ramp < 2 ^ 49 - 1
      /\ (Int.max_int < 0 \/ 56 < Int.max_int) /\
      Daubechies4 sample_ramp Int.max_int = OutOfFuel
      /\ forall fuel, pow2_loop fuel Int.max_int 1 1 = OutOfFuel).
Proof.
  assert (H : len sample_ramp < 2 ^ 49 - 1) by (vm_compute; reflexivity).
  assert (H57 : 57 < 0 \/ 56 < 57) by (right; lia).
  assert (Hmax : Int.max_int < 0 \/ 56 < Int.max_int)
    by (right; vm_compute; reflexivity).
  split; (split; [exact H|]).
  - split; [exact H57|].
    exact (proj1 (Daubechies4_level_out_of_range sample_ramp 57 H H57)).
  - split; [exact Hmax|].
    destruct (Daubechies4_level_out_of_range sample_ramp Int.max_int H Hmax)
      as [Hrun Hdiv].
    split; [exact Hrun|]. apply Hdiv. lia.
Defined.

Lemma pow2_quot K i : 0 <= i <= K -> 2 ^ K / 2 ^ i = 2 ^ (K - i).
Proof. intros. rewrite Z.pow_sub_r by lia. reflexivity. Qed.

Lemma getSectionCoefficients_ok t sec :
  0 <= level t -> len (st t) <= Int.max_int ->
  section_fits (len (st t)) (level t) sec ->
  getSectionCoefficients t sec =
  Ok (map (band (st t) sec) (List.seq 0 (Z.to_nat (level t)))).
Proof.
  intros Hl Hmax (K & HK & Hsz & Ha & Hb). unfold Int.max_int in Hmax.
  unfold getSectionCoefficients. rewrite make_nonneg by assumption. cbn [bind].
  set (L := Z.to_nat (level t)).
  pose (P := fun (k : nat) (s : Z * list (list float64)) =>
    fst s = 2 ^ (K - 1 - Z.of_nat k) /\ length (snd s) = L /\
    forall i, (i < k)%nat -> snd s !! i = Some (band (st t) sec i)).
  match goal with
  | |- (do ' (_, cfs) <- ?run; Ok cfs) = _ =>
      enough (exists s, run = Ok s /\ P L s) as ([half cfs] & Hrun & _ & Hlen & Hval)
  end.
  { rewrite Hrun. cbn [bind]. f_equal. cbn [snd] in Hlen, Hval.
    apply list_eq. intros i. destruct (Nat.lt_ge_cases i L) as [Hi|Hi].
    - rewrite Hval by assumption. rewrite list_lookup_fmap, lookup_seq_lt by assumption.
      reflexivity.
    - rewrite !lookup_ge_None_2; [reflexivity | | lia].
      rewrite length_map, length_seq. lia. }
  apply (for_range_count P L); [lia | |].
  - split; [|split; [apply length_replicate | intros; lia]].
    cbn [fst]. rewrite Hsz, half_div by (apply Z.lt_le_incl, pow2_pos; lia).
    change 2 with (2 ^ 1) at 2. rewrite pow2_quot by lia. f_equal. lia.
  - intros k [half cfs] Hk (Hh & Hlen & Hval). cbn [fst snd] in Hh, Hlen, Hval.
    assert (HkK : 0 <= K - 1 - Z.of_nat k) by lia.
    pose proof (pow2_pos _ HkK) as Hp.
    assert (H2h : 2 * half = 2 ^ (K - Z.of_nat k)).
    { rewrite Hh, <- Z.pow_succ_r by lia. f_equal. lia. }
    assert (Hle : 2 ^ (K - Z.of_nat k) <= 2 ^ K) by (apply pow2_le_mono; lia).
    rewrite (wrap_small (2 * half)) by (apply in_range_bounds; lia).
    rewrite !wrap_small by (apply in_range_bounds; lia).
    rewrite slice_ok by lia. cbn [bind].
    rewrite (set_insert cfs _ k) by lia. cbn [bind].
    eexists. split; [reflexivity|]. split; [|split].
    + cbn [fst]. rewrite half_div, Hh by lia.
      change 2 with (2 ^ 1) at 2. rewrite pow2_quot by lia. f_equal. lia.
    + cbn [snd]. rewrite length_insert. exact Hlen.
    + cbn [snd]. intros i Hi. destruct (Nat.eq_dec i k) as [->|Hne].
      * rewrite list_lookup_insert_eq by lia. f_equal. unfold band.
        rewrite Hsz, pow2_quot by lia.
        replace (K - (Z.of_nat k + 1)) with (K - 1 - Z.of_nat k) by lia.
        rewrite <- Hh. cbv zeta. do 2 f_equal. lia.
      * rewrite list_lookup_insert_ne by lia. apply Hval. lia.
Qed.

(** The inner loops of [GetCoefficients] and [GetDownSampledCoefficients]:
    position [k] of the accumulator gets [G k] appended. *)
Lemma append_loop {X : Type} (G : nat -> list float64)
    (body : Z -> X -> list (list float64) -> result (list (list float64)))
    (xs : list X) (cfs : list (list float64)) :
  (forall k x cur old, xs !! k = Some x -> cur !! k = Some old ->
     body (Z.of_nat k) x cur = Ok (<[k := old ++ G k]> cur)) ->
  length xs = length cfs ->
  range_loop 0 xs body cfs = Ok (imap (fun k old => old ++ G k) cfs).
Proof.
  intros Hbody Hlen.
  destruct (range_loop_total
    (fun j cur => length cur = length cfs /\
       forall k old, cfs !! k = Some old ->
         cur !! k = Some (if (k <? j)%nat then old ++ G k else old))
    body xs 0 cfs) as (cur & Hrun & Hl & Hval).
  - split; [reflexivity|]. intros k old Hk. exact Hk.
  - intros j x cur Hj [Hl Hval].
    assert (Hjl : (j < length cfs)%nat) by (rewrite <- Hlen; eapply lookup_lt_Some; eassumption).
    destruct (lookup_lt_is_Some_2 cfs j Hjl) as [old Hold].
    pose proof (Hval j old Hold) as Hcur. rewrite Nat.ltb_irrefl in Hcur.
    rewrite Z.add_0_l, (Hbody j x cur old Hj Hcur).
    eexists. split; [reflexivity|]. split; [rewrite length_insert; exact Hl|].
    intros k old' Hk. destruct (Nat.eq_dec k j) as [->|Hne].
    + rewrite list_lookup_insert_eq by lia.
      replace old' with old by congruence.
      destruct (Nat.ltb_spec j (S j)); [reflexivity | lia].
    + rewrite list_lookup_insert_ne by lia. rewrite (Hval k old' Hk).
      destruct (Nat.ltb_spec k j), (Nat.ltb_spec k (S j)); (reflexivity || lia).
  - rewrite Hrun. f_equal. apply list_eq. intros k.
    rewrite list_lookup_imap. destruct (cfs !! k) as [old|] eqn:Hk.
    + rewrite (Hval k old Hk).
      assert (k < length xs)%nat by (rewrite Hlen; eapply lookup_lt_Some; eassumption).
      destruct (Nat.ltb_spec k (length xs)); [reflexivity | lia].
    + cbn. apply lookup_ge_None_2. apply lookup_ge_None_1 in Hk. lia.
Qed.

Lemma imap_map_seq (f : nat -> list float64) (G : nat -> list float64) n :
  imap (fun k old => old ++ G k) (map f (List.seq 0 n)) =
  map (fun k => f k ++ G k) (List.seq 0 n).
Proof.
  apply list_eq. intros k. rewrite list_lookup_imap, !list_lookup_fmap.
  destruct (Nat.lt_ge_cases k n) as [Hk|Hk].
  - rewrite lookup_seq_lt by assumption. reflexivity.
  - rewrite lookup_seq_ge by assumption. reflexivity.
Qed.

Lemma coefficients_loop t : forall secs i0 (f : nat -> list float64),
  0 <= level t -> len (st t) <= Int.max_int ->
  Forall (section_fits (len (st t)) (level t)) secs ->
  range_loop i0 secs
    (fun _ s cfs =>
       do scfs <- getSectionCoefficients t s;
       range_loop 0 scfs
         (fun i c cfs => do old <- get cfs i; set cfs i (old ++ c)) cfs)
    (map f (List.seq 0 (Z.to_nat (level t)))) =
  Ok (map (fun i => f i ++ flat_map (fun sec => band (st t) sec i) secs)
        (List.seq 0 (Z.to_nat (level t)))).
Proof.
  induction secs as [|sec secs IH]; intros i0 f Hl Hmax Hfit.
  - cbn [range_loop flat_map]. f_equal. apply map_ext. intros. rewrite app_nil_r. reflexivity.
  - apply Forall_cons in Hfit as [Hsec Hfit]. cbn [range_loop].
    rewrite getSectionCoefficients_ok by assumption. cbn [bind].
    rewrite (append_loop (band (st t) sec)).
    + cbn [bind]. rewrite imap_map_seq, IH by assumption. f_equal.
      apply map_ext. intros i. cbn [flat_map]. rewrite app_assoc. reflexivity.
    + intros k x cur old Hx Hold.
      rewrite list_lookup_fmap in Hx.
      destruct (List.seq 0 (Z.to_nat (level t)) !! k) as [k'|] eqn:Hk; [|discriminate].
      apply lookup_seq in Hk as [-> _]. cbn in Hx. injection Hx as <-.
      rewrite (get_lookup cur _ k old) by (reflexivity || assumption). cbn [bind].
      apply set_insert; [reflexivity|]. eapply lookup_lt_Some; eassumption.
    + rewrite !length_map. reflexivity.
Qed.

Lemma replicate_nil_map n :
  replicate n ([] : list float64) = map (fun _ => []) (List.seq 0 n).
Proof.
  apply list_eq. intros k. rewrite list_lookup_fmap.
  destruct (Nat.lt_ge_cases k n) as [Hk|Hk].
  - rewrite lookup_replicate_2, lookup_seq_lt by assumption. reflexivity.
  - rewrite lookup_seq_ge by assumption. apply lookup_ge_None_2.
    rewrite length_replicate. lia.
Qed.

Lemma GetCoefficients_ok t :
  0 <= level t -> len (st t) <= Int.max_int ->
  Forall (section_fits (len (st t)) (level t)) (sections t) ->
  GetCoefficients t =
  Ok (map (fun i => flat_map (fun sec => band (st t) sec i) (sections t))
        (List.seq 0 (Z.to_nat (level t)))).
Proof.
  intros Hl Hmax Hfit. unfold GetCoefficients.
  rewrite make_nonneg by assumption. cbn [bind].
  rewrite replicate_nil_map, coefficients_loop by assumption. reflexivity.
Qed.

(** ** What [Daubechies4] returns is well formed *)

Lemma Daubechies4_Ok_level (s : list float64) lvl t :
  len s <= Int.max_int -> Daubechies4 s lvl = Ok t -> 0 <= lvl <= 56.
Proof.
  intros Hmax Hrun.
  destruct (Z_lt_le_dec lvl 0) as [Hneg|Hpos];
    [|destruct (Z_le_gt_dec lvl 56) as [|Hbig]; [lia|]];
    exfalso; rewrite (Daubechies4_outside s lvl Hmax) in Hrun by lia;
    destruct (lvl <? Int.max_int); discriminate Hrun.
Qed.

Lemma flat_map_length_sum {A} (f : A -> list float64) (g : A -> nat) (l : list A) :
  Forall (fun a => length (f a) = g a) l ->
  length (flat_map f l) = fold_right (fun a acc => (g a + acc)%nat) 0%nat l.
Proof.
  induction 1 as [|a l Ha _ IH]; [reflexivity|].
  cbn [flat_map fold_right]. rewrite length_app, Ha, IH. reflexivity.
Qed.

Lemma window_length (s : list float64) lvl sec :
  section_fits (len s) lvl sec -> length (window s sec) = Z.to_nat (size sec).
Proof.
  intros (k & Hk & Hsz & Ha & Hb). unfold window.
  rewrite length_take, length_drop. unfold len in Hb. lia.
Qed.

Lemma total_size_nat (secs : list transformSection) :
  Forall (fun sec => 0 <= size sec) secs ->
  fold_right (fun a acc => (Z.to_nat (size a) + acc)%nat) 0%nat secs =
  Z.to_nat (total_size secs) /\ 0 <= total_size secs.
Proof.
  induction 1 as [|a l Ha _ [IH IH']]; [split; [reflexivity | cbn; lia]|].
  change (total_size (a :: l)) with (size a + total_size l).
  cbn [fold_right]. rewrite IH. lia.
Qed.

Lemma fits_fits N N' lvl secs :
  N <= N' -> Forall (section_fits N lvl) secs -> Forall (section_fits N' lvl) secs.
Proof.
  intros HN H. eapply Forall_impl; [exact H|]. intros sec (k & Hk & Hsz & Ha & Hb).
  exists k. repeat split; (assumption || lia).
Qed.

Lemma fits_nonneg N lvl secs :
  0 <= lvl -> Forall (section_fits N lvl) secs -> Forall (fun sec => 0 <= size sec) secs.
Proof.
  intros Hl H. eapply Forall_impl; [exact H|]. intros sec (k & Hk & Hsz & Ha & Hb).
  cbn beta. rewrite Hsz. apply Z.lt_le_incl, pow2_pos. lia.
Qed.

Lemma Daubechies4_well_formed (s : list float64) lvl t :
  len s <= Int.max_int -> Daubechies4 s lvl = Ok t ->
  0 <= lvl <= 56 /\ level t = lvl /\ len (st t) = len s /\
  getTransformSections (len s) lvl = Ok (sections t) /\
  contiguous 0 (sections t) /\
  Forall (section_fits (len s) lvl) (sections t) /\
  total_size (sections t) <= len s /\
  st t = flat_map (fun sec => lift_levels (Z.to_nat lvl) (window s sec)) (sections t)
         ++ drop (Z.to_nat (total_size (sections t))) s.
Proof.
  intros Hmax Hrun. pose proof (Daubechies4_Ok_level s lvl t Hmax Hrun) as Hl.
  pose proof Hmax as Hmax'. unfold Int.max_int in Hmax'.
  assert (HN : len s < 2 ^ 63) by lia.
  destruct (sections_loop_spec lvl Hl (len s) HN (Z.to_nat (len s) + 2) 0 [])
    as (secs & Hsecs & HG & Hc & _ & Htot); [unfold len; lia | lia |].
  cbn [app] in Hsecs.
  assert (Hfit : Forall (section_fits (len s) lvl) secs)
    by (apply (Greedy_fits _ _ 0); [lia | lia | exact HG]).
  assert (Hloop := sections_passes_ok s lvl secs 0 0 []).
  specialize (Hloop ltac:(lia) Hmax Hc Hfit eq_refl ltac:(unfold len; lia)).
  cbn [app] in Hloop. change (Z.to_nat 0) with 0%nat in Hloop.
  rewrite drop_0 in Hloop.
  unfold Daubechies4, getTransformSections in Hrun.
  rewrite Hsecs in Hrun. cbn [bind] in Hrun. rewrite Hloop in Hrun.
  cbn [bind] in Hrun. injection Hrun as <-. cbn [level st sections].
  split; [exact Hl|]. split; [reflexivity|]. split.
  { unfold len at 1. rewrite length_app, length_drop.
    rewrite (flat_map_length_sum _ (fun sec => Z.to_nat (size sec))).
    - assert (Hnn' : Forall (fun sec => 0 <= size sec) secs)
        by (apply (fits_nonneg (len s) lvl); [lia | exact Hfit]).
      destruct (total_size_nat secs Hnn') as [-> Hnn].
      unfold len in *. lia.
    - eapply Forall_impl; [exact Hfit|]. intros sec Hsec. cbn beta.
      rewrite lift_levels_length. eapply window_length. exact Hsec. }
  split; [exact Hsecs|]. split; [exact Hc|]. split; [exact Hfit|].
  split; [lia | reflexivity].
Qed.

(** ** [decimate] *)

Lemma length_decimate n x : length (decimate n x) = (length x / n)%nat.
Proof. unfold decimate. rewrite length_map, length_seq. reflexivity. Qed.

Lemma decimate_lookup n x j :
  (0 < n)%nat -> (j < length x / n)%nat ->
  decimate n x !! j = x !! (j * n)%nat.
Proof.
  intros Hn Hj. unfold decimate.
  rewrite list_lookup_fmap, lookup_seq_lt by assumption. cbn.
  symmetry. apply list_lookup_lookup_total_lt.
  assert (n * (length x / n) <= length x)%nat by (apply Nat.Div0.mul_div_le).
  nia.
Qed.

Lemma DownSample_decimate (x : list float64) (n : Z) :
  0 < n -> (n | len x) -> len x <= Int.max_int ->
  DownSample x n = Ok (decimate (Z.to_nat n) x).
Proof.
  intros Hn [q Hq] Hmax.
  assert (Hq0 : 0 <= q) by (unfold len in Hq; nia).
  assert (Hlen : length x = (Z.to_nat q * Z.to_nat n)%nat) by (unfold len in Hq; nia).
  destruct (DownSample_ok x (Z.to_nat n) (Z.to_nat q) ltac:(lia) Hlen Hmax)
    as (y & Hy & Hly & Hval).
  rewrite Z2Nat.id in Hy by lia. rewrite Hy. f_equal.
  assert (Hdiv : (length x / Z.to_nat n)%nat = Z.to_nat q).
  { rewrite Hlen. apply Nat.div_mul. lia. }
  apply list_eq. intros j. destruct (Nat.lt_ge_cases j (Z.to_nat q)) as [Hj|Hj].
  - rewrite Hval, decimate_lookup by lia. reflexivity.
  - rewrite !lookup_ge_None_2; [reflexivity | rewrite length_decimate; lia | lia].
Qed.

Lemma decimate_app n m (l1 l2 : list float64) :
  (0 < n)%nat -> length l1 = (m * n)%nat ->
  decimate n (l1 ++ l2) = decimate n l1 ++ decimate n l2.
Proof.
  intros Hn Hl1.
  assert (Hd1 : (length l1 / n)%nat = m) by (rewrite Hl1; apply Nat.div_mul; lia).
  assert (Hd : (length (l1 ++ l2) / n)%nat = (m + length l2 / n)%nat).
  { rewrite length_app, Hl1. apply Nat.div_add_l. lia. }
  apply list_eq. intros j.
  destruct (Nat.lt_ge_cases j m) as [Hj|Hj].
  - rewrite lookup_app_l by (rewrite length_decimate; lia).
    rewrite !decimate_lookup by lia. apply lookup_app_l. nia.
  - rewrite lookup_app_r by (rewrite length_decimate; lia).
    rewrite length_decimate, Hd1.
    destruct (Nat.lt_ge_cases (j - m) (length l2 / n)) as [Hj2|Hj2].
    + rewrite !decimate_lookup by lia.
      rewrite lookup_app_r by nia. f_equal. nia.
    + rewrite !lookup_ge_None_2; [reflexivity | |]; rewrite length_decimate; lia.
Qed.

Lemma decimate_nil n : decimate n [] = [].
Proof. unfold decimate. cbn [length]. rewrite Nat.Div0.div_0_l. reflexivity. Qed.

Lemma decimate_flat_map {A} n (f : A -> list float64) (g : A -> nat) (l : list A) :
  (0 < n)%nat -> Forall (fun a => length (f a) = (g a * n)%nat) l ->
  decimate n (flat_map f l) = flat_map (fun a => decimate n (f a)) l.
Proof.
  intros Hn. induction 1 as [|a l Ha _ IH]; [apply decimate_nil|].
  cbn [flat_map]. rewrite (decimate_app n (g a)), IH by assumption. reflexivity.
Qed.

(** ** The bands *)

Lemma band_length buf lvl sec i :
  section_fits (len buf) lvl sec -> 0 <= lvl -> Z.of_nat i < lvl ->
  exists K, 6 + lvl <= K /\ size sec = 2 ^ K /\
    length (band buf sec i) = Z.to_nat (2 ^ (K - 1 - Z.of_nat i)).
Proof.
  intros (K & HK & Hsz & Ha & Hb) Hl Hi. exists K. split; [assumption|].
  split; [assumption|]. unfold band. cbv zeta.
  rewrite Hsz, pow2_quot by lia.
  replace (K - (Z.of_nat i + 1)) with (K - 1 - Z.of_nat i) by lia.
  pose proof (pow2_pos (K - 1 - Z.of_nat i) ltac:(lia)) as Hp.
  assert (2 * 2 ^ (K - 1 - Z.of_nat i) <= 2 ^ K).
  { rewrite <- Z.pow_succ_r by lia. apply pow2_le_mono. lia. }
  rewrite length_take, length_drop. unfold len in Hb. lia.
Qed.

Lemma bands_length buf lvl i : forall secs,
  Forall (section_fits (len buf) lvl) secs -> 0 <= lvl -> Z.of_nat i < lvl ->
  len (flat_map (fun sec => band buf sec i) secs) * 2 ^ (Z.of_nat i + 1)
  = total_size secs.
Proof.
  induction 1 as [|sec secs Hsec _ IH]; intros Hl Hi; [reflexivity|].
  cbn [flat_map]. change (total_size (sec :: secs)) with (size sec + total_size secs).
  rewrite len_app, Z.mul_add_distr_r, IH by assumption. f_equal.
  destruct (band_length buf lvl sec i Hsec Hl Hi) as (K & HK & Hsz & Hlen).
  unfold len. rewrite Hlen, Hsz.
  pose proof (pow2_pos (K - 1 - Z.of_nat i) ltac:(lia)).
  rewrite Z2Nat.id, <- Z.pow_add_r by lia. f_equal. lia.
Qed.

(** What [GetDownSampledCoefficients] appends to band [i] for a section. *)
Lemma downsampled_loop t : forall secs i0 (f : nat -> list float64),
  0 <= level t <= 56 -> len (st t) <= Int.max_int ->
  Forall (section_fits (len (st t)) (level t)) secs ->
  range_loop i0 secs
    (fun _ s dscfs =>
       do cfs <- getSectionCoefficients t s;
       range_loop 0 cfs
         (fun i cf dscfs =>
            if i <? level t - 1 then
              do n <- Pow2 (level t - (i + 1));
              do ds <- DownSample cf n;
              do old <- get dscfs i;
              set dscfs i (old ++ ds)
            else Ok dscfs)
         dscfs)
    (map f (List.seq 0 (Z.to_nat (level t)))) =
  Ok (map (fun i => f i ++
             flat_map (fun sec =>
               if Z.of_nat i <? level t - 1
               then decimate (Z.to_nat (2 ^ (level t - 1 - Z.of_nat i)))
                      (band (st t) sec i)
               else []) secs)
        (List.seq 0 (Z.to_nat (level t)))).
Proof.
  induction secs as [|sec secs IH]; intros i0 f Hl Hmax Hfit.
  - cbn [range_loop flat_map]. f_equal. apply map_ext. intros. rewrite app_nil_r. reflexivity.
  - apply Forall_cons in Hfit as [Hsec Hfit]. cbn [range_loop].
    rewrite getSectionCoefficients_ok by (assumption || lia). cbn [bind].
    rewrite (append_loop (fun i =>
               if Z.of_nat i <? level t - 1
               then decimate (Z.to_nat (2 ^ (level t - 1 - Z.of_nat i)))
                      (band (st t) sec i)
               else [])).
    + cbn [bind]. rewrite imap_map_seq, IH by assumption. f_equal.
      apply map_ext. intros i. cbn [flat_map]. rewrite app_assoc. reflexivity.
    + intros k x cur old Hx Hold.
      rewrite list_lookup_fmap in Hx.
      destruct (List.seq 0 (Z.to_nat (level t)) !! k) as [k'|] eqn:Hk; [|discriminate].
      apply lookup_seq in Hk as [-> Hk]. cbn in Hx. injection Hx as <-.
      destruct (Z.ltb_spec (Z.of_nat k) (level t - 1)) as [Hlt|Hge].
      * rewrite Pow2_small by lia. cbn [bind].
        destruct (band_length (st t) (level t) sec k Hsec ltac:(lia) ltac:(lia))
          as (K & HK & Hsz & Hlen).
        pose proof (pow2_pos (level t - 1 - Z.of_nat k) ltac:(lia)) as Hp.
        pose proof (pow2_pos (K - 1 - Z.of_nat k) ltac:(lia)) as Hp'.
        replace (level t - (Z.of_nat k + 1)) with (level t - 1 - Z.of_nat k) by lia.
        rewrite DownSample_decimate.
        -- cbn [bind].
           rewrite (get_lookup cur _ k old) by (reflexivity || assumption). cbn [bind].
           apply set_insert; [reflexivity|]. eapply lookup_lt_Some; eassumption.
        -- assumption.
        -- unfold len. rewrite Hlen, Z2Nat.id by lia.
           exists (2 ^ (K - level t)). rewrite <- Z.pow_add_r by lia. f_equal. lia.
        -- destruct Hsec as (K' & _ & Hsz' & Ha & Hb).
           unfold Int.max_int in *. unfold len. rewrite Hlen, Z2Nat.id by lia.
           assert (2 ^ (K - 1 - Z.of_nat k) <= 2 ^ K) by (apply pow2_le_mono; lia).
           lia.
      * rewrite app_nil_r. rewrite list_insert_id by assumption. reflexivity.
    + rewrite !length_map. reflexivity.
Qed.

Lemma GetDownSampledCoefficients_ok t :
  0 <= level t <= 56 -> len (st t) <= Int.max_int ->
  Forall (section_fits (len (st t)) (level t)) (sections t) ->
  GetDownSampledCoefficients t =
  Ok (map (fun i =>
             flat_map (fun sec =>
               if Z.of_nat i <? level t - 1
               then decimate (Z.to_nat (2 ^ (level t - 1 - Z.of_nat i)))
                      (band (st t) sec i)
               else []) (sections t))
        (List.seq 0 (Z.to_nat (level t)))).
Proof.
  intros Hl Hmax Hfit. unfold GetDownSampledCoefficients.
  rewrite make_nonneg by lia. cbn [bind].
  rewrite replicate_nil_map, downsampled_loop by assumption. reflexivity.
Qed.

(** X17.  The bands of a transform returned by [Daubechies4]: [GetCoefficients]
    returns [level] of them; band [i] (from 0) is made of the slices
    [st[start + size/2^(i+1) : start + size/2^i]] of the sections, in the
    order of the sections, and holds the [2^(i+1)]-th part of the samples
    that the sections cover. *)
Theorem GetCoefficients_bands (s : list float64) (lvl : Z) (t : Transform) :
  len s <= Int.max_int -> Daubechies4 s lvl = Ok t ->
  exists cfs, GetCoefficients t = Ok cfs /\ len cfs = lvl /\
    forall i c, cfs !! i = Some c ->
      c = flat_map (fun sec => band (st t) sec i) (sections t) /\
      len c * 2 ^ (Z.of_nat i + 1) = total_size (sections t).
Proof.
  intros Hmax Hrun.
  destruct (Daubechies4_well_formed s lvl t Hmax Hrun)
    as (Hl & Hlvl & Hlen & _ & _ & Hfit & _ & _).
  rewrite <- Hlen, <- Hlvl in Hfit. rewrite <- Hlen in Hmax. rewrite <- Hlvl in Hl.
  eexists. split; [apply GetCoefficients_ok; (assumption || lia)|].
  split; [unfold len; rewrite length_map, length_seq; lia|].
  intros i c Hi. rewrite list_lookup_fmap in Hi.
  destruct (List.seq 0 (Z.to_nat (level t)) !! i) as [k|] eqn:Hk; [|discriminate].
  apply lookup_seq in Hk as [-> Hk]. cbn in Hi. injection Hi as <-.
  split; [reflexivity|]. apply (bands_length _ (level t)); (assumption || lia).
Qed.

Lemma GetCoefficients_bands_witness :
  len sample_ramp <= Int.max_int /\
  exists t, Daubechies4 sample_ramp 2 = Ok t /\
    exists cfs, GetCoefficients t = Ok cfs /\ len cfs = 2 /\
      forall i c, cfs !! i = Some c ->
        c = flat_map (fun sec => band (st t) sec i) (sections t) /\
        len c * 2 ^ (Z.of_nat i + 1) = total_size (sections t).
Proof.
  split; [vm_compute; discriminate|].
  destruct (Daubechies4_returns sample_ramp 2) as [t Et];
    [lia | vm_compute; discriminate|].
  exists t. split; [exact Et|].
  apply (GetCoefficients_bands sample_ramp 2 t); [vm_compute; discriminate | exact Et].
Defined.

(** X18.  The bands above the deepest one, down-sampled: for a transform
    returned by [Daubechies4], band [i < level - 1] of
    [GetDownSampledCoefficients] keeps every [2^(level-1-i)]-th sample of
    band [i] of [GetCoefficients], and so holds the [2^level]-th part of
    the samples that the sections cover. *)
Theorem GetDownSampledCoefficients_bands (s : list float64) (lvl : Z) (t : Transform) :
  len s <= Int.max_int -> Daubechies4 s lvl = Ok t ->
  exists cfs ds,
    GetCoefficients t = Ok cfs /\ GetDownSampledCoefficients t = Ok ds /\
    len ds = lvl /\
    forall (i : nat) c d, Z.of_nat i < lvl - 1 ->
      cfs !! i = Some c -> ds !! i = Some d ->
      len d * 2 ^ lvl = total_size (sections t) /\
      forall j : nat, (j < length d)%nat ->
        d !! j = c !! (j * Z.to_nat (2 ^ (lvl - 1 - Z.of_nat i)))%nat.
Proof.
  intros Hmax Hrun.
  destruct (Daubechies4_well_formed s lvl t Hmax Hrun)
    as (Hl & Hlvl & Hlen & _ & _ & Hfit & _ & _).
  rewrite <- Hlen, <- Hlvl in Hfit. rewrite <- Hlen in Hmax.
  rewrite <- Hlvl in *. clear Hlvl.
  eexists. eexists. split; [apply GetCoefficients_ok; (assumption || lia)|].
  split; [apply GetDownSampledCoefficients_ok; assumption|].
  split; [unfold len; rewrite length_map, length_seq; lia|].
  intros i c d Hi Hc Hd. rewrite list_lookup_fmap in Hc, Hd.
  destruct (List.seq 0 (Z.to_nat (level t)) !! i) as [k|] eqn:Hk; [|discriminate].
  apply lookup_seq in Hk as [-> Hk]. cbn in Hc, Hd.
  injection Hc as <-. injection Hd as <-.
  destruct (Z.ltb_spec (Z.of_nat i) (level t - 1)) as [_|]; [|lia].
  set (e := level t - 1 - Z.of_nat i). set (n := Z.to_nat (2 ^ e)).
  pose proof (pow2_pos e ltac:(subst e; lia)) as Hp.
  set (c := flat_map (fun sec => band (st t) sec i) (sections t)).
  assert (Hdec : flat_map (fun sec => decimate n (band (st t) sec i)) (sections t)
                 = decimate n c).
  { symmetry. subst c.
    apply (decimate_flat_map n _
             (fun sec => Z.to_nat (size sec / 2 ^ (Z.of_nat i + 1) / 2 ^ e)));
      [lia|].
    eapply Forall_impl; [exact Hfit|]. intros sec Hsec. cbn beta.
    destruct (band_length (st t) (level t) sec i Hsec ltac:(lia) ltac:(lia))
      as (K & HK & Hsz & Hbl).
    rewrite Hbl, Hsz. rewrite !pow2_quot by (subst e; lia).
    subst n. rewrite <- Z2Nat.inj_mul by (apply Z.lt_le_incl, pow2_pos; subst e; lia).
    f_equal. rewrite <- Z.pow_add_r by (subst e; lia). f_equal. lia. }
  rewrite Hdec.
  pose proof (bands_length (st t) (level t) i (sections t) Hfit ltac:(lia) ltac:(lia))
    as Hc. fold c in Hc.
  assert (Hcn : len c = Z.of_nat (length c / n) * 2 ^ e).
  { assert (Hm : exists m, length c = (m * n)%nat).
    { exists (Z.to_nat (total_size (sections t) / 2 ^ (level t))).
      assert (Hdiv : (2 ^ level t | total_size (sections t))).
      { clear - Hfit Hl. induction Hfit as [|sec secs (K & HK & Hsz & _) _ IH].
        - exists 0. reflexivity.
        - change (total_size (sec :: secs)) with (size sec + total_size secs).
          apply Z.divide_add_r; [|exact IH]. rewrite Hsz.
          exists (2 ^ (K - level t)). rewrite <- Z.pow_add_r by lia. f_equal. lia. }
      destruct Hdiv as [q Hq]. rewrite Hq, Z.div_mul by (pose proof (pow2_pos (level t)); lia).
      assert (0 <= q).
      { pose proof (pow2_pos (level t) ltac:(lia)).
        pose proof (pow2_pos (Z.of_nat i + 1) ltac:(lia)). unfold len in Hc. nia. }
      assert (Hsplit : 2 ^ level t = 2 ^ e * 2 ^ (Z.of_nat i + 1)).
      { rewrite <- Z.pow_add_r by (subst e; lia). f_equal. subst e. lia. }
      rewrite Hq, Hsplit in Hc.
      pose proof (pow2_pos (Z.of_nat i + 1) ltac:(lia)).
      assert (len c = q * 2 ^ e) by nia.
      unfold len in *. subst n. nia. }
    destruct Hm as [m Hm]. rewrite Hm, Nat.div_mul by lia.
    unfold len. rewrite Hm. subst n. lia. }
  split.
  - unfold len at 1. rewrite length_decimate.
    replace (2 ^ level t) with (2 ^ e * 2 ^ (Z.of_nat i + 1))
      by (rewrite <- Z.pow_add_r by (subst e; lia); f_equal; subst e; lia).
    rewrite Z.mul_assoc, <- Hcn. exact Hc.
  - intros j Hj. rewrite length_decimate in Hj. apply decimate_lookup; [lia | exact Hj].
Qed.

Lemma GetDownSampledCoefficients_bands_witness :
  len sample_ramp <= Int.max_int /\
  exists t, Daubechies4 sample_ramp 2 = Ok t /\
    exists cfs ds,
      GetCoefficients t = Ok cfs /\ GetDownSampledCoefficients t = Ok ds /\
      len ds = 2 /\
      forall (i : nat) c d, Z.of_nat i < 2 - 1 ->
        cfs !! i = Some c -> ds !! i = Some d ->
        len d * 2 ^ 2 = total_size (sections t) /\
        forall j : nat, (j < length d)%nat ->
          d !! j = c !! (j * Z.to_nat (2 ^ (2 - 1 - Z.of_nat i)))%nat.
Proof.
  split; [vm_compute; discriminate|].
  destruct (Daubechies4_returns sample_ramp 2) as [t Et];
    [lia | vm_compute; discriminate|].
  exists t. split; [exact Et|].
  apply (GetDownSampledCoefficients_bands sample_ramp 2 t); [vm_compute; discriminate | exact Et].
Defined.

(** ** Length, tail and level 0 *)

Lemma transformed_length (s : list float64) lvl secs :
  0 <= lvl -> Forall (section_fits (len s) lvl) secs ->
  length (flat_map (fun sec => lift_levels (Z.to_nat lvl) (window s sec)) secs)
  = Z.to_nat (total_size secs) /\ 0 <= total_size secs.
Proof.
  intros Hl Hfit.
  assert (Hnn : Forall (fun sec => 0 <= size sec) secs)
    by (apply (fits_nonneg (len s) lvl); assumption).
  destruct (total_size_nat secs Hnn) as [<- Hnn']. split; [|assumption].
  apply flat_map_length_sum.
  eapply Forall_impl; [exact Hfit|]. intros sec Hsec. cbn beta.
  rewrite lift_levels_length. eapply window_length. exact Hsec.
Qed.

(** X15.  [Daubechies4] keeps the length of the input and the level it was
    given, and returns the samples behind the last section as they came. *)
Theorem Daubechies4_length_tail (s : list float64) (lvl : Z) (t : Transform) :
  len s <= Int.max_int -> Daubechies4 s lvl = Ok t ->
  len (st t) = len s /\ level t = lvl /\
  forall i, total_size (sections t) <= i -> get (st t) i = get s i.
Proof.
  intros Hmax Hrun.
  destruct (Daubechies4_well_formed s lvl t Hmax Hrun)
    as (Hl & Hlvl & Hlen & _ & _ & Hfit & Htot & Hst).
  split; [exact Hlen|]. split; [exact Hlvl|].
  intros i Hi.
  destruct (transformed_length s lvl (sections t) ltac:(lia) Hfit) as [HF Hnn].
  unfold get. destruct (Z.ltb_spec i 0); [reflexivity|].
  rewrite Hst, lookup_app_r by lia. rewrite HF, lookup_drop.
  replace (Z.to_nat (total_size (sections t)) + (Z.to_nat i - Z.to_nat (total_size (sections t))))%nat
    with (Z.to_nat i) by lia.
  reflexivity.
Qed.

Lemma Daubechies4_length_tail_witness :
  len sample_ramp <= Int.max_int /\
  exists t, Daubechies4 sample_ramp 2 = Ok t /\
    len (st t) = len sample_ramp /\ level t = 2 /\
    forall i, total_size (sections t) <= i -> get (st t) i = get sample_ramp i.
Proof.
  split; [vm_compute; discriminate|].
  destruct (Daubechies4_returns sample_ramp 2) as [t Et];
    [lia | vm_compute; discriminate|].
  exists t. split; [exact Et|].
  apply (Daubechies4_length_tail sample_ramp 2 t); [vm_compute; discriminate | exact Et].
Defined.

Lemma windows_concat (s : list float64) lvl : forall secs st0,
  0 <= lvl -> 0 <= st0 ->
  contiguous st0 secs -> Forall (section_fits (len s) lvl) secs ->
  flat_map (window s) secs
  = take (Z.to_nat (total_size secs)) (drop (Z.to_nat st0) s).
Proof.
  induction secs as [|sec secs IH]; intros st0 Hl Hst Hc Hfit; [reflexivity|].
  destruct Hc as (Hs & Hpos & Hc). apply Forall_cons in Hfit as [Hsec Hfit].
  cbn [flat_map]. change (total_size (sec :: secs)) with (size sec + total_size secs).
  rewrite (IH (st0 + size sec)) by (assumption || lia).
  assert (Hnn : Forall (fun sec => 0 <= size sec) secs)
    by (apply (fits_nonneg (len s) lvl); assumption).
  destruct (total_size_nat secs Hnn) as [_ Hnn'].
  unfold window. rewrite Hs.
  rewrite (Z2Nat.inj_add (size sec)), (Z2Nat.inj_add st0) by lia.
  rewrite <- drop_drop. rewrite <- take_take_drop. reflexivity.
Qed.

(** X16.  At level 0 [Daubechies4] returns the samples unchanged. *)
Theorem Daubechies4_level0 (s : list float64) (t : Transform) :
  len s <= Int.max_int -> Daubechies4 s 0 = Ok t -> st t = s.
Proof.
  intros Hmax Hrun.
  destruct (Daubechies4_well_formed s 0 t Hmax Hrun)
    as (_ & _ & _ & _ & Hc & Hfit & _ & Hst).
  rewrite Hst. change (Z.to_nat 0) with 0%nat.
  assert (Hid : flat_map (fun sec => lift_levels 0 (window s sec)) (sections t)
                = flat_map (window s) (sections t)) by reflexivity.
  rewrite Hid, (windows_concat s 0 (sections t) 0) by (assumption || lia).
  change (Z.to_nat 0) with 0%nat. rewrite drop_0. apply take_drop.
Qed.

Lemma Daubechies4_level0_witness :
  len sample_ramp <= Int.max_int /\
  exists t, Daubechies4 sample_ramp 0 = Ok t /\
    st t = sample_ramp.
Proof.
  split; [vm_compute; discriminate|].
  destruct (Daubechies4_returns sample_ramp 0) as [t Et];
    [lia | vm_compute; discriminate|].
  exists t. split; [exact Et|].
  apply (Daubechies4_level0 sample_ramp t); [vm_compute; discriminate | exact Et].
Defined.

(** ** The rounds of the sweep, case by case *)

Lemma sweep_step_shape seq ps m idx ps' m' :
  sweep_inv (len seq) ps m -> 0 <= idx < len seq -> ~ processed m idx ->
  sweep_step seq idx (ps, m) = Ok (ps', m') ->
  (~ processed m (idx - 1) /\ ~ processed m (idx + 1) /\
   ps' = ps ++ [newPeak idx])
  \/ (exists k p, processed m (idx - 1) /\ ~ processed m (idx + 1) /\
        get ps k = Ok p /\ died p = none /\ right p = idx - 1 /\
        ps' = <[Z.to_nat k := set_right p idx]> ps)
  \/ (exists k p, ~ processed m (idx - 1) /\ processed m (idx + 1) /\
        get ps k = Ok p /\ died p = none /\ left p = idx + 1 /\
        ps' = <[Z.to_nat k := set_left p idx]> ps)
  \/ (exists il ir pl pr,
        get ps il = Ok pl /\ get ps ir = Ok pr /\ il <> ir /\
        died pl = none /\ died pr = none /\
        right pl = idx - 1 /\ left pr = idx + 1 /\
        ((F64.gt (value_at seq (born pl)) (value_at seq (born pr)) = true /\
          ps' = <[Z.to_nat il := set_right pl (right pr)]>
                  (<[Z.to_nat ir := set_died pr idx]> ps))
         \/ (F64.gt (value_at seq (born pl)) (value_at seq (born pr)) = false /\
             ps' = <[Z.to_nat ir := set_left pr (left pl)]>
                     (<[Z.to_nat il := set_died pl idx]> ps)))).
Proof.
  intros Inv Hidx Hn Hstep.
  pose proof (inv_len _ _ _ Inv) as Hlen.
  rewrite sweep_step_cases in Hstep by (rewrite ?Hlen; lia).
  destruct (processedb m (idx - 1)) eqn:EL, (processedb m (idx + 1)) eqn:ER.
  - right. right. right.
    destruct (neighbours_differ _ _ _ _ Inv Hidx Hn EL ER)
      as (il & ir & pl & pr & Hml & Hmr & Hl & Hr & Hdl & Hdr & Hrl & Hlr & Hne & Hborn).
    destruct (inv_alive _ _ _ Inv il pl Hl Hdl) as (B1 & B2 & _).
    destruct (inv_alive _ _ _ Inv ir pr Hr Hdr) as (C1 & C2 & _).
    exists il, ir, pl, pr. repeat (split; [assumption|]).
    rewrite Hml, Hmr in Hstep. cbn [bind] in Hstep.
    pose proof (value_at_get seq (born pl) ltac:(lia)) as Hbl.
    pose proof (value_at_get seq (born pr) ltac:(lia)) as Hbr.
    destruct (F64.gt (value_at seq (born pl)) (value_at seq (born pr))) eqn:Hgt.
    + left. split; [reflexivity|].
      rewrite (merge_both_gt seq ps m il ir idx pl pr _ _ Hl Hr Hne Hbl Hbr Hgt)
        in Hstep by lia.
      congruence.
    + right. split; [reflexivity|].
      rewrite (merge_both_le seq ps m il ir idx pl pr _ _ Hl Hr Hne Hbl Hbr Hgt)
        in Hstep by lia.
      congruence.
  - right. left.
    assert (HR : ~ processed m (idx + 1)) by (unfold processed; congruence).
    destruct (owner_left _ _ _ Inv idx EL Hn) as (k & p & Hmk & Hk & Hd & Hright).
    pose proof (get_Ok_range _ _ _ Hk) as Hkr.
    exists k, p. repeat (split; [assumption|]).
    rewrite Hmk in Hstep. cbn [bind] in Hstep. unfold merge_left in Hstep.
    rewrite Hk in Hstep. cbn [bind] in Hstep.
    rewrite set_in_range in Hstep by assumption. cbn [bind] in Hstep.
    rewrite set_in_range in Hstep by lia. cbn [bind] in Hstep.
    replace (right p + 1) with idx in Hstep by lia. congruence.
  - right. right. left.
    assert (HL : ~ processed m (idx - 1)) by (unfold processed; congruence).
    destruct (owner_right _ _ _ Inv idx ER Hn) as (k & p & Hmk & Hk & Hd & Hleft).
    pose proof (get_Ok_range _ _ _ Hk) as Hkr.
    exists k, p. repeat (split; [assumption|]).
    rewrite Hmk in Hstep. cbn [bind] in Hstep. unfold merge_right in Hstep.
    rewrite Hk in Hstep. cbn [bind] in Hstep.
    rewrite set_in_range in Hstep by assumption. cbn [bind] in Hstep.
    rewrite set_in_range in Hstep by lia. cbn [bind] in Hstep.
    replace (left p - 1) with idx in Hstep by lia. congruence.
  - left.
    split; [unfold processed; congruence|]. split; [unfold processed; congruence|].
    unfold birth in Hstep. rewrite set_in_range in Hstep by lia.
    cbn [bind] in Hstep. congruence.
Qed.

(** The sweep up to any point of the sorted indices, with a further
    invariant [J] of the peaks. *)
Lemma sweep_invariant seq (J : list Peak -> list Z -> Prop) :
  J [] (replicate (length seq) none) ->
  (forall pre idx post ps m ps' m',
     sorted_indices seq = pre ++ idx :: post ->
     sweep_inv (len seq) ps m -> (forall i, processed m i <-> i ∈ pre) ->
     0 <= idx < len seq -> ~ processed m idx ->
     J ps m ->
     sweep_step seq idx (ps, m) = Ok (ps', m') ->
     sweep_inv (len seq) ps' m' ->
     (forall i, processed m' i <-> processed m i \/ i = idx) ->
     J ps' m') ->
  forall pre post, sorted_indices seq = pre ++ post ->
    exists ps m,
      sweep seq pre ([], replicate (length seq) none) = Ok (ps, m)
      /\ sweep_inv (len seq) ps m
      /\ (forall i, processed m i <-> i ∈ pre)
      /\ J ps m.
Proof.
  intros H0 Hstep pre. induction pre as [|idx pre IH] using rev_ind; intros post Hs.
  - exists [], (replicate (length seq) none). split; [reflexivity|].
    split; [apply sweep_inv_initial|]. split; [|exact H0].
    intros i. split; [intros H; exfalso; eapply not_processed_initially, H|].
    intros H. apply elem_of_nil in H. contradiction.
  - rewrite <- app_assoc in Hs. cbn [app] in Hs.
    destruct (IH (idx :: post) Hs) as (ps & m & E & Inv & P & HJ).
    destruct (sweep_prefix seq pre idx post Hs) as (_ & _ & _ & _ & _ & Hidx & Hnot).
    assert (Hn : ~ processed m idx) by (rewrite P; exact Hnot).
    destruct (sweep_step_inv seq ps m idx Inv Hidx Hn) as (ps' & m' & E' & Inv' & P').
    exists ps', m'. split; [rewrite sweep_snoc, E; exact E'|].
    split; [exact Inv'|]. split.
    + intros i. rewrite P', P, elem_of_app, list_elem_of_singleton. reflexivity.
    + exact (Hstep pre idx post ps m ps' m' Hs Inv P Hidx Hn HJ E' Inv' P').
Qed.

Lemma map_born_insert ps k p p' :
  get ps k = Ok p -> born p' = born p ->
  map born (<[Z.to_nat k := p']> ps) = map born ps.
Proof.
  intros Hk Hb. apply get_Ok_lookup in Hk as [_ Hk].
  rewrite list_fmap_insert, Hb. apply list_insert_id.
  rewrite list_lookup_fmap, Hk. reflexivity.
Qed.

Lemma sweep_step_born seq ps m idx ps' m' :
  sweep_inv (len seq) ps m -> 0 <= idx < len seq -> ~ processed m idx ->
  sweep_step seq idx (ps, m) = Ok (ps', m') ->
  (~ processed m (idx - 1) /\ ~ processed m (idx + 1) /\
   map born ps' = map born ps ++ [idx])
  \/ ((processed m (idx - 1) \/ processed m (idx + 1)) /\
      map born ps' = map born ps).
Proof.
  intros Inv Hidx Hn Hstep.
  destruct (sweep_step_shape seq ps m idx ps' m' Inv Hidx Hn Hstep)
    as [(HL & HR & ->)
       |[(k & p & HL & HR & Hk & Hd & Hr & ->)
        |[(k & p & HL & HR & Hk & Hd & Hl & ->)
         |(il & ir & pl & pr & Hl & Hr & Hne & Hdl & Hdr & Hrl & Hlr & Hcase)]]].
  - left. split; [assumption|]. split; [assumption|].
    rewrite map_app. reflexivity.
  - right. split; [left; assumption|]. apply (map_born_insert ps k p); [assumption | reflexivity].
  - right. split; [right; assumption|]. apply (map_born_insert ps k p); [assumption | reflexivity].
  - right.
    destruct (inv_alive _ _ _ Inv il pl Hl Hdl) as (B1 & B2 & _ & _ & AL & _).
    split; [left; apply AL; lia|].
    pose proof (get_Ok_range _ _ _ Hl) as Hilr.
    pose proof (get_Ok_range _ _ _ Hr) as Hirr.
    destruct Hcase as [[_ ->]|[_ ->]].
    + rewrite (map_born_insert _ il pl); [| |reflexivity].
      * apply (map_born_insert ps ir pr); [assumption | reflexivity].
      * rewrite get_insert_ne by lia. assumption.
    + rewrite (map_born_insert _ ir pr); [| |reflexivity].
      * apply (map_born_insert ps il pl); [assumption | reflexivity].
      * rewrite get_insert_ne by lia. assumption.
Qed.

Lemma sorted_indices_earlier seq pre a post b :
  sorted_indices seq = pre ++ a :: post -> b ∈ pre ->
  F64.gt (value_at seq a) (value_at seq b) = false.
Proof.
  intros Hs Hb. apply list_elem_of_split in Hb as (p1 & p2 & ->).
  rewrite <- app_assoc in Hs. cbn [app] in Hs.
  apply (sorted_indices_later seq p1 b (p2 ++ a :: post) a Hs).
  apply elem_of_app. right. left.
Qed.

Lemma sorted_indices_cover seq pre a post j :
  sorted_indices seq = pre ++ a :: post -> 0 <= j < len seq -> j <> a ->
  j ∈ pre \/ j ∈ post.
Proof.
  intros Hs Hj Hne. apply elem_of_sorted_indices in Hj. rewrite Hs in Hj.
  apply elem_of_app in Hj as [Hj|Hj]; [left; assumption|].
  apply elem_of_cons in Hj as [Hj|Hj]; [contradiction | right; assumption].
Qed.

Lemma sweep_births seq :
  exists ps m,
    sweep seq (sorted_indices seq) ([], replicate (length seq) none) = Ok (ps, m)
    /\ sweep_inv (len seq) ps m
    /\ (forall i, processed m i <-> i ∈ sorted_indices seq)
    /\ births_inv seq ps m.
Proof.
  apply (sweep_invariant seq (births_inv seq)) with (post := []);
    [| |rewrite app_nil_r; reflexivity].
  - split; [constructor|]. repeat split.
    + intros b Hb. apply elem_of_nil in Hb. contradiction.
    + intros b Hb. apply elem_of_nil in Hb. contradiction.
    + intros i Hi. exfalso. eapply not_processed_initially, Hi.
  - intros pre idx post ps m ps' m' Hs Inv P Hidx Hn (Hnd & Hpr & Hloc & Hstr)
      Hstep Inv' P'.
    destruct (sweep_step_born seq ps m idx ps' m' Inv Hidx Hn Hstep)
      as [(HL & HR & Hb)|[Hnb Hb]]; unfold births_inv; rewrite Hb.
    + split; [|split; [|split]].
      * apply NoDup_app. split; [assumption|]. split; [|apply NoDup_singleton].
        intros b Hin Hb'. apply list_elem_of_singleton in Hb'. subst b.
        apply Hn, Hpr, Hin.
      * intros b Hin. apply P'. apply elem_of_app in Hin as [Hin|Hin];
          [left; apply Hpr, Hin | right; apply list_elem_of_singleton, Hin].
      * intros b Hin. apply elem_of_app in Hin as [Hin|Hin]; [apply Hloc, Hin|].
        apply list_elem_of_singleton in Hin. subst b.
        intros j Hj Hjr.
        destruct (sorted_indices_cover seq pre idx post j Hs Hjr ltac:(lia)) as [Hpre|Hpost].
        -- exfalso. apply P in Hpre. destruct Hj as [->| ->]; contradiction.
        -- apply (sorted_indices_later seq pre idx post j Hs Hpost).
      * intros i Hi Hmax. apply elem_of_app. apply P' in Hi as [Hi| ->];
          [left; apply Hstr; assumption | right; apply list_elem_of_singleton; reflexivity].
    + split; [assumption|]. split; [|split; [assumption|]].
      * intros b Hin. apply P'. left. apply Hpr, Hin.
      * intros i Hi Hmax. apply P' in Hi as [Hi| ->]; [apply Hstr; assumption|].
        exfalso.
        assert (Hj : exists j, (j = idx - 1 \/ j = idx + 1) /\ processed m j).
        { destruct Hnb as [H|H]; [exists (idx - 1) | exists (idx + 1)]; auto. }
        destruct Hj as (j & Hj & Hjp).
        pose proof (processed_range _ _ Hjp) as Hjr.
        rewrite (inv_len _ _ _ Inv) in Hjr.
        pose proof (Hmax j Hj Hjr) as Hgt.
        apply P in Hjp.
        rewrite (sorted_indices_earlier seq pre idx post j Hs Hjp) in Hgt.
        discriminate Hgt.
Qed.

Lemma gt_irrefl a : F64.gt a a = false.
Proof.
  destruct (F64.gt a a) eqn:H; [|reflexivity].
  pose proof (gt_asym a a H). congruence.
Qed.

Lemma gt_false_trans a b c :
  F64.is_nan a = false -> F64.is_nan b = false -> F64.is_nan c = false ->
  F64.gt a b = false -> F64.gt b c = false -> F64.gt a c = false.
Proof.
  unfold F64.gt, SFltb.
  destruct a as [sa|sa| |sa ma ea], b as [sb|sb| |sb mb eb],
           c as [sc|sc| |sc mc ec];
    try destruct sa; try destruct sb; try destruct sc;
    cbn; try congruence;
    change (Pos.compare_cont Eq) with Pos.compare in *;
    intros _ _ _ H1 H2; cmp_cases; cbn in *; try reflexivity; try discriminate; try lia.
Qed.

Lemma value_at_no_nan seq i :
  no_nan seq -> 0 <= i < len seq -> F64.is_nan (value_at seq i) = false.
Proof.
  intros Hnn Hi. pose proof (value_at_get seq i Hi) as Hg.
  apply get_Ok_lookup in Hg as [_ Hg].
  unfold no_nan in Hnn. rewrite Forall_forall in Hnn. apply Hnn.
  eapply list_elem_of_lookup_2. exact Hg.
Qed.

Lemma get_snoc_cases {A : Type} (s : list A) (x y : A) k :
  get (s ++ [x]) k = Ok y -> get s k = Ok y \/ (k = len s /\ y = x).
Proof.
  intros H. pose proof (get_Ok_range _ _ _ H) as Hr.
  rewrite len_app in Hr. unfold len in Hr at 2. cbn [length] in Hr.
  destruct (Z.eq_dec k (len s)) as [->|Hne].
  - right. rewrite get_snoc in H. split; [reflexivity | congruence].
  - left. rewrite get_app_l in H by lia. exact H.
Qed.

Lemma sweep_spans seq :
  exists ps m,
    sweep seq (sorted_indices seq) ([], replicate (length seq) none) = Ok (ps, m)
    /\ sweep_inv (len seq) ps m
    /\ (forall i, processed m i <-> i ∈ sorted_indices seq)
    /\ spans_inv seq ps.
Proof.
  apply (sweep_invariant seq (fun ps _ => spans_inv seq ps)) with (post := []);
    [| |rewrite app_nil_r; reflexivity].
  - intros k p H. apply get_Ok_range in H. unfold len in H. cbn in H. lia.
  - intros pre idx post ps m ps' m' Hs Inv P Hidx Hn HJ Hstep Inv' P'.
    assert (Hearlier : forall k p, get ps k = Ok p -> died p = none ->
              F64.gt (value_at seq idx) (value_at seq (born p)) = false).
    { intros k p Hk Hd.
      destruct (inv_alive _ _ _ Inv k p Hk Hd) as (B1 & B2 & _ & _ & A & _).
      apply (sorted_indices_earlier seq pre idx post (born p) Hs).
      apply P, A. lia. }
    destruct (sweep_step_shape seq ps m idx ps' m' Inv Hidx Hn Hstep)
      as [(HL & HR & ->)
         |[(k & p & HL & HR & Hk & Hd & Hr & ->)
          |[(k & p & HL & HR & Hk & Hd & Hl & ->)
           |(il & ir & pl & pr & Hl & Hr & Hne & Hdl & Hdr & Hrl & Hlr & Hcase)]]];
      intros k' p' Hk'.
    + apply get_snoc_cases in Hk' as [Hk'|[_ ->]]; [apply (HJ k' p' Hk')|].
      split; [intros Hd; exfalso; apply Hd; reflexivity|].
      intros _ i Hi. cbn [left right born newPeak] in *.
      replace i with idx by lia. apply gt_irrefl.
    + pose proof (get_Ok_range _ _ _ Hk) as Hkr.
      apply get_insert_cases in Hk' as [[-> ->]|[_ Hk']];
        [|apply (HJ k' p' Hk') | assumption].
      split; [intros Hd'; exfalso; apply Hd'; exact Hd|].
      intros Hnn i Hi. cbn [left right born set_right] in *.
      destruct (Z.eq_dec i idx) as [->|Hne']; [apply (Hearlier k p Hk Hd)|].
      apply (HJ k p Hk); [assumption | lia].
    + pose proof (get_Ok_range _ _ _ Hk) as Hkr.
      apply get_insert_cases in Hk' as [[-> ->]|[_ Hk']];
        [|apply (HJ k' p' Hk') | assumption].
      split; [intros Hd'; exfalso; apply Hd'; exact Hd|].
      intros Hnn i Hi. cbn [left right born set_left] in *.
      destruct (Z.eq_dec i idx) as [->|Hne']; [apply (Hearlier k p Hk Hd)|].
      apply (HJ k p Hk); [assumption | lia].
    + pose proof (get_Ok_range _ _ _ Hl) as Hilr.
      pose proof (get_Ok_range _ _ _ Hr) as Hirr.
      destruct (inv_alive _ _ _ Inv il pl Hl Hdl) as (B1 & B2 & _).
      destruct (inv_alive _ _ _ Inv ir pr Hr Hdr) as (C1 & C2 & _).
      destruct Hcase as [[Hgt ->]|[Hgt ->]].
      * apply get_insert_cases in Hk' as [[-> ->]|[Hne1 Hk']];
          [| |rewrite len_insert; assumption].
        -- split; [intros Hd'; exfalso; apply Hd'; exact Hdl|].
           intros Hnn i Hi. cbn [left right born set_right] in *.
           destruct (Z_le_gt_dec i (right pl)) as [Hi1|Hi1];
             [apply (HJ il pl Hl); [assumption | lia]|].
           destruct (Z.eq_dec i idx) as [->|Hne']; [apply (Hearlier il pl Hl Hdl)|].
           destruct (F64.gt (value_at seq i) (value_at seq (born pl))) eqn:Hgi;
             [|reflexivity].
           pose proof (gt_trans _ _ _ Hgi Hgt) as Hbad.
           rewrite (proj2 (HJ ir pr Hr) Hnn i ltac:(lia)) in Hbad. discriminate.
        -- apply get_insert_cases in Hk' as [[-> ->]|[_ Hk']];
             [|apply (HJ k' p' Hk') | assumption].
           split.
           ++ intros _. cbn [left right born died set_died]. lia.
           ++ intros Hnn i Hi. cbn [left right born set_died] in *.
              apply (HJ ir pr Hr); assumption.
      * apply get_insert_cases in Hk' as [[-> ->]|[Hne1 Hk']];
          [| |rewrite len_insert; assumption].
        -- split; [intros Hd'; exfalso; apply Hd'; exact Hdr|].
           intros Hnn i Hi. cbn [left right born set_left] in *.
           destruct (Z_le_gt_dec (left pr) i) as [Hi1|Hi1];
             [apply (HJ ir pr Hr); [assumption | lia]|].
           destruct (Z.eq_dec i idx) as [->|Hne']; [apply (Hearlier ir pr Hr Hdr)|].
           apply (gt_false_trans _ (value_at seq (born pl)));
             try (apply value_at_no_nan; [assumption | lia]).
           ++ apply (HJ il pl Hl); [assumption | lia].
           ++ exact Hgt.
        -- apply get_insert_cases in Hk' as [[-> ->]|[_ Hk']];
             [|apply (HJ k' p' Hk') | assumption].
           split.
           ++ intros _. cbn [left right born died set_died]. lia.
           ++ intros Hnn i Hi. cbn [left right born set_died] in *.
              apply (HJ il pl Hl); assumption.
Qed.

(** ** What [GetPeaks] returns *)

Lemma GetPeaks_sweep sq ps m :
  sweep sq (sorted_indices sq) ([], replicate (length sq) none) = Ok (ps, m) ->
  GetPeaks sq = Ok {| peaks := SliceStable (fun p q => born p <? born q) ps;
                      seq := sq |}.
Proof. intros E. unfold GetPeaks. rewrite E. reflexivity. Qed.

Lemma elem_of_get {A : Type} (l : list A) (x : A) :
  x ∈ l <-> exists k, get l k = Ok x.
Proof.
  split.
  - intros H. apply list_elem_of_lookup in H as [k Hk]. exists (Z.of_nat k).
    apply get_Ok_lookup. rewrite Nat2Z.id. split; [lia | assumption].
  - intros [k Hk]. apply get_Ok_lookup in Hk as [_ Hk].
    eapply list_elem_of_lookup_2. exact Hk.
Qed.

Lemma sorted_le_lt (l : list Z) :
  StronglySorted Z.le l -> NoDup l -> StronglySorted Z.lt l.
Proof.
  induction 1 as [|a l Hs IH Hall]; intros Hnd; [constructor|].
  apply NoDup_cons in Hnd as [Hnot Hnd]. constructor; [apply IH, Hnd|].
  rewrite Forall_forall in *. intros b Hb. specialize (Hall b Hb).
  assert (a <> b) by (intros ->; contradiction). lia.
Qed.

Lemma SliceStable_born_sorted (ps : list Peak) :
  StronglySorted Z.le (map born (SliceStable (fun p q => born p <? born q) ps)).
Proof.
  apply StronglySorted_fmap with (R1 := fun p q => (born q <? born p) = false).
  - intros p q H. apply Z.ltb_ge in H. exact H.
  - apply (SliceStable_sorted (fun p q => born p <? born q)).
    + intros a b c H1 H2. apply Z.ltb_lt in H1, H2. apply Z.ltb_lt. lia.
    + intros a b H. apply Z.ltb_lt in H. apply Z.ltb_ge. lia.
Qed.

(** X19.  The peaks that [GetPeaks] returns are born at distinct indices
    and are listed by strictly increasing index. *)
Theorem GetPeaks_born_increasing (sq : list float64) :
  exists pks, GetPeaks sq = Ok pks /\
    StronglySorted Z.lt (map born (peaks pks)).
Proof.
  destruct (sweep_births sq) as (ps & m & E & _ & _ & Hnd & _).
  eexists. split; [apply (GetPeaks_sweep sq ps m E)|]. cbn [peaks].
  apply sorted_le_lt; [apply SliceStable_born_sorted|].
  rewrite SliceStable_perm. exact Hnd.
Qed.

Lemma GetPeaks_births (sq : list float64) :
  exists pks, GetPeaks sq = Ok pks /\
    (forall p, p ∈ peaks pks -> local_max sq (born p)) /\
    (forall i, 0 <= i < len sq -> strict_local_max sq i ->
       exists p, p ∈ peaks pks /\ born p = i).
Proof.
  destruct (sweep_births sq) as (ps & m & E & _ & P & _ & _ & Hloc & Hstr).
  eexists. split; [apply (GetPeaks_sweep sq ps m E)|]. cbn [peaks]. split.
  - intros p Hp. rewrite SliceStable_perm in Hp. apply Hloc.
    apply list_elem_of_fmap. exists p. split; [reflexivity | assumption].
  - intros i Hi Hmax.
    assert (Hin : i ∈ map born ps).
    { apply Hstr; [|assumption]. apply P, elem_of_sorted_indices, Hi. }
    apply list_elem_of_fmap in Hin as (p & -> & Hp).
    exists p. split; [|reflexivity]. rewrite SliceStable_perm. exact Hp.
Qed.

(** X20.  On a sequence without NaN, every peak that [GetPeaks] returns is
    born at a local maximum (no neighbour is strictly greater), and every
    strict local maximum of the sequence is the birth index of a returned
    peak.  (With a NaN in the sequence the order in which the library's
    sort hands the indices to the sweep is not the one of [SliceStable]
    here, and the program can bear a peak beside a greater neighbour.) *)
Theorem GetPeaks_local_maxima (sq : list float64) :
  no_nan sq ->
  exists pks, GetPeaks sq = Ok pks /\
    (forall p, p ∈ peaks pks -> local_max sq (born p)) /\
    (forall i, 0 <= i < len sq -> strict_local_max sq i ->
       exists p, p ∈ peaks pks /\ born p = i).
Proof. intros _. apply GetPeaks_births. Qed.

Lemma GetPeaks_local_maxima_witness :
  no_nan sample_seq /\
  exists pks, GetPeaks sample_seq = Ok pks /\
    (forall p, p ∈ peaks pks -> local_max sample_seq (born p)) /\
    (forall i, 0 <= i < len sample_seq -> strict_local_max sample_seq i ->
       exists p, p ∈ peaks pks /\ born p = i).
Proof.
  assert (H : no_nan sample_seq) by (repeat constructor).
  split; [exact H|]. apply (GetPeaks_local_maxima sample_seq H).
Defined.

(** X21.  The spans of the peaks that [GetPeaks] returns: every peak has
    [0 <= left <= born <= right < len seq]; a peak that never died spans
    the whole sequence, and a dead peak died on the index next to its
    span. *)
Theorem GetPeaks_spans (sq : list float64) :
  exists pks, GetPeaks sq = Ok pks /\
    forall p, p ∈ peaks pks ->
      0 <= left p <= born p /\ born p <= right p < len sq /\
      (died p = none /\ left p = 0 /\ right p = len sq - 1
       \/ died p <> none /\ (died p = left p - 1 \/ died p = right p + 1)).
Proof.
  destruct (sweep_spans sq) as (ps & m & E & Inv & P & HJ).
  eexists. split; [apply (GetPeaks_sweep sq ps m E)|]. cbn [peaks].
  intros p Hp. rewrite SliceStable_perm in Hp.
  apply elem_of_get in Hp as [k Hk].
  destruct (Z.eq_dec (died p) none) as [Hd|Hd].
  - destruct (inv_alive _ _ _ Inv k p Hk Hd) as (B1 & B2 & _ & _ & _ & N1 & N2).
    split; [assumption|]. split; [assumption|]. left. split; [assumption|].
    assert (Hall : forall i, 0 <= i < len sq -> processed m i)
      by (intros i Hi; apply P, elem_of_sorted_indices, Hi).
    split.
    + destruct (Z.eq_dec (left p) 0); [assumption|].
      exfalso. apply N1, Hall. lia.
    + destruct (Z.eq_dec (right p) (len sq - 1)); [assumption|].
      exfalso. apply N2, Hall. lia.
  - destruct (proj1 (HJ k p Hk) Hd) as (H1 & H2 & H3).
    split; [assumption|]. split; [assumption|]. right. split; assumption.
Qed.

(** X22.  On a sequence without NaN, every peak that [GetPeaks] returns is born where the
    sequence is highest on its span, and the peak that never died is born
    at a maximum of the whole sequence. *)
Theorem GetPeaks_born_highest (sq : list float64) :
  no_nan sq ->
  exists pks, GetPeaks sq = Ok pks /\
    (forall p i, p ∈ peaks pks -> left p <= i <= right p ->
       F64.gt (value_at sq i) (value_at sq (born p)) = false) /\
    (forall p i, p ∈ peaks pks -> died p = none -> 0 <= i < len sq ->
       F64.gt (value_at sq i) (value_at sq (born p)) = false).
Proof.
  intros Hnn.
  destruct (sweep_spans sq) as (ps & m & E & Inv & P & HJ).
  eexists. split; [apply (GetPeaks_sweep sq ps m E)|]. cbn [peaks].
  assert (Hspan : forall p i, p ∈ ps -> left p <= i <= right p ->
            F64.gt (value_at sq i) (value_at sq (born p)) = false).
  { intros p i Hp Hi. apply elem_of_get in Hp as [k Hk].
    apply (proj2 (HJ k p Hk) Hnn i Hi). }
  split.
  - intros p i Hp Hi. rewrite SliceStable_perm in Hp. apply Hspan; assumption.
  - intros p i Hp Hd Hi. rewrite SliceStable_perm in Hp.
    apply Hspan; [assumption|].
    pose proof Hp as Hp'. apply elem_of_get in Hp' as [k Hk].
    destruct (inv_alive _ _ _ Inv k p Hk Hd) as (B1 & B2 & _ & _ & _ & N1 & N2).
    assert (Hall : forall i, 0 <= i < len sq -> processed m i)
      by (intros j Hj; apply P, elem_of_sorted_indices, Hj).
    destruct (Z_lt_le_dec i (left p)) as [Hlt|Hge].
    + exfalso. apply N1, Hall. lia.
    + destruct (Z_lt_le_dec (right p) i) as [Hgt|Hle]; [|lia].
      exfalso. apply N2, Hall. lia.
Qed.

Lemma GetPeaks_born_highest_witness :
  no_nan sample_seq /\
  exists pks, GetPeaks sample_seq = Ok pks /\
    (forall p i, p ∈ peaks pks -> left p <= i <= right p ->
       F64.gt (value_at sample_seq i) (value_at sample_seq (born p)) = false) /\
    (forall p i, p ∈ peaks pks -> died p = none -> 0 <= i < len sample_seq ->
       F64.gt (value_at sample_seq i) (value_at sample_seq (born p)) = false).
Proof.
  assert (H : no_nan sample_seq) by (repeat constructor).
  split; [exact H | exact (GetPeaks_born_highest sample_seq H)].
Defined.

(** ** [Max] *)

Lemma Max_loop (sq : list float64) : forall (l : list Z) i0 b0 v0,
  (forall i, i ∈ l -> 0 <= i < len sq) ->
  exists b v,
    range_loop i0 l
      (fun _ pk '(biggest, val) =>
         do v <- get sq pk;
         if F64.gt v val then Ok (pk, v) else Ok (biggest, val))
      (b0, v0) = Ok (b, v)
    /\ ((b = b0 /\ v = v0 /\
         forall i, i ∈ l -> F64.gt (value_at sq i) v0 = false)
        \/ (b ∈ l /\ v = value_at sq b /\ F64.gt v v0 = true /\
            forall i, i ∈ l -> F64.gt (value_at sq i) v = false)).
Proof.
  induction l as [|x l IH]; intros i0 b0 v0 Hin.
  - exists b0, v0. split; [reflexivity|]. left. repeat split.
    intros i Hi. apply elem_of_nil in Hi. contradiction.
  - cbn [range_loop].
    rewrite (value_at_get sq x) by (apply Hin; left). cbn [bind].
    assert (Hin' : forall i, i ∈ l -> 0 <= i < len sq)
      by (intros i Hi; apply Hin; right; exact Hi).
    destruct (F64.gt (value_at sq x) v0) eqn:Hgt.
    + destruct (IH (i0 + 1) x (value_at sq x) Hin') as (b & v & Hrun & Hcase).
      exists b, v. split; [exact Hrun|]. right.
      destruct Hcase as [(-> & -> & Hall)|(Hb & -> & Hgv & Hall)].
      * split; [left|]. split; [reflexivity|]. split; [exact Hgt|].
        intros i Hi. apply elem_of_cons in Hi as [->|Hi];
          [apply gt_irrefl | apply Hall, Hi].
      * split; [right; exact Hb|]. split; [reflexivity|].
        split; [exact (gt_trans _ _ _ Hgv Hgt)|].
        intros i Hi. apply elem_of_cons in Hi as [->|Hi];
          [apply gt_asym, Hgv | apply Hall, Hi].
    + destruct (IH (i0 + 1) b0 v0 Hin') as (b & v & Hrun & Hcase).
      exists b, v. split; [exact Hrun|].
      destruct Hcase as [(-> & -> & Hall)|(Hb & -> & Hgv & Hall)].
      * left. repeat split.
        intros i Hi. apply elem_of_cons in Hi as [->|Hi];
          [exact Hgt | apply Hall, Hi].
      * right. split; [right; exact Hb|]. split; [reflexivity|].
        split; [exact Hgv|].
        intros i Hi. apply elem_of_cons in Hi as [->|Hi]; [|apply Hall, Hi].
        destruct (F64.gt (value_at sq x) (value_at sq b)) eqn:Hxb; [|reflexivity].
        rewrite (gt_trans _ _ _ Hxb Hgv) in Hgt. discriminate Hgt.
Qed.

(** X23.  [Max] returns the index, among those that [GetIndices] returns, of a
    sample that none of them exceeds; it returns [-1] exactly when none of
    their samples is above [-Inf] (in particular when there is none). *)
Theorem Max_highest (sq : list float64) (f : float64) :
  exists pks idxs b,
    GetPeaks sq = Ok pks /\ GetIndices pks f = Ok idxs /\ Max pks f = Ok b /\
    ((b = -1 /\
      forall i, i ∈ idxs -> F64.gt (value_at sq i) F64.neg_inf = false)
     \/ (b ∈ idxs /\ F64.gt (value_at sq b) F64.neg_inf = true /\
         forall i, i ∈ idxs -> F64.gt (value_at sq i) (value_at sq b) = false)).
Proof.
  destruct (GetPeaks_returns sq) as (pks & E & Hseq & Hwf & _).
  destruct (minmax_loop sq (peaks pks) 0 F64.inf F64.neg_inf [] Hwf)
    as (mn & maxP & Emm & _).
  { split; [left; reflexivity|]. intros x Hx. apply elem_of_nil in Hx. contradiction. }
  assert (Hmm : MinMaxPersistence pks = Ok (mn, maxP))
    by (unfold MinMaxPersistence; rewrite Hseq; exact Emm).
  set (idxs := map born (filter (qualifies sq maxP f) (peaks pks))).
  assert (Hidx : GetIndices pks f = Ok idxs).
  { unfold GetIndices. rewrite Hmm. cbn [bind]. rewrite Hseq.
    apply (indices_loop sq maxP f (peaks pks) 0 [] Hwf). }
  assert (Hin : forall i, i ∈ idxs -> 0 <= i < len sq).
  { intros i Hi. apply list_elem_of_fmap in Hi as (p & -> & Hp).
    apply list_elem_of_filter in Hp as [_ Hp].
    rewrite Forall_forall in Hwf. apply (Hwf p Hp). }
  destruct (Max_loop sq idxs 0 (-1) F64.neg_inf Hin) as (b & v & Hrun & Hcase).
  exists pks, idxs, b. split; [exact E|]. split; [exact Hidx|]. split.
  - unfold Max. rewrite Hidx. cbn [bind]. rewrite Hseq, Hrun. reflexivity.
  - destruct Hcase as [(-> & -> & Hall)|(Hb & -> & Hgv & Hall)].
    + left. split; [reflexivity | exact Hall].
    + right. split; [exact Hb|]. split; [exact Hgv | exact Hall].
Qed.

(** ** The minimum of [MinMaxPersistence] *)

Lemma lt_irrefl a : F64.lt a a = false.
Proof. apply gt_irrefl. Qed.

Lemma minmax_loop_min (sq : list float64) : forall (l : list Peak) i0 mn mx,
  Forall (peak_in_range (len sq)) l ->
  exists mn' mx',
    range_loop i0 l
      (fun _ pk '(min, max) =>
         do prs <- getPersistence pk sq;
         let max := if F64.gt prs max && F64.lt prs F64.inf then prs else max in
         let min := if F64.lt prs min then prs else min in
         Ok (min, max))
      (mn, mx) = Ok (mn', mx')
    /\ ((mn' = mn /\
         forall p, p ∈ l -> F64.lt (persistence sq p) mn = false)
        \/ (mn' ∈ map (persistence sq) l /\ F64.lt mn' mn = true /\
            forall p, p ∈ l -> F64.lt (persistence sq p) mn' = false)).
Proof.
  induction l as [|q l IH]; intros i0 mn mx Hwf.
  - exists mn, mx. split; [reflexivity|]. left. split; [reflexivity|].
    intros p Hp. apply elem_of_nil in Hp. contradiction.
  - apply Forall_cons in Hwf as [Hq Hwf]. cbn [range_loop].
    rewrite (getPersistence_in_range sq q Hq). cbn [bind]. cbv zeta.
    set (prs := persistence sq q).
    destruct (F64.lt prs mn) eqn:Hlt.
    + destruct (IH (i0 + 1) prs
                 (if F64.gt prs mx && F64.lt prs F64.inf then prs else mx) Hwf)
        as (mn' & mx' & Hrun & Hcase).
      exists mn', mx'. split; [exact Hrun|]. right.
      destruct Hcase as [(-> & Hall)|(Hin & Hlt' & Hall)].
      * split; [cbn [map]; left|]. split; [exact Hlt|].
        intros p Hp. apply elem_of_cons in Hp as [->|Hp];
          [apply lt_irrefl | apply Hall, Hp].
      * split; [cbn [map]; right; exact Hin|].
        split; [exact (SFltb_trans _ _ _ Hlt' Hlt)|].
        intros p Hp. apply elem_of_cons in Hp as [->|Hp]; [|apply Hall, Hp].
        apply (gt_asym _ _ Hlt').
    + destruct (IH (i0 + 1) mn
                 (if F64.gt prs mx && F64.lt prs F64.inf then prs else mx) Hwf)
        as (mn' & mx' & Hrun & Hcase).
      exists mn', mx'. split; [exact Hrun|].
      destruct Hcase as [(-> & Hall)|(Hin & Hlt' & Hall)].
      * left. split; [reflexivity|].
        intros p Hp. apply elem_of_cons in Hp as [->|Hp];
          [exact Hlt | apply Hall, Hp].
      * right. split; [cbn [map]; right; exact Hin|]. split; [exact Hlt'|].
        intros p Hp. apply elem_of_cons in Hp as [->|Hp]; [|apply Hall, Hp].
        fold prs. destruct (F64.lt prs mn') eqn:Hpm; [|reflexivity].
        unfold F64.lt in *. rewrite (SFltb_trans _ _ _ Hpm Hlt') in Hlt.
        discriminate Hlt.
Qed.

(** X27.  The minimum that [MinMaxPersistence] returns for a result of
    [GetPeaks] is [+Inf] or the persistence of a peak, and no peak has a
    smaller persistence. *)
Theorem MinMaxPersistence_min (sq : list float64) :
  exists pks mn mx,
    GetPeaks sq = Ok pks /\ MinMaxPersistence pks = Ok (mn, mx) /\
    (mn = F64.inf \/ mn ∈ map (persistence sq) (peaks pks)) /\
    forall p, p ∈ peaks pks -> F64.lt (persistence sq p) mn = false.
Proof.
  destruct (GetPeaks_returns sq) as (pks & E & Hseq & Hwf & _).
  destruct (minmax_loop_min sq (peaks pks) 0 F64.inf F64.neg_inf Hwf)
    as (mn & mx & Hrun & Hcase).
  exists pks, mn, mx. split; [exact E|]. split.
  - unfold MinMaxPersistence. rewrite Hseq. exact Hrun.
  - destruct Hcase as [(-> & Hall)|(Hin & _ & Hall)].
    + split; [left; reflexivity | exact Hall].
    + split; [right; exact Hin | exact Hall].
Qed.

(** ** [Get] of package peaks *)

Lemma any_loop_spec (f : Z -> bool) (test : Z -> result bool) :
  forall count j,
    (forall k, j <= k < j + Z.of_nat count -> test k = Ok (f k)) ->
    exists b, any_loop count j test = Ok b /\
      (b = false <-> forall k, j <= k < j + Z.of_nat count -> f k = false).
Proof.
  induction count as [|c IH]; intros j Htest.
  - exists false. split; [reflexivity|]. split; [intros _ k Hk; lia | reflexivity].
  - cbn [any_loop]. rewrite (Htest j) by lia. cbn [bind].
    destruct (f j) eqn:Hf.
    + exists true. split; [reflexivity|]. split; [discriminate|].
      intros H. rewrite (H j) in Hf by lia. discriminate Hf.
    + destruct (IH (j + 1)) as (b & Hrun & Hb); [intros k Hk; apply Htest; lia|].
      exists b. split; [exact Hrun|]. rewrite Hb. split.
      * intros H k Hk. destruct (Z.eq_dec k j) as [->|]; [exact Hf | apply H; lia].
      * intros H k Hk. apply H. lia.
Qed.

Lemma isMax_spec (x : list float64) (i lo hi : Z) :
  0 <= i < len x -> len x <= Int.max_int ->
  exists b, isMax i lo hi x = Ok b /\
    (b = true <->
     (forall j, 0 <= j -> lo <= j < i ->
        F64.ge (value_at x j) (value_at x i) = false)
     /\ (forall j, j < len x -> i < j < hi ->
           F64.gt (value_at x j) (value_at x i) = false)).
Proof.
  intros Hi Hmax. unfold Int.max_int in Hmax. unfold isMax.
  set (mn := if lo <? 0 then 0 else lo).
  set (mx := if hi >? len x then len x else hi).
  assert (Hmn : 0 <= mn /\ lo <= mn /\ (mn = 0 \/ mn = lo))
    by (subst mn; destruct (Z.ltb_spec lo 0); lia).
  assert (Hmx : mx <= len x /\ mx <= hi /\ (mx = len x \/ mx = hi))
    by (subst mx; destruct (Z.gtb_spec hi (len x)); lia).
  rewrite wrap_small by (apply in_range_bounds; lia).
  destruct (any_loop_spec (fun j => F64.ge (value_at x j) (value_at x i))
              (fun j => do a <- get x j; do b <- get x i; Ok (F64.ge a b))
              (Z.to_nat (i - mn)) mn) as (h1 & Hrun1 & Hh1).
  { intros k Hk. rewrite (value_at_get x k), (value_at_get x i) by lia. reflexivity. }
  destruct (any_loop_spec (fun j => F64.gt (value_at x j) (value_at x i))
              (fun j => do a <- get x j; do b <- get x i; Ok (F64.gt a b))
              (Z.to_nat (mx - (i + 1))) (i + 1)) as (h2 & Hrun2 & Hh2).
  { intros k Hk. rewrite (value_at_get x k), (value_at_get x i) by lia. reflexivity. }
  rewrite Hrun1. cbn [bind]. destruct h1.
  - exists false. split; [reflexivity|]. split; [discriminate|].
    intros [H _]. exfalso.
    assert (true = false); [|discriminate]. apply Hh1.
    intros k Hk. apply H; lia.
  - rewrite Hrun2. cbn [bind]. exists (negb h2). split; [reflexivity|].
    rewrite negb_true_iff, Hh2. split.
    + intros H2. split.
      * intros j Hj0 Hj. apply (proj1 Hh1 eq_refl). lia.
      * intros j Hjl Hj. apply H2. lia.
    + intros [_ H2] k Hk. apply H2; lia.
Qed.

Lemma StronglySorted_snoc {A : Type} (R : A -> A -> Prop) (l : list A) (x : A) :
  StronglySorted R l -> Forall (fun y => R y x) l -> StronglySorted R (l ++ [x]).
Proof.
  induction 1 as [|a l Hs IH Ha]; intros Hall.
  - repeat constructor.
  - apply Forall_cons in Hall as [Hax Hall]. cbn [app]. constructor; [apply IH, Hall|].
    apply Forall_app. split; [exact Ha | repeat constructor; exact Hax].
Qed.

Lemma Get_loop (x : list float64) (sep : Z) :
  len x <= Int.max_int ->
  exists pks, Get x sep = Ok pks /\ StronglySorted Z.lt pks /\
    forall i, i ∈ pks <->
      0 <= i < len x /\
      isMax i (Int.wrap (i - sep)) (Int.wrap (i + sep)) x = Ok true.
Proof.
  intros Hmax. unfold Get.
  pose (P := fun (k : nat) (pks : list Z) =>
    StronglySorted Z.lt pks /\
    forall i, i ∈ pks <->
      0 <= i < Z.of_nat k /\
      isMax i (Int.wrap (i - sep)) (Int.wrap (i + sep)) x = Ok true).
  destruct (range_loop_total P
    (fun i (_ : float64) pks =>
       do b <- isMax i (Int.wrap (i - sep)) (Int.wrap (i + sep)) x;
       if b then Ok (pks ++ [i]) else Ok pks) x 0 []) as (pks & Hrun & Hs & Hin).
  - split; [constructor|]. intros i. split; [|lia].
    intros H. apply elem_of_nil in H. contradiction.
  - intros k v pks Hk [Hs Hin]. rewrite Z.add_0_l.
    assert (Hkr : 0 <= Z.of_nat k < len x)
      by (unfold len; apply lookup_lt_Some in Hk; lia).
    destruct (isMax_spec x (Z.of_nat k) (Int.wrap (Z.of_nat k - sep))
                (Int.wrap (Z.of_nat k + sep)) Hkr Hmax) as (b & Hb & _).
    rewrite Hb. cbn [bind]. destruct b.
    + eexists. split; [reflexivity|]. split.
      * apply StronglySorted_snoc; [exact Hs|].
        apply Forall_forall. intros y Hy. apply Hin in Hy. lia.
      * intros i. rewrite elem_of_app, list_elem_of_singleton, Hin. split.
        -- intros [[Hi Hm]| ->]; [split; [lia | exact Hm] | split; [lia | exact Hb]].
        -- intros [Hi Hm]. destruct (Z.eq_dec i (Z.of_nat k)) as [->|];
             [right; reflexivity | left; split; [lia | exact Hm]].
    + eexists. split; [reflexivity|]. split; [exact Hs|].
      intros i. rewrite Hin. split.
      * intros [Hi Hm]. split; [lia | exact Hm].
      * intros [Hi Hm]. split; [|exact Hm].
        destruct (Z.eq_dec i (Z.of_nat k)) as [->|]; [|lia].
        rewrite Hb in Hm. discriminate Hm.
  - exists pks. split; [exact Hrun|]. split; [exact Hs|]. exact Hin.
Qed.

Lemma isMax_window (x : list float64) (sep i : Z) :
  0 <= sep -> len x + sep <= Int.max_int -> 0 <= i < len x ->
  isMax i (Int.wrap (i - sep)) (Int.wrap (i + sep)) x = Ok true
  <-> window_max x sep i.
Proof.
  intros Hsep Hmax Hi. unfold Int.max_int in Hmax.
  rewrite !wrap_small by (apply in_range_bounds; lia).
  destruct (isMax_spec x i (i - sep) (i + sep) Hi ltac:(unfold Int.max_int; lia))
    as (b & Hb & Hiff).
  rewrite Hb. unfold window_max. rewrite <- Hiff. split; congruence.
Qed.

(** X24.  [Get] of package peaks, for a separation [sep >= 0] small enough
    for [len x + sep] to be an [int] (no [i + sep] wraps around): it
    returns, in increasing order, exactly the indices [i] such that no
    sample within [sep] before [i] reaches [x[i]] and no sample less than
    [sep] after [i] exceeds it.  ([Get_sep_wraps] below: beyond that bound
    the window after [i] is lost.) *)
Theorem Get_spec (x : list float64) (sep : Z) :
  0 <= sep -> len x + sep <= Int.max_int ->
  exists pks, Get x sep = Ok pks /\ StronglySorted Z.lt pks /\
    forall i, i ∈ pks <-> 0 <= i < len x /\ window_max x sep i.
Proof.
  intros Hsep Hmax.
  destruct (Get_loop x sep ltac:(unfold Int.max_int in *; lia))
    as (pks & Hrun & Hs & Hin).
  exists pks. split; [exact Hrun|]. split; [exact Hs|].
  intros i. rewrite Hin. split.
  - intros [Hi Hm]. split; [exact Hi|]. apply isMax_window; assumption.
  - intros [Hi Hm]. split; [exact Hi|]. apply isMax_window; assumption.
Qed.

Lemma Get_spec_witness :
  0 <= 2 /\ len sample_seq + 2 <= Int.max_int /\
  exists pks, Get sample_seq 2 = Ok pks /\ StronglySorted Z.lt pks /\
    forall i, i ∈ pks <-> 0 <= i < len sample_seq /\ window_max sample_seq 2 i.
Proof.
  split; [lia|]. split; [vm_compute; discriminate|].
  apply (Get_spec sample_seq 2); [lia | vm_compute; discriminate].
Defined.

(** With the separation at the maximal [int], [i + sep] wraps around for
    every [i >= 1]: the window after [i] is empty, and [Get] returns the
    indices 1 and 3 of the sample although both lie within [sep] of one
    another and of greater samples. *)
Lemma Get_sep_wraps : Get sample_seq Int.max_int = Ok [1; 3].
Proof. vm_compute. reflexivity. Qed.



(** X26.  [Get] returns for every separation, negative and overflowing
    ones included: it never indexes outside [x]. *)
Theorem Get_returns (x : list float64) (sep : Z) :
  len x <= Int.max_int -> exists pks, Get x sep = Ok pks.
Proof.
  intros Hmax. destruct (Get_loop x sep Hmax) as (pks & Hrun & _).
  exists pks. exact Hrun.
Qed.

Lemma Get_returns_witness :
  len sample_seq <= Int.max_int /\ exists pks, Get sample_seq (-1) = Ok pks.
Proof.
  split; [vm_compute; discriminate|].
  apply (Get_returns sample_seq (-1)). vm_compute. discriminate.
Defined.

(** ** [DownSampleAll] *)

Lemma min_len_loop (xs : list (list float64)) : forall i0 N0,
  exists N,
    range_loop i0 xs (fun _ x N => if len x <? N then Ok (len x) else Ok N) N0
    = Ok N
    /\ N <= N0 /\ (forall x, x ∈ xs -> N <= len x)
    /\ (N = N0 \/ exists x, x ∈ xs /\ N = len x).
Proof.
  induction xs as [|x xs IH]; intros i0 N0.
  - exists N0. split; [reflexivity|]. split; [lia|]. split; [|left; reflexivity].
    intros x Hx. apply elem_of_nil in Hx. contradiction.
  - cbn [range_loop].
    destruct (IH (i0 + 1) (if len x <? N0 then len x else N0))
      as (N & Hrun & Hle & Hall & Hin).
    exists N. split; [destruct (len x <? N0); exact Hrun|].
    destruct (Z.ltb_spec (len x) N0).
    + split; [lia|]. split.
      * intros y Hy. apply elem_of_cons in Hy as [->|Hy]; [lia | auto].
      * right. destruct Hin as [->|(y & Hy & ->)];
          [exists x; split; [left | reflexivity]
          |exists y; split; [right; exact Hy | reflexivity]].
    + split; [lia|]. split.
      * intros y Hy. apply elem_of_cons in Hy as [->|Hy]; [lia | auto].
      * destruct Hin as [->|(y & Hy & ->)]; [left; reflexivity|].
        right. exists y. split; [right; exact Hy | reflexivity].
Qed.

Lemma DownSampleAll_ok (xs : list (list float64)) (N : nat) :
  (0 < N)%nat ->
  (exists x, x ∈ xs /\ length x = N) ->
  Forall (fun x => x <> [] /\ (Z.of_nat N | len x) /\ len x <= Int.max_int) xs ->
  exists ys, DownSampleAll xs = Ok ys /\ length ys = length xs /\
    forall i x, xs !! i = Some x ->
      exists y, ys !! i = Some y /\ length y = N /\
        forall j, (j < N)%nat -> y !! j = x !! (j * (length x / N))%nat.
Proof.
  intros HN (xN & HxN & HlN) Hall.
  rewrite Forall_forall in Hall.
  destruct xs as [|x0 xs0] eqn:Hxs; [apply elem_of_nil in HxN; contradiction|].
  rewrite <- Hxs in *. unfold DownSampleAll.
  assert (Hget0 : get xs 0 = Ok x0) by (rewrite Hxs; reflexivity).
  rewrite Hget0. cbn [bind].
  destruct (min_len_loop xs 0 (len x0)) as (M & Hrun & Hle & Hmin & Hfrom).
  rewrite Hrun. cbn [bind].
  assert (Hpos : forall x, x ∈ xs -> Z.of_nat N <= len x).
  { intros x Hx. destruct (Hall x Hx) as (Hne & [q Hq] & _).
    assert (0 < len x) by (unfold len; destruct x; [contradiction | cbn; lia]).
    assert (0 < Z.of_nat N) by lia.
    assert (0 < q) by (destruct (Z_lt_le_dec 0 q); [assumption | nia]).
    nia. }
  assert (HM : M = Z.of_nat N).
  { assert (M <= Z.of_nat N) by (specialize (Hmin xN HxN); unfold len in Hmin; lia).
    assert (Z.of_nat N <= M); [|lia].
    destruct Hfrom as [->|(y & Hy & ->)]; apply Hpos; [rewrite Hxs; left | exact Hy]. }
  subst M. rewrite make_nonneg by (unfold len; lia). cbn [bind].
  pose (P := fun (k : nat) (ys : list (list float64)) =>
    length ys = length xs /\
    forall i x, (i < k)%nat -> xs !! i = Some x ->
      exists y, ys !! i = Some y /\ length y = N /\
        forall j, (j < N)%nat -> y !! j = x !! (j * (length x / N))%nat).
  destruct (range_loop_total P
    (fun i x ys =>
       do n <- Int.div (len x) (Z.of_nat N);
       do y <- DownSample x n;
       set ys i y) xs 0 (replicate (Z.to_nat (len xs)) [])) as (ys & Hloop & Hlen & Hval).
  - split; [rewrite length_replicate; unfold len; lia|]. intros; lia.
  - intros k x ys Hk [Hlen Hval].
    assert (Hx : x ∈ xs) by (eapply list_elem_of_lookup_2; exact Hk).
    destruct (Hall x Hx) as (Hne & [q Hq] & Hmax).
    pose proof (Hpos x Hx) as Hxpos.
    assert (HNz : 0 < Z.of_nat N) by lia.
    assert (Hq0 : 0 < q) by (destruct (Z_lt_le_dec 0 q); [assumption | nia]).
    unfold Int.div. destruct (Z.eqb_spec (Z.of_nat N) 0); [lia|]. cbn [bind].
    rewrite Hq, Z.quot_mul by lia.
    assert (Hqr : q <= len x) by nia.
    unfold Int.max_int in Hmax.
    rewrite wrap_small by (apply in_range_bounds; lia).
    destruct (DownSample_ok x (Z.to_nat q) N ltac:(lia)) as (y & Hy & Hly & Hvy);
      [unfold len in Hq; nia | unfold Int.max_int; lia |].
    rewrite Z2Nat.id in Hy by lia. rewrite Hy. cbn [bind].
    assert (Hkl : (k < length xs)%nat) by (eapply lookup_lt_Some; exact Hk).
    rewrite Z.add_0_l, (set_insert ys _ k y) by lia.
    eexists. split; [reflexivity|]. split; [rewrite length_insert; exact Hlen|].
    intros i x' Hi Hx'. destruct (Nat.eq_dec i k) as [->|Hne'].
    + rewrite list_lookup_insert_eq by lia.
      replace x' with x by congruence.
      exists y. split; [reflexivity|]. split; [exact Hly|].
      intros j Hj. rewrite (Hvy j Hj). f_equal. f_equal.
      assert (length x = (Z.to_nat q * N)%nat) by (unfold len in Hq; nia).
      rewrite H. rewrite Nat.div_mul by lia. reflexivity.
    + rewrite list_lookup_insert_ne by lia. apply Hval; [lia | exact Hx'].
  - exists ys. split; [exact Hloop|]. split; [exact Hlen|].
    intros i x Hi. apply Hval; [|exact Hi]. eapply lookup_lt_Some; exact Hi.
Qed.

(** X29.  [DownSampleAll] panics without a vector and whenever one of the
    vectors is empty (the quotient by the shortest length, 0, is a
    division by zero).  When the shortest length [N] is positive and
    divides every length, every vector comes back with [N] samples, vector
    [x] reduced to [x[0], x[q], x[2q], ...] for [q = len(x) / N]. *)
Theorem DownSampleAll_spec (xs : list (list float64)) (N : nat) :
  (0 < N)%nat ->
  (exists x, x ∈ xs /\ length x = N) ->
  Forall (fun x => x <> [] /\ (Z.of_nat N | len x) /\ len x <= Int.max_int) xs ->
  DownSampleAll [] = Panic /\
  (forall xs', [] ∈ xs' -> DownSampleAll xs' = Panic) /\
  exists ys, DownSampleAll xs = Ok ys /\ length ys = length xs /\
    forall i x, xs !! i = Some x ->
      exists y, ys !! i = Some y /\ length y = N /\
        forall j, (j < N)%nat -> y !! j = x !! (j * (length x / N))%nat.
Proof.
  intros HN Hex Hall. split; [reflexivity|].
  split; [|apply DownSampleAll_ok; assumption].
  clear. intros xs Hin.
  destruct xs as [|x0 xs0] eqn:Hxs; [apply elem_of_nil in Hin; contradiction|].
  rewrite <- Hxs in *. unfold DownSampleAll.
  assert (Hget0 : get xs 0 = Ok x0) by (rewrite Hxs; reflexivity).
  rewrite Hget0. cbn [bind].
  destruct (min_len_loop xs 0 (len x0)) as (M & Hrun & Hle & Hmin & Hfrom).
  rewrite Hrun. cbn [bind].
  assert (HM : M = 0).
  { specialize (Hmin [] Hin). unfold len in Hmin at 1. cbn [length] in Hmin.
    destruct Hfrom as [->|(y & _ & ->)]; unfold len in *; lia. }
  subst M. rewrite make_nonneg by (unfold len; lia). cbn [bind].
  rewrite Hxs. cbn [range_loop]. reflexivity.
Qed.

Lemma DownSampleAll_spec_witness :
  (0 < 3)%nat /\
  (exists x, x ∈ [sample_six; sample_chan_a] /\ length x = 3%nat) /\
  Forall (fun x => x <> [] /\ (Z.of_nat 3 | len x) /\ len x <= Int.max_int)
    [sample_six; sample_chan_a] /\
  DownSampleAll [] = Panic /\
  (forall xs', [] ∈ xs' -> DownSampleAll xs' = Panic) /\
  exists ys, DownSampleAll [sample_six; sample_chan_a] = Ok ys /\
    length ys = length [sample_six; sample_chan_a] /\
    forall i x, [sample_six; sample_chan_a] !! i = Some x ->
      exists y, ys !! i = Some y /\ length y = 3%nat /\
        forall j, (j < 3)%nat -> y !! j = x !! (j * (length x / 3))%nat.
Proof.
  assert (H1 : exists x, x ∈ [sample_six; sample_chan_a] /\ length x = 3%nat).
  { exists sample_chan_a. split; [right; left | reflexivity]. }
  assert (H2 : Forall (fun x => x <> [] /\ (Z.of_nat 3 | len x)
                                /\ len x <= Int.max_int)
                 [sample_six; sample_chan_a]).
  { repeat constructor; try discriminate.
    - exists 2. reflexivity.
    - exists 1. reflexivity. }
  split; [lia|]. split; [exact H1|]. split; [exact H2|].
  apply (DownSampleAll_spec [sample_six; sample_chan_a] 3); [lia | exact H1 | exact H2].
Defined.

(** ** [MovAvg] *)

Lemma Sum_fold (x : list float64) : Sum x = Ok (fold_left F64.add x F64.zero).
Proof.
  unfold Sum. generalize 0 at 1. generalize F64.zero.
  induction x as [|f x IH]; intros s i0; [reflexivity|].
  cbn [range_loop bind fold_left]. apply IH.
Qed.

Lemma MovAvg_ok (x : list float64) (w : Z) :
  0 <= w <= Int.max_int -> len x <= Int.max_int ->
  exists y, MovAvg x w = Ok y /\ length y = length x /\
    forall i : nat, (i < length x)%nat ->
      y !! i =
      Some (if (w <=? Z.of_nat i) && (Z.of_nat i <? len x - w)
            then F64.div
                   (fold_left F64.add
                      (take (Z.to_nat (2 * w)) (drop (Z.to_nat (Z.of_nat i - w)) x))
                      F64.zero)
                   (F64.of_Z (2 * w))
            else F64.zero).
Proof.
  intros Hw Hmax. unfold Int.max_int in *. unfold MovAvg.
  rewrite make_nonneg by (unfold len; lia). cbn [bind].
  rewrite wrap_small by (apply in_range_bounds; unfold len in *; lia).
  set (val := fun i : nat =>
         F64.div
           (fold_left F64.add
              (take (Z.to_nat (2 * w)) (drop (Z.to_nat (Z.of_nat i - w)) x))
              F64.zero)
           (F64.of_Z (2 * w))).
  pose (P := fun (k : nat) (y : list float64) =>
    length y = length x /\
    forall i : nat, (i < length x)%nat ->
      y !! i = Some (if (w <=? Z.of_nat i) && (Z.of_nat i <? w + Z.of_nat k)
                     then val i else F64.zero)).
  destruct (for_range_total P
    (fun i y =>
       do win <- slice x (Int.wrap (i - w)) (Int.wrap (i + w));
       do s <- Sum win;
       set y i (F64.div s (F64.of_Z (Int.wrap (2 * w)))))
    w (len x - w) (replicate (Z.to_nat (len x)) F64.zero)) as (y & Hrun & Hlen & Hval).
  - split; [rewrite length_replicate; unfold len; lia|].
    intros i Hi. rewrite lookup_replicate_2 by (unfold len; lia).
    destruct (Z.leb_spec w (Z.of_nat i)), (Z.ltb_spec (Z.of_nat i) (w + Z.of_nat 0));
      cbn [andb]; try reflexivity; lia.
  - intros k y Hk [Hlen Hval].
    assert (Hr : w + Z.of_nat k < len x - w) by lia.
    assert (Hx0 : 0 <= len x) by (unfold len; lia).
    rewrite !wrap_small by (apply in_range_bounds; unfold len in *; lia).
    rewrite slice_ok by (unfold len in *; lia). cbn [bind]. rewrite Sum_fold. cbn [bind].
    rewrite (set_insert y _ (Z.to_nat (w + Z.of_nat k))) by (unfold len in *; lia).
    eexists. split; [reflexivity|]. split; [rewrite length_insert; exact Hlen|].
    intros i Hi. destruct (Nat.eq_dec i (Z.to_nat (w + Z.of_nat k))) as [->|Hne].
    + rewrite list_lookup_insert_eq by (unfold len in *; lia). f_equal.
      rewrite Z2Nat.id by lia.
      destruct (Z.leb_spec w (w + Z.of_nat k)); [|lia].
      destruct (Z.ltb_spec (w + Z.of_nat k) (w + Z.of_nat (S k))); [|lia].
      cbn [andb]. subst val. cbn beta. rewrite Z2Nat.id by lia.
      do 3 f_equal; lia.
    + rewrite list_lookup_insert_ne by lia. rewrite (Hval i Hi). f_equal.
      destruct (Z.leb_spec w (Z.of_nat i)); cbn [andb]; [|reflexivity].
      destruct (Z.ltb_spec (Z.of_nat i) (w + Z.of_nat k)),
               (Z.ltb_spec (Z.of_nat i) (w + Z.of_nat (S k)));
        try reflexivity; lia.
  - exists y. split; [exact Hrun|]. split; [exact Hlen|].
    intros i Hi. rewrite (Hval i Hi). f_equal.
    destruct (Z.leb_spec w (Z.of_nat i)); cbn [andb]; [|reflexivity].
    destruct (Z.ltb_spec (Z.of_nat i) (w + Z.of_nat (Z.to_nat (len x - w - w)))),
             (Z.ltb_spec (Z.of_nat i) (len x - w));
      try reflexivity; unfold len in *; lia.
Qed.

(** X30.  [MovAvg] on a half-width [w] (an [int]).  For [w < 0] the loop
    starts at [i = w] and is entered when [w < len(x) - w] in [int]
    arithmetic: its first round then panics (on the slice [x[0:2w]], or on
    the store to [y[w]]); this is so whenever [len(x) - w] does not
    overflow.  When [len(x) - w] wraps around to a value that is not
    above [w], the loop is not entered and [MovAvg] returns [len(x)]
    zeros.  For [w >= 0] it returns as many samples as [x] has, sample
    [i] being [Sum(x[i-w:i+w]) / float64(2w)] (the [2w] samples from
    [i-w] to [i+w-1], added from left to right) for [w <= i < len(x)-w]
    and 0 on both borders; for [w = 0] every sample is therefore [0/0],
    that is NaN. *)
Theorem MovAvg_spec (x : list float64) (w : Z) :
  Int.in_range w -> len x <= Int.max_int ->
  MovAvg x w
  = (if w <? 0 then
       if w <? Int.wrap (len x - w) then Panic
       else Ok (replicate (length x) F64.zero)
     else
       Ok (map (fun i : nat =>
                  if (w <=? Z.of_nat i) && (Z.of_nat i <? len x - w)
                  then F64.div
                         (fold_left F64.add
                            (take (Z.to_nat (2 * w))
                               (drop (Z.to_nat (Z.of_nat i - w)) x))
                            F64.zero)
                         (F64.of_Z (2 * w))
                  else F64.zero)
               (List.seq 0 (length x))))
  /\ (w < 0 -> len x - w <= Int.max_int -> MovAvg x w = Panic)
  /\ (w = 0 -> MovAvg x w = Ok (replicate (length x) F64.nan)).
Proof.
  intros Hw Hmax. pose proof Hw as Hw'. pose proof Hmax as Hmax'.
  unfold Int.in_range, Int.min_int, Int.max_int in Hw', Hmax'.
  assert (Hneg : w < 0 ->
            MovAvg x w = if w <? Int.wrap (len x - w) then Panic
                         else Ok (replicate (length x) F64.zero)).
  { intros Hn. unfold MovAvg.
    rewrite make_nonneg by (unfold len; lia). cbn [bind].
    unfold for_range.
    destruct (Z.ltb_spec w (Int.wrap (len x - w))) as [Hlt|Hge].
    - destruct (Z.to_nat (Int.wrap (len x - w) - w)) as [|c] eqn:Hc; [lia|].
      cbn [for_loop]. unfold slice.
      destruct ((0 <=? Int.wrap (w - w)) && (Int.wrap (w - w) <=? Int.wrap (w + w))
                && (Int.wrap (w + w) <=? len x));
        cbn [bind]; [|reflexivity].
      rewrite Sum_fold. cbn [bind]. unfold set.
      destruct (Z.leb_spec 0 w); [lia | reflexivity].
    - replace (Z.to_nat (Int.wrap (len x - w) - w)) with 0%nat by lia.
      cbn [for_loop]. unfold len. rewrite Nat2Z.id. reflexivity. }
  split; [|split].
  - destruct (Z.ltb_spec w 0) as [Hn|Hp]; [apply Hneg, Hn|].
    destruct (MovAvg_ok x w ltac:(unfold Int.max_int; lia) Hmax)
      as (y & Hrun & Hlen & Hval).
    rewrite Hrun. f_equal. apply list_eq. intros i.
    destruct (Nat.lt_ge_cases i (length x)) as [Hi|Hi].
    + rewrite (Hval i Hi).
      rewrite (list_lookup_fmap _ (List.seq 0 (length x)) i).
      rewrite lookup_seq_lt by exact Hi. reflexivity.
    + rewrite !lookup_ge_None_2;
        [reflexivity | rewrite length_map, length_seq; lia | lia].
  - intros Hn Hfit. unfold Int.max_int in Hfit. rewrite (Hneg Hn).
    rewrite wrap_small by (apply in_range_bounds; unfold len in *; lia).
    destruct (Z.ltb_spec w (len x - w)); [reflexivity | unfold len in *; lia].
  - intros ->.
    destruct (MovAvg_ok x 0 ltac:(unfold Int.max_int; lia) Hmax)
      as (y & Hrun & Hlen & Hval).
    rewrite Hrun. f_equal. apply list_eq. intros i.
    destruct (Nat.lt_ge_cases i (length x)) as [Hi|Hi].
    + rewrite (Hval i Hi), lookup_replicate_2 by assumption. f_equal.
      destruct (Z.leb_spec 0 (Z.of_nat i)); [|lia].
      destruct (Z.ltb_spec (Z.of_nat i) (len x - 0)); [|unfold len in *; lia].
      reflexivity.
    + rewrite !lookup_ge_None_2; [reflexivity | rewrite length_replicate; lia | lia].
Qed.

(** On the samples 0 to 5: a half-width of -1 panics, a half-width of 1
    gives the means of two neighbours between two zeros. *)
Lemma MovAvg_spec_witness :
  (Int.in_range (-1) /\ len sample_six <= Int.max_int
   /\ MovAvg sample_six (-1) = Panic)
  /\ (Int.in_range 1 /\ len sample_six <= Int.max_int
      /\ MovAvg sample_six 1
         = Ok (map (fun i : nat =>
                      if (1 <=? Z.of_nat i) && (Z.of_nat i <? len sample_six - 1)
                      then F64.div
                             (fold_left F64.add
                                (take (Z.to_nat (2 * 1))
                                   (drop (Z.to_nat (Z.of_nat i - 1)) sample_six))
                                F64.zero)
                             (F64.of_Z (2 * 1))
                      else F64.zero)
                   (List.seq 0 (length sample_six)))).
Proof.
  assert (Hm : Int.in_range (-1))
    by (unfold Int.in_range, Int.min_int, Int.max_int; lia).
  assert (Hp : Int.in_range 1)
    by (unfold Int.in_range, Int.min_int, Int.max_int; lia).
  assert (H' : len sample_six <= Int.max_int) by (vm_compute; discriminate).
  split; (split; [assumption|]; split; [exact H'|]).
  - apply (MovAvg_spec sample_six (-1) Hm H'); [lia | vm_compute; discriminate].
  - exact (proj1 (MovAvg_spec sample_six 1 Hp H')).
Defined.

(** ** The first revision: bands of equal length *)

Lemma Padded_GetCoefficients_ok (t : Padded.Transform) (m : nat) :
  0 <= Padded.level t -> (1 <= m)%nat ->
  len (Padded.st t) = Z.of_nat m * 2 ^ Padded.level t ->
  len (Padded.st t) <= Int.max_int ->
  Padded.GetCoefficients t =
  Ok (map (fun i =>
             take (Z.to_nat (Z.of_nat m * 2 ^ (Padded.level t - 1 - Z.of_nat i)))
               (drop (Z.to_nat (Z.of_nat m * 2 ^ (Padded.level t - 1 - Z.of_nat i)))
                  (Padded.st t)))
        (List.seq 0 (Z.to_nat (Padded.level t)))).
Proof.
  intros Hl Hm Hlen Hmax. unfold Int.max_int in Hmax.
  unfold Padded.GetCoefficients. rewrite make_nonneg by assumption. cbn [bind].
  set (lv := Padded.level t) in *. set (buf := Padded.st t) in *.
  set (L := Z.to_nat lv).
  set (bandP := fun i : nat =>
         take (Z.to_nat (Z.of_nat m * 2 ^ (lv - 1 - Z.of_nat i)))
           (drop (Z.to_nat (Z.of_nat m * 2 ^ (lv - 1 - Z.of_nat i))) buf)).
  pose (P := fun (k : nat) (s : Z * list (list float64)) =>
    ((k < L)%nat -> fst s = Z.of_nat m * 2 ^ (lv - 1 - Z.of_nat k)) /\
    length (snd s) = L /\
    forall i, (i < k)%nat -> snd s !! i = Some (bandP i)).
  match goal with
  | |- (do ' (_, cfs) <- ?run; Ok cfs) = _ =>
      enough (exists s, run = Ok s /\ P L s) as ([half cfs] & Hrun & _ & Hlc & Hval)
  end.
  { rewrite Hrun. cbn [bind]. f_equal. cbn [snd] in Hlc, Hval.
    apply list_eq. intros i. destruct (Nat.lt_ge_cases i L) as [Hi|Hi].
    - rewrite Hval by assumption. rewrite list_lookup_fmap, lookup_seq_lt by assumption.
      reflexivity.
    - rewrite !lookup_ge_None_2; [reflexivity | | lia].
      rewrite length_map, length_seq. lia. }
  apply (for_range_count P L); [lia | |].
  - split; [|split; [apply length_replicate | intros; lia]].
    cbn [fst]. intros HL. rewrite Hlen, half_div
      by (pose proof (pow2_pos lv ltac:(lia)); nia).
    rewrite (pow2_half lv) by lia.
    rewrite Z.mul_assoc, (Z.mul_comm (Z.of_nat m * 2)), Z.mul_assoc.
    replace (2 ^ (lv - 1) * Z.of_nat m * 2) with (Z.of_nat m * 2 ^ (lv - 1) * 2) by lia.
    rewrite Z.div_mul by lia. do 2 f_equal. lia.
  - intros k [half cfs] Hk (Hh & Hlc & Hval). cbn [fst snd] in Hh, Hlc, Hval.
    specialize (Hh Hk).
    assert (HkK : 0 <= lv - 1 - Z.of_nat k) by lia.
    pose proof (pow2_pos _ HkK) as Hp.
    assert (H2h : 2 * half = Z.of_nat m * 2 ^ (lv - Z.of_nat k)).
    { rewrite Hh, (pow2_half (lv - Z.of_nat k)) by lia.
      replace (lv - Z.of_nat k - 1) with (lv - 1 - Z.of_nat k) by lia. lia. }
    assert (Hle : 2 ^ (lv - Z.of_nat k) <= 2 ^ lv) by (apply pow2_le_mono; lia).
    assert (Hfit : 2 * half <= len buf) by (rewrite H2h, Hlen; nia).
    assert (Hh0 : 0 < half) by nia.
    rewrite (wrap_small (2 * half)) by (apply in_range_bounds; lia).
    rewrite slice_ok by lia. cbn [bind].
    rewrite (set_insert cfs _ k) by lia. cbn [bind].
    eexists. split; [reflexivity|]. split; [|split].
    + cbn [fst]. intros HSk. rewrite half_div, Hh by lia.
      rewrite (pow2_half (lv - 1 - Z.of_nat k)) by lia.
      replace (Z.of_nat m * (2 * 2 ^ (lv - 1 - Z.of_nat k - 1)))
        with (Z.of_nat m * 2 ^ (lv - 1 - Z.of_nat k - 1) * 2) by lia.
      rewrite Z.div_mul by lia. do 2 f_equal. lia.
    + cbn [snd]. rewrite length_insert. exact Hlc.
    + cbn [snd]. intros i Hi. destruct (Nat.eq_dec i k) as [->|Hne].
      * rewrite list_lookup_insert_eq by lia. f_equal. subst bandP. cbn beta.
        rewrite <- Hh. do 2 f_equal. lia.
      * rewrite list_lookup_insert_ne by lia. apply Hval. lia.
Qed.

(** X28.  The first revision of [GetDownSampledCoefficients] (the one
    [dwt.go] held before the sections): on a frame of [m * 2^level]
    samples, [m >= 1] and [level >= 1], it returns [level] bands of [m]
    samples each; band [i] keeps every [2^(level-1-i)]-th sample of band
    [i] of [GetCoefficients], so the deepest band is returned in full. *)
Theorem Padded_GetDownSampledCoefficients_equal_length
    (t : Padded.Transform) (m : nat) :
  1 <= Padded.level t -> (1 <= m)%nat ->
  len (Padded.st t) = Z.of_nat m * 2 ^ Padded.level t ->
  len (Padded.st t) <= Int.max_int ->
  exists cfs ds,
    Padded.GetCoefficients t = Ok cfs /\
    Padded.GetDownSampledCoefficients t = Ok ds /\
    len cfs = Padded.level t /\ len ds = Padded.level t /\
    forall (i : nat) c d, cfs !! i = Some c -> ds !! i = Some d ->
      length d = m /\
      (Z.of_nat i = Padded.level t - 1 -> d = c) /\
      forall j : nat, (j < m)%nat ->
        d !! j = c !! (j * Z.to_nat (2 ^ (Padded.level t - 1 - Z.of_nat i)))%nat.
Proof.
  intros Hl Hm Hlen Hmax.
  pose proof (Padded_GetCoefficients_ok t m ltac:(lia) Hm Hlen Hmax) as Hcfs.
  unfold Int.max_int in Hmax.
  set (lv := Padded.level t) in *. set (buf := Padded.st t) in *.
  set (L := Z.to_nat lv) in *.
  set (h := fun i : nat => Z.of_nat m * 2 ^ (lv - 1 - Z.of_nat i)) in *.
  set (bandP := fun i : nat => take (Z.to_nat (h i)) (drop (Z.to_nat (h i)) buf)) in *.
  set (cfs := map bandP (List.seq 0 L)) in *.
  change (Padded.GetCoefficients t = Ok cfs) in Hcfs.
  assert (Hhpos : forall i, (i < L)%nat -> 0 < h i /\ 2 * h i <= len buf).
  { intros i Hi. subst h. cbn beta.
    pose proof (pow2_pos (lv - 1 - Z.of_nat i) ltac:(lia)) as Hp.
    split; [nia|]. rewrite Hlen.
    replace (2 * (Z.of_nat m * 2 ^ (lv - 1 - Z.of_nat i)))
      with (Z.of_nat m * (2 * 2 ^ (lv - 1 - Z.of_nat i))) by lia.
    rewrite <- Z.pow_succ_r by lia.
    assert (2 ^ Z.succ (lv - 1 - Z.of_nat i) <= 2 ^ lv) by (apply pow2_le_mono; lia).
    nia. }
  assert (Hbl : forall i, (i < L)%nat -> length (bandP i) = Z.to_nat (h i)).
  { intros i Hi. destruct (Hhpos i Hi) as [H1 H2]. subst bandP. cbn beta.
    rewrite length_take, length_drop. unfold len in H2. lia. }
  assert (Hcl : length cfs = L) by (subst cfs; rewrite length_map, length_seq; reflexivity).
  assert (Hci : forall i, (i < L)%nat -> cfs !! i = Some (bandP i)).
  { intros i Hi. subst cfs. rewrite list_lookup_fmap, lookup_seq_lt by assumption.
    reflexivity. }
  assert (HL : (1 <= L)%nat) by lia.
  assert (Hlast : h (L - 1)%nat = Z.of_nat m).
  { subst h. cbn beta. replace (lv - 1 - Z.of_nat (L - 1)) with 0 by lia. lia. }
  set (D := fun i : nat =>
         if Z.of_nat i =? lv - 1 then bandP i
         else decimate (Z.to_nat (2 ^ (lv - 1 - Z.of_nat i))) (bandP i)).
  assert (Hds : Padded.GetDownSampledCoefficients t = Ok (map D (List.seq 0 L))).
  { unfold Padded.GetDownSampledCoefficients. rewrite Hcfs. cbn [bind].
    rewrite (get_lookup cfs _ (L - 1)%nat (bandP (L - 1)%nat));
      [| unfold len; rewrite Hcl; lia | apply Hci; lia].
    cbn [bind]. cbv zeta.
    assert (HminN : len (bandP (L - 1)%nat) = Z.of_nat m)
      by (unfold len; rewrite Hbl, Hlast by lia; lia).
    rewrite HminN.
    pose (P := fun (k : nat) (cur : list (list float64)) =>
      length cur = L /\
      forall i, (i < L)%nat ->
        cur !! i = Some (if (i <? k)%nat then D i else bandP i)).
    destruct (range_loop_total P
      (fun i cf cfs0 =>
         if negb (i =? len cfs0 - 1) then
           do ds <- Int.div (len cf) (Z.of_nat m);
           do d <- DownSample cf ds;
           set cfs0 i d
         else Ok cfs0) cfs 0 cfs) as (cur & Hrun & Hlc & Hval).
    - split; [exact Hcl|]. intros i Hi. rewrite (Hci i Hi). reflexivity.
    - intros k cf cur Hk [Hlc Hval].
      assert (HkL : (k < L)%nat) by (rewrite <- Hcl; eapply lookup_lt_Some; exact Hk).
      rewrite (Hci k HkL) in Hk. injection Hk as <-.
      rewrite Z.add_0_l. unfold len at 1. rewrite Hlc.
      assert (Hstep : forall v, v = D k ->
                exists s', Ok (<[k := v]> cur) = Ok s' /\ P (S k) s').
      { intros v ->. eexists. split; [reflexivity|].
        split; [rewrite length_insert; exact Hlc|].
        intros i Hi. destruct (Nat.eq_dec i k) as [->|Hne].
        - rewrite list_lookup_insert_eq by lia.
          destruct (Nat.ltb_spec k (S k)); [reflexivity | lia].
        - rewrite list_lookup_insert_ne by lia. rewrite (Hval i Hi).
          destruct (Nat.ltb_spec i k), (Nat.ltb_spec i (S k)); (reflexivity || lia). }
      destruct (Z.eqb_spec (Z.of_nat k) (Z.of_nat L - 1)) as [Hkl|Hkl]; cbn [negb].
      + destruct (Hstep (bandP k)) as (s' & Hs' & HP).
        { subst D. cbn beta. destruct (Z.eqb_spec (Z.of_nat k) (lv - 1)); [reflexivity | lia]. }
        exists s'. split; [|exact HP]. rewrite <- Hs'. f_equal.
        symmetry. apply list_insert_id. rewrite (Hval k HkL).
        destruct (Nat.ltb_spec k k); [lia | reflexivity].
      + destruct (Hhpos k HkL) as [Hh1 Hh2].
        assert (He : 0 <= lv - 1 - Z.of_nat k) by lia.
        pose proof (pow2_pos _ He) as Hp.
        assert (Hlk : len (bandP k) = 2 ^ (lv - 1 - Z.of_nat k) * Z.of_nat m).
        { unfold len. rewrite (Hbl k HkL). subst h. cbn beta in *. lia. }
        unfold Int.div. destruct (Z.eqb_spec (Z.of_nat m) 0); [lia|]. cbn [bind].
        rewrite Hlk, Z.quot_mul by lia.
        assert (Hlkb : len (bandP k) <= len buf) by (rewrite Hlk; subst h; cbn beta in *; lia).
        rewrite wrap_small by (apply in_range_bounds; nia).
        cbn [bind].
        rewrite DownSample_decimate;
          [| lia | exists (Z.of_nat m); rewrite Hlk; lia | unfold Int.max_int; lia].
        cbn [bind]. rewrite (set_insert cur _ k) by lia.
        apply Hstep. subst D. cbn beta.
        destruct (Z.eqb_spec (Z.of_nat k) (lv - 1)); [lia | reflexivity].
    - rewrite Hrun. f_equal. apply list_eq. intros i.
      destruct (Nat.lt_ge_cases i L) as [Hi|Hi].
      + rewrite (Hval i), list_lookup_fmap, lookup_seq_lt by (rewrite ?Hcl; lia).
        rewrite Hcl. destruct (Nat.ltb_spec i L); [reflexivity | lia].
      + rewrite !lookup_ge_None_2; [reflexivity | | lia].
        rewrite length_map, length_seq. lia. }
  exists cfs, (map D (List.seq 0 L)).
  split; [exact Hcfs|]. split; [exact Hds|].
  split; [unfold len; rewrite Hcl; lia|].
  split; [unfold len; rewrite length_map, length_seq; lia|].
  intros i c d Hc Hd.
  assert (Hi : (i < L)%nat) by (rewrite <- Hcl; eapply lookup_lt_Some; exact Hc).
  rewrite (Hci i Hi) in Hc. injection Hc as <-.
  rewrite list_lookup_fmap, lookup_seq_lt in Hd by assumption.
  cbn in Hd. injection Hd as <-.
  destruct (Hhpos i Hi) as [Hh1 Hh2].
  assert (He : 0 <= lv - 1 - Z.of_nat i) by lia.
  pose proof (pow2_pos _ He) as Hp.
  set (n := Z.to_nat (2 ^ (lv - 1 - Z.of_nat i))).
  assert (Hbn : length (bandP i) = (m * n)%nat).
  { rewrite (Hbl i Hi). subst h n. cbn beta. nia. }
  subst D. cbn beta. destruct (Z.eqb_spec (Z.of_nat i) (lv - 1)) as [Hdeep|Hnot].
  - assert (Hn1 : n = 1%nat).
    { subst n. replace (lv - 1 - Z.of_nat i) with 0 by lia. reflexivity. }
    split; [rewrite Hbn, Hn1; lia|]. split; [reflexivity|].
    intros j Hj. rewrite Hn1. f_equal. lia.
  - split; [|split; [intros; lia|]].
    + rewrite length_decimate, Hbn. apply Nat.div_mul. lia.
    + intros j Hj. apply decimate_lookup; [lia|].
      rewrite Hbn, Nat.div_mul by lia. exact Hj.
Qed.

Lemma Padded_GetDownSampledCoefficients_equal_length_witness :
  1 <= Padded.level (Padded.mkTransform sample_frame 2 0) /\
  (1 <= 4)%nat /\
  len (Padded.st (Padded.mkTransform sample_frame 2 0))
    = Z.of_nat 4 * 2 ^ Padded.level (Padded.mkTransform sample_frame 2 0) /\
  len (Padded.st (Padded.mkTransform sample_frame 2 0)) <= Int.max_int /\
  exists cfs ds,
    Padded.GetCoefficients (Padded.mkTransform sample_frame 2 0) = Ok cfs /\
    Padded.GetDownSampledCoefficients (Padded.mkTransform sample_frame 2 0) = Ok ds /\
    len cfs = 2 /\ len ds = 2 /\
    forall (i : nat) c d, cfs !! i = Some c -> ds !! i = Some d ->
      length d = 4%nat /\
      (Z.of_nat i = 2 - 1 -> d = c) /\
      forall j : nat, (j < 4)%nat ->
        d !! j = c !! (j * Z.to_nat (2 ^ (2 - 1 - Z.of_nat i)))%nat.
Proof.
  split; [cbn; lia|]. split; [lia|]. split; [reflexivity|].
  split; [vm_compute; discriminate|].
  apply (Padded_GetDownSampledCoefficients_equal_length
           (Padded.mkTransform sample_frame 2 0) 4);
    [cbn; lia | lia | reflexivity | vm_compute; discriminate].
Defined.
